(** * SaveAny-Bot, package [ai]: the AI rename service

    A shallow embedding of [pkg/ai/rename.go] (name generation and the
    sanitizer) and of the singleton wiring around it, with the properties
    of the specification stated over that embedding.

    Go strings are byte sequences; they are modelled as lists of [ascii]
    (one [ascii] is one byte), so that [len(name)], the UTF-8 decoding done
    by [[]rune(name)] and the re-encoding done by [string(runes)] are all
    visible.  String literals of this file are UTF-8, hence a literal such
    as "中" is three bytes long, exactly as in the Go source. *)

From Stdlib Require Import ZArith Bool Ascii String List Lia.
Import ListNotations.
Local Open Scope Z_scope.

(** ** Bytes, strings, runes *)

Abbreviation byte := ascii (only parsing).
Abbreviation rune := Z (only parsing).
Definition gostring := list byte.

Definition lit (s : string) : gostring := list_ascii_of_string s.

Definition byteval (b : byte) : Z := Z.of_N (N_of_ascii b).

(** Go's conversion [byte(x)]: the low eight bits. *)
Definition byte_of (z : Z) : byte := ascii_of_N (Z.to_N (z mod 256)).

Fixpoint gostring_eqb (a b : gostring) : bool :=
  match a, b with
  | [], [] => true
  | x :: a', y :: b' => Ascii.eqb x y && gostring_eqb a' b'
  | _, _ => false
  end.

Definition is_empty (s : gostring) : bool :=
  match s with [] => true | _ => false end.

(** What the language leaves to the implementation and the operating
    system: which bytes separate path elements ([os.IsPathSeparator]), and
    how many spare elements the slice made by [[]rune(s)] has beyond its
    length (its capacity is [n + spare_runes n] for a string of [n] code
    points; the Go specification fixes the length only). *)
Record Platform := {
  IsPathSeparator : byte -> bool;
  spare_runes : nat -> nat
}.

(** A Unix platform whose conversions allocate exactly what they need. *)
Definition unix_tight : Platform :=
  {| IsPathSeparator := fun c => Ascii.eqb c "/"; spare_runes := fun _ => 0%nat |}.

(** A Unix platform that converts short strings into a 32-rune buffer, as
    the gc runtime does for slices that do not escape. *)
Definition unix_buf32 : Platform :=
  {| IsPathSeparator := fun c => Ascii.eqb c "/";
     spare_runes := fun n => (32 - n)%nat |}.

(** Outcome of running a piece of Go code: it returns, or it panics. *)
Inductive exec (A : Type) : Type :=
| Returned (a : A)
| Panicked.
Arguments Returned {A} a.
Arguments Panicked {A}.

(** ** Package [unicode/utf8] and the rune conversions of the runtime *)

Module utf8.

Definition RuneError : rune := 0xFFFD.
Definition RuneSelf : Z := 0x80.
Definition MaxRune : rune := 0x10FFFF.
Definition UTFMax : nat := 4.

Definition maskx : Z := 0x3F.
Definition mask2 : Z := 0x1F.
Definition mask3 : Z := 0x0F.
Definition mask4 : Z := 0x07.
Definition tx : Z := 0x80.
Definition t2 : Z := 0xC0.
Definition t3 : Z := 0xE0.
Definition t4 : Z := 0xF0.
Definition locb : Z := 0x80.
Definition hicb : Z := 0xBF.

(** The table [first] together with [acceptRanges]: for a leading byte,
    either ASCII, or invalid, or the sequence length and the range the
    second byte must lie in. *)
Inductive firstinfo := As | Xx | Sz (size : nat) (lo hi : Z).

Definition first (s0 : Z) : firstinfo :=
  if s0 <? 0x80 then As
  else if s0 <? 0xC2 then Xx
  else if s0 <? 0xE0 then Sz 2 locb hicb
  else if s0 =? 0xE0 then Sz 3 0xA0 hicb
  else if s0 <? 0xED then Sz 3 locb hicb
  else if s0 =? 0xED then Sz 3 locb 0x9F
  else if s0 <? 0xF0 then Sz 3 locb hicb
  else if s0 =? 0xF0 then Sz 4 0x90 hicb
  else if s0 <? 0xF4 then Sz 4 locb hicb
  else if s0 =? 0xF4 then Sz 4 locb 0x8F
  else Xx.

Definition DecodeRuneInString (s : gostring) : rune * nat :=
  match s with
  | [] => (RuneError, 0%nat)
  | b0 :: t0 =>
    let s0 := byteval b0 in
    match first s0 with
    | As => (s0, 1%nat)
    | Xx => (RuneError, 1%nat)
    | Sz sz lo hi =>
      if (length s <? sz)%nat then (RuneError, 1%nat) else
      match t0 with
      | [] => (RuneError, 1%nat)
      | b1 :: t1 =>
        let s1 := byteval b1 in
        if (s1 <? lo) || (hi <? s1) then (RuneError, 1%nat)
        else if (sz <=? 2)%nat then
          (Z.lor (Z.shiftl (Z.land s0 mask2) 6) (Z.land s1 maskx), 2%nat)
        else
          match t1 with
          | [] => (RuneError, 1%nat)
          | b2 :: t2 =>
            let s2 := byteval b2 in
            if (s2 <? locb) || (hicb <? s2) then (RuneError, 1%nat)
            else if (sz <=? 3)%nat then
              (Z.lor (Z.lor (Z.shiftl (Z.land s0 mask3) 12)
                            (Z.shiftl (Z.land s1 maskx) 6))
                     (Z.land s2 maskx), 3%nat)
            else
              match t2 with
              | [] => (RuneError, 1%nat)
              | b3 :: _ =>
                let s3 := byteval b3 in
                if (s3 <? locb) || (hicb <? s3) then (RuneError, 1%nat)
                else
                  (Z.lor (Z.lor (Z.lor (Z.shiftl (Z.land s0 mask4) 18)
                                       (Z.shiftl (Z.land s1 maskx) 12))
                                (Z.shiftl (Z.land s2 maskx) 6))
                         (Z.land s3 maskx), 4%nat)
              end
          end
      end
    end
  end.

(** [RuneStart]: the byte is not a continuation byte. *)
Definition RuneStart (b : byte) : bool :=
  negb (Z.land (byteval b) 0xC0 =? 0x80).

(** The backward scan of [DecodeLastRuneInString]: from index [start]
    down to [lim], stop at the first byte that can start a rune. *)
Fixpoint scan_start (s : gostring) (start : Z) (lim : Z) (steps : nat) : Z :=
  match steps with
  | O => start
  | S k =>
    if start <? lim then start
    else if RuneStart (nth (Z.to_nat start) s zero) then start
    else scan_start s (start - 1) lim k
  end.

Definition DecodeLastRuneInString (s : gostring) : rune * nat :=
  let fin := Z.of_nat (length s) in
  if fin =? 0 then (RuneError, 0%nat)
  else
    let start := fin - 1 in
    let r := byteval (nth (Z.to_nat start) s zero) in
    if r <? RuneSelf then (r, 1%nat)
    else
      let lim := Z.max 0 (fin - Z.of_nat UTFMax) in
      let start := scan_start s (start - 1) lim UTFMax in
      let start := Z.max 0 start in
      let '(r, size) := DecodeRuneInString (skipn (Z.to_nat start) s) in
      if start + Z.of_nat size =? fin then (r, size) else (RuneError, 1%nat).

(** [encoderune]: the UTF-8 encoding of one rune; surrogates and values
    out of range are written as U+FFFD. *)
Definition encoderune (r : rune) : gostring :=
  let i := r mod 2 ^ 32 in
  if i <=? 0x7F then [byte_of r]
  else if i <=? 0x7FF then
    [byte_of (Z.lor t2 (Z.shiftr r 6 mod 256));
     byte_of (Z.lor tx (Z.land (r mod 256) maskx))]
  else
    let bad := (MaxRune <? i) || ((0xD800 <=? i) && (i <=? 0xDFFF)) in
    let r := if bad then RuneError else r in
    if bad || (i <=? 0xFFFF) then
      [byte_of (Z.lor t3 (Z.shiftr r 12 mod 256));
       byte_of (Z.lor tx (Z.land (Z.shiftr r 6 mod 256) maskx));
       byte_of (Z.lor tx (Z.land (r mod 256) maskx))]
    else
      [byte_of (Z.lor t4 (Z.shiftr r 18 mod 256));
       byte_of (Z.lor tx (Z.land (Z.shiftr r 12 mod 256) maskx));
       byte_of (Z.lor tx (Z.land (Z.shiftr r 6 mod 256) maskx));
       byte_of (Z.lor tx (Z.land (r mod 256) maskx))].

(** The loop [for _, r := range s] of [stringtoslicerune]: one rune per
    decoded sequence, U+FFFD (width one) for a byte that starts none. *)
Fixpoint decode_loop (fuel : nat) (s : gostring) : list rune :=
  match fuel with
  | O => []
  | S k =>
    match s with
    | [] => []
    | _ :: _ =>
      let '(r, size) := DecodeRuneInString s in
      r :: decode_loop k (skipn size s)
    end
  end.

Definition runes_of_string (s : gostring) : list rune :=
  decode_loop (length s) s.

Definition string_of_runes (rs : list rune) : gostring :=
  flat_map encoderune rs.

End utf8.

(** ** Package [unicode] *)

Module unicode.

Definition MaxLatin1 : rune := 0xFF.

(** [unicode.IsSpace]: the Latin-1 cases, then the White_Space table. *)
Definition IsSpace (r : rune) : bool :=
  if r mod 2 ^ 32 <=? MaxLatin1 then
    (r =? 0x09) || (r =? 0x0A) || (r =? 0x0B) || (r =? 0x0C) || (r =? 0x0D)
    || (r =? 0x20) || (r =? 0x85) || (r =? 0xA0)
  else
    (r =? 0x1680) || ((0x2000 <=? r) && (r <=? 0x200A))
    || ((0x2028 <=? r) && (r <=? 0x2029)) || (r =? 0x202F) || (r =? 0x205F)
    || (r =? 0x3000).

End unicode.

(** ** Package [strings] *)

Module strings.

(** Membership of a byte in an ASCII cutset ([asciiSet.contains]). *)
Definition contains (cutset : gostring) (c : byte) : bool :=
  existsb (Ascii.eqb c) cutset.

Fixpoint trimLeft (f : byte -> bool) (s : gostring) : gostring :=
  match s with
  | [] => []
  | c :: t => if f c then trimLeft f t else s
  end.

Definition trimRight (f : byte -> bool) (s : gostring) : gostring :=
  rev (trimLeft f (rev s)).

(** [strings.Trim] for a cutset made of ASCII bytes (the only kind the
    sanitizer passes): trailing bytes of the cutset go first, then the
    leading ones. *)
Definition Trim (s cutset : gostring) : gostring :=
  trimLeft (contains cutset) (trimRight (contains cutset) s).

(** [indexFunc s f false] over [for i, r := range s]: the remainder of [s]
    from the first rune that does not satisfy [f]; all of [s] is consumed
    when there is none (Go's [-1]). *)
Fixpoint TrimLeftFunc_loop (fuel : nat) (f : rune -> bool) (s : gostring)
  : gostring :=
  match fuel with
  | O => []
  | S k =>
    match s with
    | [] => []
    | _ :: _ =>
      let '(r, size) := utf8.DecodeRuneInString s in
      if f r then TrimLeftFunc_loop k f (skipn size s) else s
    end
  end.

Definition TrimLeftFunc (s : gostring) (f : rune -> bool) : gostring :=
  TrimLeftFunc_loop (length s) f s.

(** [lastIndexFunc s f false]: the index of the last rune that does not
    satisfy [f], scanning backwards with [DecodeLastRuneInString]. *)
Fixpoint lastIndexFunc_loop (fuel : nat) (f : rune -> bool) (s : gostring)
  (i : nat) : option nat :=
  match fuel with
  | O => None
  | S k =>
    if (0 <? i)%nat then
      let '(r, size) := utf8.DecodeLastRuneInString (firstn i s) in
      let i := (i - size)%nat in
      if f r then lastIndexFunc_loop k f s i else Some i
    else None
  end.

Definition TrimRightFunc (s : gostring) (f : rune -> bool) : gostring :=
  match lastIndexFunc_loop (length s) f s (length s) with
  | Some i =>
    if utf8.RuneSelf <=? byteval (nth i s zero) then
      let '(_, wid) := utf8.DecodeRuneInString (skipn i s) in
      firstn (i + wid) s
    else firstn (i + 1) s
  | None => []
  end.

Definition TrimFunc (s : gostring) (f : rune -> bool) : gostring :=
  TrimRightFunc (TrimLeftFunc s f) f.

(** The table [asciiSpace]. *)
Definition asciiSpace (c : byte) : bool :=
  let v := byteval c in
  (v =? 0x09) || (v =? 0x0A) || (v =? 0x0B) || (v =? 0x0C) || (v =? 0x0D)
  || (v =? 0x20).

(** Second loop of [strings.TrimSpace], on the reversed remainder: drop
    trailing ASCII space; at a non-ASCII byte fall back to
    [TrimRightFunc]. *)
Fixpoint TrimSpace_stop (r : gostring) : gostring :=
  match r with
  | [] => []
  | c :: t =>
    if utf8.RuneSelf <=? byteval c then TrimRightFunc (rev r) unicode.IsSpace
    else if asciiSpace c then TrimSpace_stop t
    else rev r
  end.

(** [strings.TrimSpace]: the ASCII fast path, falling back to [TrimFunc]
    at the first non-ASCII byte. *)
Fixpoint TrimSpace (s : gostring) : gostring :=
  match s with
  | [] => []
  | c :: t =>
    if utf8.RuneSelf <=? byteval c then TrimFunc s unicode.IsSpace
    else if asciiSpace c then TrimSpace t
    else TrimSpace_stop (rev s)
  end.

Definition HasSuffix (s suffix : gostring) : bool :=
  (length suffix <=? length s)%nat
  && gostring_eqb (skipn (length s - length suffix) s) suffix.

Definition TrimSuffix (s suffix : gostring) : gostring :=
  if HasSuffix s suffix then firstn (length s - length suffix) s else s.

End strings.

(** ** Package [path/filepath] *)

Module filepath.

(** The loop of [filepath.Ext], walking back from the end of the path:
    [todo] is the part not yet visited (reversed), [seen] the part behind
    the cursor. *)
Fixpoint Ext_loop (p : Platform) (todo seen : gostring) : gostring :=
  match todo with
  | [] => []
  | c :: r =>
    if IsPathSeparator p c then []
    else if Ascii.eqb c "." then c :: seen
    else Ext_loop p r (c :: seen)
  end.

Definition Ext (p : Platform) (path : gostring) : gostring :=
  Ext_loop p (rev path) [].

End filepath.

(** ** Package [regexp], as far as the two patterns of the sanitizer go *)

Module regexp.

(** [ReplaceAllString] for a pattern that is one class of ASCII
    characters, [[...]]: every byte of the class is a match. Bytes of
    multi-byte sequences are 0x80 and above and never belong to it. *)
Definition ReplaceAll_class (cls : byte -> bool) (src repl : gostring)
  : gostring :=
  flat_map (fun c => if cls c then repl else [c]) src.

(** [ReplaceAllString] for [[...]+]: matches are the maximal runs of
    bytes of the class (leftmost, greedy); [inrun] tells that the byte
    before belongs to the current match. *)
Fixpoint ReplaceAll_plus_from (inrun : bool) (cls : byte -> bool)
  (src repl : gostring) : gostring :=
  match src with
  | [] => []
  | c :: t =>
    if cls c then
      if inrun then ReplaceAll_plus_from true cls t repl
      else repl ++ ReplaceAll_plus_from true cls t repl
    else c :: ReplaceAll_plus_from false cls t repl
  end.

Definition ReplaceAll_plus (cls : byte -> bool) (src repl : gostring)
  : gostring :=
  ReplaceAll_plus_from false cls src repl.

End regexp.

(** ** Slices of runes *)

(** A slice is a window of [len] elements on a backing array; [arr] is the
    array from the start of the window to its end, so [length arr] is the
    capacity. *)
Record slice := { arr : list rune; len : nat }.

(** [[]rune(s)]: the decoded runes, in an array that may be longer than
    needed; the spare elements are zero. *)
Definition runes_of (p : Platform) (s : gostring) : slice :=
  let rs := utf8.runes_of_string s in
  {| arr := rs ++ repeat 0 (spare_runes p (length rs)); len := length rs |}.

(** [s[:high]]: in range up to the capacity, a run-time panic beyond. *)
Definition slice_to (s : slice) (high : nat) : exec slice :=
  if (high <=? length (arr s))%nat
  then Returned {| arr := arr s; len := high |}
  else Panicked.

(** [string(runes)] *)
Definition string_of (s : slice) : gostring :=
  utf8.string_of_runes (firstn (len s) (arr s)).

(** ** The sanitizer ([cleanFileName], [cleanFolderName]) *)

(** The cutset of the first [strings.Trim]: double quote, single quote,
    backtick. *)
Definition quoteCutset : gostring := ["034"%char; "'"%char; "`"%char].

(** The character class of the pattern [invalidChars]: the nine
    characters reserved in file names. *)
Definition invalidChars (c : byte) : bool :=
  existsb (Ascii.eqb c)
    ["<"; ">"; ":"; "034"; "/"; "\"; "|"; "?"; "*"]%char.

(** Perl class [\s] of Go's regexp syntax: tab, newline, form feed,
    carriage return and space. *)
Definition perl_space (c : byte) : bool :=
  existsb (Ascii.eqb c) ["009"; "010"; "012"; "013"; " "]%char.

(** The class [[\s_]] of the pattern [multiSpace]. *)
Definition multiSpace (c : byte) : bool :=
  perl_space c || Ascii.eqb c "_".

Definition cleanFileName (p : Platform) (name : gostring) : exec gostring :=
  let name := strings.Trim name quoteCutset in
  let name := strings.TrimSpace name in
  let name := regexp.ReplaceAll_class invalidChars name (lit "_") in
  let name := regexp.ReplaceAll_plus multiSpace name (lit "_") in
  let name := strings.Trim name (lit "_") in
  if (50 <? length name)%nat then
    let runes := runes_of p name in
    match slice_to runes 50 with
    | Returned cut => Returned (string_of cut)
    | Panicked => Panicked
    end
  else Returned name.

Definition cleanFolderName (p : Platform) (name : gostring) : exec gostring :=
  let name := strings.Trim name quoteCutset in
  let name := strings.TrimSpace name in
  let name := regexp.ReplaceAll_class invalidChars name (lit "_") in
  let name := regexp.ReplaceAll_plus multiSpace name (lit "_") in
  let name := strings.Trim name (lit "_") in
  if (30 <? length name)%nat then
    let runes := runes_of p name in
    match slice_to runes 30 with
    | Returned cut => Returned (string_of cut)
    | Panicked => Panicked
    end
  else Returned name.

(** ** Package [config]: the record the service reads *)

(** A [float32], carried as its IEEE-754 bit pattern; the service only
    forwards it. *)
Definition float32 := Z.

Module config.

Record AIRename := {
  Enable : bool;
  Endpoint : gostring;
  Model : gostring;
  APIKey : gostring;
  Prompt : gostring;
  Timeout : Z;
  MaxTokens : Z;
  Temperature : float32
}.

End config.

(** ** Request and response structures *)

Record ChatMessage := { Role : gostring; Content : gostring }.

Record ChatRequest := {
  Model : gostring;
  Messages : list ChatMessage;
  MaxTokens : Z;
  Temperature : float32
}.

Record ChatChoice := { Message : ChatMessage }.

Module APIError.
Record t := { Message : gostring; Type_ : gostring; Code : gostring }.
End APIError.

Record ChatResponse := {
  Choices : list ChatChoice;
  Error : option APIError.t
}.

(** ** The world outside: libraries and network *)

(** An error value produced by a library ([encoding/json], [net/http],
    [io]); only its presence matters here. *)
Definition liberr := gostring.

(** The errors [callAI] builds with [fmt.Errorf], one constructor per
    call site, in source order. *)
Inductive error :=
| ErrMarshalRequest (cause : liberr)
| ErrCreateRequest (cause : liberr)
| ErrSendRequest (cause : liberr)
| ErrReadResponse (cause : liberr)
| ErrAPIStatus (code : Z) (body : gostring)
| ErrUnmarshalResponse (cause : liberr)
| ErrAPIMessage (msg : gostring)
| ErrNoChoices.

Module http.

Definition StatusOK : Z := 200.

Record Client := { Timeout : Z }.

Record Request := {
  Method : gostring;
  URL : gostring;
  Header : list (gostring * gostring);
  Body : gostring
}.

(** [Header.Set]: replace the entry of the key, or add it. *)
Definition Header_Set (k v : gostring) (r : Request) : Request :=
  {| Method := Method r; URL := URL r;
     Header := filter (fun kv => negb (gostring_eqb (fst kv) k)) (Header r)
               ++ [(k, v)];
     Body := Body r |}.

(** A response: its status code, and what reading its body to the end
    gives ([io.ReadAll(resp.Body)]). *)
Record Response := {
  StatusCode : Z;
  ReadAll : gostring + liberr
}.

End http.

(** The behaviour of everything the service calls but does not define.
    Each field is the function of that name; the theorems hold for every
    choice of them. *)
Record Env := {
  Sprintf : gostring -> list gostring -> gostring;
  json_Marshal : ChatRequest -> gostring + liberr;
  NewRequest_check : gostring -> gostring -> option liberr;
  client_Do : http.Client -> http.Request -> http.Response + liberr;
  json_Unmarshal : gostring -> ChatResponse + liberr
}.

(** What a call does to the outside, in order: requests sent, response
    bodies closed, log records written. *)
Inductive event :=
| NetDo (c : http.Client) (r : http.Request)
| BodyClose
| LogErrorf (format : gostring) (e : error)
| LogWarn (msg : gostring)
| LogInfof (format : gostring) (a b : gostring).

(** ** The service *)

(** The source keeps a pointer to the configuration; [NewRenameService]
    dereferences it, so a constructed service always has one, and the
    model stores the record it points to. *)
Record RenameService := {
  config : config.AIRename;
  client : http.Client
}.

Definition NewRenameService (cfg : config.AIRename) : RenameService :=
  {| config := cfg; client := {| http.Timeout := config.Timeout cfg |} |}.

Definition defaultFilePrompt : gostring := lit
"请根据以下消息内容，为文件生成一个合适的中文文件名。要求：
1. 文件名应该简洁明了，能够反映文件内容
2. 使用中文
3. 不要包含特殊字符，只使用中文、英文字母、数字、下划线和短横线
4. 长度控制在50个字符以内
5. 只返回文件名，不要包含扩展名和其他说明

消息内容：%s
原始文件名：%s

请生成新的文件名：".

Definition defaultFolderPrompt : gostring := lit
"请根据以下消息内容，为相册文件夹生成一个合适的中文文件夹名。要求：
1. 文件夹名应该简洁明了，能够反映相册内容
2. 使用中文
3. 不要包含特殊字符，只使用中文、英文字母、数字、下划线和短横线
4. 长度控制在30个字符以内
5. 只返回文件夹名，不要包含其他说明

消息内容：%s
默认文件夹名：%s

请生成新的文件夹名：".

Section Service.

Variable p : Platform.
Variable env : Env.
Variable s : RenameService.

Definition buildPrompt (messageText originalBaseName : gostring) : gostring :=
  let prompt := config.Prompt (config s) in
  let prompt := if is_empty prompt then defaultFilePrompt else prompt in
  Sprintf env prompt [messageText; originalBaseName].

Definition buildFolderPrompt (messageText defaultName : gostring) : gostring :=
  let prompt := config.Prompt (config s) in
  let prompt := if is_empty prompt then defaultFolderPrompt else prompt in
  Sprintf env prompt [messageText; defaultName].

(** [callAI]: the result pair as a sum (the string is always empty when
    the error is not nil), and the effects of the call. *)
Definition callAI (prompt : gostring) : (gostring + error) * list event :=
  let req := {| Model := config.Model (config s);
                Messages := [ {| Role := lit "user"; Content := prompt |} ];
                MaxTokens := config.MaxTokens (config s);
                Temperature := config.Temperature (config s) |} in
  match json_Marshal env req with
  | inr err => (inr (ErrMarshalRequest err), [])
  | inl reqBody =>
    match NewRequest_check env (lit "POST") (config.Endpoint (config s)) with
    | Some err => (inr (ErrCreateRequest err), [])
    | None =>
      let httpReq := {| http.Method := lit "POST";
                        http.URL := config.Endpoint (config s);
                        http.Header := [];
                        http.Body := reqBody |} in
      let httpReq :=
        http.Header_Set (lit "Content-Type") (lit "application/json") httpReq in
      let httpReq :=
        http.Header_Set (lit "Authorization")
          (lit "Bearer " ++ config.APIKey (config s)) httpReq in
      match client_Do env (client s) httpReq with
      | inr err => (inr (ErrSendRequest err), [NetDo (client s) httpReq])
      | inl resp =>
        let effects := [NetDo (client s) httpReq; BodyClose] in
        match http.ReadAll resp with
        | inr err => (inr (ErrReadResponse err), effects)
        | inl body =>
          if negb (http.StatusCode resp =? http.StatusOK) then
            (inr (ErrAPIStatus (http.StatusCode resp) body), effects)
          else
            match json_Unmarshal env body with
            | inr err => (inr (ErrUnmarshalResponse err), effects)
            | inl chatResp =>
              match Error chatResp with
              | Some e => (inr (ErrAPIMessage (APIError.Message e)), effects)
              | None =>
                match Choices chatResp with
                | [] => (inr ErrNoChoices, effects)
                | c :: _ =>
                  (inl (strings.TrimSpace (Content (Message c))), effects)
                end
              end
            end
        end
      end
    end
  end.

(** [GenerateFileName]: the returned pair (name, error or nil) or a
    panic, and the effects. *)
Definition GenerateFileName (messageText originalFileName : gostring)
  : exec (gostring * option error) * list event :=
  if negb (config.Enable (config s)) then
    (Returned (originalFileName, None), [])
  else if is_empty messageText then
    (Returned (originalFileName, None), [])
  else
    let ext := filepath.Ext p originalFileName in
    let baseName := strings.TrimSuffix originalFileName ext in
    let prompt := buildPrompt messageText baseName in
    match callAI prompt with
    | (inr err, effects) =>
      (Returned (originalFileName, Some err),
       effects ++ [LogErrorf (lit "AI rename failed: %v") err])
    | (inl newName, effects) =>
      match cleanFileName p newName with
      | Panicked => (Panicked, effects)
      | Returned cleanName =>
        if is_empty cleanName then
          (Returned (originalFileName, None),
           effects ++ [LogWarn (lit "AI returned empty filename, using original")])
        else
          let cleanName :=
            if negb (strings.HasSuffix cleanName ext)
            then cleanName ++ ext else cleanName in
          (Returned (cleanName, None),
           effects ++ [LogInfof (lit "AI renamed file: %s -> %s")
                         originalFileName cleanName])
      end
    end.

Definition GenerateFolderName (messageText defaultName : gostring)
  : exec (gostring * option error) * list event :=
  if negb (config.Enable (config s)) then
    (Returned (defaultName, None), [])
  else if is_empty messageText then
    (Returned (defaultName, None), [])
  else
    let prompt := buildFolderPrompt messageText defaultName in
    match callAI prompt with
    | (inr err, effects) =>
      (Returned (defaultName, Some err),
       effects ++ [LogErrorf (lit "AI folder rename failed: %v") err])
    | (inl newName, effects) =>
      match cleanFolderName p newName with
      | Panicked => (Panicked, effects)
      | Returned cleanName =>
        if is_empty cleanName then
          (Returned (defaultName, None),
           effects ++ [LogWarn (lit "AI returned empty folder name, using default")])
        else
          (Returned (cleanName, None),
           effects ++ [LogInfof (lit "AI renamed folder: %s -> %s")
                         defaultName cleanName])
      end
    end.

End Service.

(** ** The shared instance ([GetRenameService], [InitRenameService]) *)

Module singleton.

(** A [*RenameService] is the index of the object in the heap, in
    allocation order; [None] is the nil pointer. *)
Definition ptr := option nat.

(** The package-level variables [renameService] and [once], the services
    allocated so far, and the record [config.Cfg.AIRename] (the variable
    [config.Cfg] is declared outside the files at hand). *)
Record State := {
  heap : list RenameService;
  renameService : ptr;
  once_done : bool;
  Cfg_AIRename : config.AIRename
}.

(** The state of a fresh process. *)
Definition initial (cfg : config.AIRename) : State :=
  {| heap := []; renameService := None; once_done := false;
     Cfg_AIRename := cfg |}.

(** [&RenameService{...}]: a new object, and the assignment of its
    address to [renameService]. *)
Definition assign_new (svc : RenameService) (done : bool) (st : State)
  : State :=
  {| heap := heap st ++ [svc];
     renameService := Some (length (heap st));
     once_done := done;
     Cfg_AIRename := Cfg_AIRename st |}.

(** [once.Do(f)]: [f] runs when the guard is not yet done, and the guard
    is done afterwards. *)
Definition GetRenameService (st : State) : ptr * State :=
  let st :=
    if once_done st then st
    else assign_new (NewRenameService (Cfg_AIRename st)) true st in
  (renameService st, st).

Definition InitRenameService (cfg : config.AIRename) (st : State) : State :=
  assign_new (NewRenameService cfg) (once_done st) st.

(** The object a pointer refers to. *)
Definition deref (st : State) (q : ptr) : option RenameService :=
  match q with
  | Some a => nth_error (heap st) a
  | None => None
  end.

(** [n] calls of [GetRenameService] in a row: the pointers returned, and
    the final state. *)
Fixpoint GetRenameService_times (n : nat) (st : State) : list ptr * State :=
  match n with
  | O => ([], st)
  | S k =>
    let '(q, st1) := GetRenameService st in
    let '(qs, st2) := GetRenameService_times k st1 in
    (q :: qs, st2)
  end.

End singleton.

(** ** Sample environments *)

(** A remote end that accepts every request and answers with the given
    status and, as decoded body, the given response. *)
Definition env_answer (status : Z) (resp : ChatResponse) : Env :=
  {| Sprintf := fun format _ => format;
     json_Marshal := fun _ => inl (lit "{}");
     NewRequest_check := fun _ _ => None;
     client_Do := fun _ _ =>
       inl {| http.StatusCode := status; http.ReadAll := inl (lit "{}") |};
     json_Unmarshal := fun _ => inl resp |}.

(** A response with one choice, of the given content. *)
Definition one_choice (content : gostring) : ChatResponse :=
  {| Choices := [ {| Message := {| Role := lit "assistant";
                                   Content := content |} |} ];
     Error := None |}.

Definition sample_config (enable : bool) : config.AIRename :=
  {| config.Enable := enable;
     config.Endpoint := lit "https://api.example.com/v1/chat/completions";
     config.Model := lit "gpt-4o-mini";
     config.APIKey := lit "sk-test";
     config.Prompt := [];
     config.Timeout := 30000000000;
     config.MaxTokens := 64;
     config.Temperature := 0 |}.

Definition sample_service (enable : bool) : RenameService :=
  NewRenameService (sample_config enable).

(** Seventeen CJK characters: 51 bytes, 17 code points. *)
Definition cjk17 : gostring := lit "中中中中中中中中中中中中中中中中中".

(** ** Vocabulary of the specification *)

(** A 2xx status code. *)
Definition is_2xx (code : Z) : bool := (200 <=? code) && (code <=? 299).

(** The failures of the remote call the specification lists, for a
    request handed to the client: transport or I/O error, status outside
    2xx, payload that does not parse, error object, no choice. *)
Definition remote_failure (env : Env) (c : http.Client) (r : http.Request)
  : bool :=
  match client_Do env c r with
  | inr _ => true
  | inl resp =>
    match http.ReadAll resp with
    | inr _ => true
    | inl body =>
      negb (is_2xx (http.StatusCode resp))
      || match json_Unmarshal env body with
         | inr _ => true
         | inl chatResp =>
           match Error chatResp with Some _ => true | None => false end
           || Nat.eqb (length (Choices chatResp)) 0
         end
    end
  end.

(** The text of a name from its last dot on, the dot included; empty
    when the name has no dot. *)
Fixpoint from_last_dot (name : gostring) : gostring :=
  match name with
  | [] => []
  | c :: t =>
    match from_last_dot t with
    | [] => if Ascii.eqb c "." then name else []
    | e => e
    end
  end.

(** The failure checks of the remote call, as conditions on what came
    back, each looked at on its own. *)
Inductive check := TransportIO | Status | Payload | ErrorField | EmptyChoices.

Definition check_order : list check :=
  [TransportIO; Status; Payload; ErrorField; EmptyChoices].

Definition parsed (env : Env) (got : http.Response + liberr)
  : option ChatResponse :=
  match got with
  | inl resp =>
    match http.ReadAll resp with
    | inl body =>
      match json_Unmarshal env body with
      | inl chatResp => Some chatResp
      | inr _ => None
      end
    | inr _ => None
    end
  | inr _ => None
  end.

Definition matches (env : Env) (got : http.Response + liberr) (k : check)
  : bool :=
  match k with
  | TransportIO =>
    match got with
    | inr _ => true
    | inl resp => match http.ReadAll resp with inr _ => true | inl _ => false end
    end
  | Status =>
    match got with
    | inl resp => negb (http.StatusCode resp =? 200)
    | inr _ => false
    end
  | Payload =>
    match got with
    | inl resp =>
      match http.ReadAll resp with
      | inl body =>
        match json_Unmarshal env body with inr _ => true | inl _ => false end
      | inr _ => false
      end
    | inr _ => false
    end
  | ErrorField =>
    match parsed env got with
    | Some chatResp => match Error chatResp with Some _ => true | None => false end
    | None => false
    end
  | EmptyChoices =>
    match parsed env got with
    | Some chatResp => Nat.eqb (length (Choices chatResp)) 0
    | None => false
    end
  end.

(** The check an error of [callAI] reports; [None] for the two errors
    raised before anything is sent. *)
Definition reported (e : error) : option check :=
  match e with
  | ErrMarshalRequest _ | ErrCreateRequest _ => None
  | ErrSendRequest _ | ErrReadResponse _ => Some TransportIO
  | ErrAPIStatus _ _ => Some Status
  | ErrUnmarshalResponse _ => Some Payload
  | ErrAPIMessage _ => Some ErrorField
  | ErrNoChoices => Some EmptyChoices
  end.

(** The request a call of [callAI] hands to the client, read off its
    effects. *)
Definition request_sent (effects : list event)
  : option (http.Client * http.Request) :=
  match effects with
  | NetDo c r :: _ => Some (c, r)
  | _ => None
  end.


(** ** Vocabulary of the sanitizer properties *)

(** The two sanitizers differ in one constant.  What they share: the
    five steps before the length limit, and the limit itself, which
    tests the byte length and cuts the runes. *)
Definition clean_steps (name : gostring) : gostring :=
  let name := strings.Trim name quoteCutset in
  let name := strings.TrimSpace name in
  let name := regexp.ReplaceAll_class invalidChars name (lit "_") in
  let name := regexp.ReplaceAll_plus multiSpace name (lit "_") in
  strings.Trim name (lit "_").

Definition limit_length (p : Platform) (max : nat) (name : gostring)
  : exec gostring :=
  if (max <? length name)%nat then
    let runes := runes_of p name in
    match slice_to runes max with
    | Returned cut => Returned (string_of cut)
    | Panicked => Panicked
    end
  else Returned name.

(** A Unicode scalar value: what the decoder produces and the encoder
    writes unchanged. *)
Definition valid_rune (r : rune) : Prop :=
  0 <= r < 0xD800 \/ 0xE000 <= r <= 0x10FFFF.

Definition is_underscore (c : byte) : bool := Ascii.eqb c "_".

(** A byte neither pattern of the sanitizer rewrites, the underscore
    apart: not reserved, and not in the class [\s]. *)
Definition plain (c : byte) : bool :=
  negb (invalidChars c) && negb (perl_space c).

(** A string made of plain bytes, without two underscores in a row;
    [after_underscore] tells that the byte before the string is one. *)
Fixpoint tidy_from (after_underscore : bool) (s : gostring) : bool :=
  match s with
  | [] => true
  | c :: t =>
    plain c && negb (after_underscore && is_underscore c)
    && tidy_from (is_underscore c) t
  end.

Definition tidy (s : gostring) : bool := tidy_from false s.

(** The same on runes. *)
Definition plain_rune (r : rune) : bool :=
  if r <? 0x80 then plain (byte_of r) else true.

Fixpoint tidy_runes_from (after_underscore : bool) (rs : list rune) : bool :=
  match rs with
  | [] => true
  | r :: t =>
    plain_rune r && negb (after_underscore && (r =? 0x5F))
    && tidy_runes_from (r =? 0x5F) t
  end.

(** The bytes the sanitizer strips from both ends: the three quote
    characters and the underscore. *)
Definition edgeCutset : gostring := quoteCutset ++ lit "_".

Definition first_byte_in (cutset s : gostring) : bool :=
  match s with
  | [] => false
  | c :: _ => strings.contains cutset c
  end.

Definition last_byte_in (cutset s : gostring) : bool :=
  first_byte_in cutset (rev s).

(** White space ([unicode.IsSpace]) at the start, at the end. *)
Definition starts_with_space (s : gostring) : bool :=
  unicode.IsSpace (fst (utf8.DecodeRuneInString s)).

Definition ends_with_space (s : gostring) : bool :=
  unicode.IsSpace (fst (utf8.DecodeLastRuneInString s)).

(** A name with nothing left to strip at its ends. *)
Definition bare_edges (s : gostring) : bool :=
  negb (first_byte_in edgeCutset s) && negb (last_byte_in edgeCutset s)
  && negb (starts_with_space s) && negb (ends_with_space s).

(** ** Tactics *)

Ltac break_if :=
  match goal with
  | |- context [if ?c then _ else _] => destruct c eqn:?
  end.

Ltac bool_facts :=
  repeat match goal with
  | H : (_ <? _) = true |- _ => apply Z.ltb_lt in H
  | H : (_ <? _) = false |- _ => apply Z.ltb_ge in H
  | H : (_ <=? _) = true |- _ => apply Z.leb_le in H
  | H : (_ <=? _) = false |- _ => apply Z.leb_gt in H
  | H : (_ =? _) = true |- _ => apply Z.eqb_eq in H
  | H : (_ =? _) = false |- _ => apply Z.eqb_neq in H
  | H : (_ || _) = true |- _ => apply orb_true_iff in H; destruct H
  | H : (_ || _) = false |- _ => apply orb_false_iff in H; destruct H
  | H : (_ && _) = true |- _ => apply andb_true_iff in H; destruct H
  | H : (_ && _) = false |- _ => apply andb_false_iff in H; destruct H
  end.

Ltac euclid := Z.to_euclidean_division_equations; lia.

Ltac same_bytes :=
  repeat (apply (f_equal2 (@cons ascii));
          [ apply (f_equal byte_of); euclid | ]);
  reflexivity.

(** ** Vocabulary of the further properties *)

(** A string made of ASCII bytes only. *)
Definition ascii_only (s : gostring) : bool :=
  forallb (fun c => byteval c <? 0x80) s.

(** A byte the sanitizer turns into an underscore or drops: reserved,
    white space of the class [\s], or an underscore. *)
Definition filler (c : byte) : bool := invalidChars c || multiSpace c.

(** [x] is a contiguous part of [s]. *)
Definition part_of (x s : gostring) : Prop :=
  exists before after, s = before ++ x ++ after.

(** The number of code points of a string, as [[]rune(s)] counts them. *)
Definition RuneCount (s : gostring) : nat := length (utf8.runes_of_string s).

(** Requests handed to the client, and response bodies closed, in a
    trace of effects. *)
Definition is_request (e : event) : bool :=
  match e with NetDo _ _ => true | _ => false end.

Definition is_close (e : event) : bool :=
  match e with BodyClose => true | _ => false end.

Definition is_log (e : event) : bool :=
  match e with
  | LogErrorf _ _ | LogWarn _ | LogInfof _ _ _ => true
  | _ => false
  end.

Definition count (f : event -> bool) (effects : list event) : nat :=
  length (filter f effects).

(** The template a prompt is built from: the configured one, or the
    built-in one when none is configured. *)
Definition template_of (s : RenameService) (builtin : gostring) : gostring :=
  if is_empty (config.Prompt (config s)) then builtin
  else config.Prompt (config s).

(** The request body [callAI] asks [json.Marshal] for. *)
Definition chat_request (s : RenameService) (prompt : gostring) : ChatRequest :=
  {| Model := config.Model (config s);
     Messages := [ {| Role := lit "user"; Content := prompt |} ];
     MaxTokens := config.MaxTokens (config s);
     Temperature := config.Temperature (config s) |}.

(** Calls of the two functions of the shared instance, and a run of
    such calls from a state. *)
Inductive call :=
| CallGet
| CallInit (cfg : config.AIRename).

Definition is_get (c : call) : bool :=
  match c with CallGet => true | CallInit _ => false end.

Definition step (st : singleton.State) (c : call) : singleton.State :=
  match c with
  | CallGet => snd (singleton.GetRenameService st)
  | CallInit cfg => singleton.InitRenameService cfg st
  end.

Definition run (calls : list call) (st : singleton.State) : singleton.State :=
  fold_left step calls st.

(** ** The final element of a path, and names read word by word *)

(** The final element of a path: what follows its last separator, the
    whole path when it has none. *)
Fixpoint final_segment (p : Platform) (path : gostring) : gostring :=
  match path with
  | [] => []
  | c :: t =>
    if existsb (IsPathSeparator p) path then final_segment p t else path
  end.

(** A name read from left to right: the bytes that are not [filler] are
    copied, and one underscore is written where fillers were passed
    since the last copied byte ([pending]). *)
Fixpoint joined (pending : bool) (s : gostring) : gostring :=
  match s with
  | [] => []
  | c :: t =>
    if filler c then joined true t
    else if pending then "_"%char :: c :: joined false t
    else c :: joined false t
  end.

(** The kept parts of a name, in order, with one underscore between two
    neighbours: fillers before the first kept byte and after the last
    one leave nothing. *)
Definition kept_joined (s : gostring) : gostring :=
  joined false (strings.trimLeft filler s).

(** * Properties *)

(** ** Bytes *)

Lemma byteval_range : forall b, 0 <= byteval b < 256.
Proof.
  intros b. unfold byteval. pose proof (N_ascii_bounded b). lia.
Qed.

Lemma byteval_byte_of : forall z, 0 <= z < 256 -> byteval (byte_of z) = z.
Proof.
  intros z Hz. unfold byteval, byte_of. rewrite Z.mod_small by lia.
  rewrite N_ascii_embedding by lia. lia.
Qed.

Lemma byte_of_byteval : forall b, byte_of (byteval b) = b.
Proof.
  intros b. unfold byte_of. rewrite Z.mod_small by apply byteval_range.
  unfold byteval. rewrite N2Z.id. apply ascii_N_embedding.
Qed.

(** ** Bit operations as arithmetic *)

Lemma land_shifted_low :
  forall a b k, 0 <= k -> 0 <= b < 2 ^ k -> Z.land (a * 2 ^ k) b = 0.
Proof.
  intros a b k Hk Hb. apply Z.bits_inj'. intros n Hn.
  rewrite Z.land_spec, Z.bits_0.
  destruct (Z.lt_ge_cases n k) as [Hlt | Hge].
  - rewrite Z.mul_pow2_bits_low by lia. reflexivity.
  - destruct (Z.eq_dec b 0) as [-> | Hb0].
    + rewrite Z.bits_0. apply andb_false_r.
    + rewrite (Z.bits_above_log2 b n); [ apply andb_false_r | lia | ].
      apply Z.log2_lt_pow2; [ lia | ].
      apply Z.lt_le_trans with (2 ^ k); [ lia | ].
      apply Z.pow_le_mono_r; lia.
Qed.

Lemma lor_disjoint :
  forall x c k,
    0 <= k -> 0 <= c < 2 ^ k -> x mod 2 ^ k = 0 -> Z.lor x c = x + c.
Proof.
  intros x c k Hk Hc Hx.
  assert (Hpos : 0 < 2 ^ k) by (apply Z.pow_pos_nonneg; lia).
  pose proof (Z.div_mod x (2 ^ k)) as Hdiv.
  assert (Hx' : x = x / 2 ^ k * 2 ^ k) by lia.
  pose proof (Z.add_lor_land x c) as H.
  rewrite Hx' in H at 2. rewrite land_shifted_low in H by assumption. lia.
Qed.

Lemma land_low_mask :
  forall a k, 0 <= k -> Z.land a (2 ^ k - 1) = a mod 2 ^ k.
Proof.
  intros a k Hk. rewrite <- Z.land_ones by assumption.
  rewrite Z.ones_equiv. reflexivity.
Qed.

Lemma land_maskx : forall v, Z.land v utf8.maskx = v mod 64.
Proof. intros v. apply (land_low_mask v 6). lia. Qed.
Lemma land_mask2 : forall v, Z.land v utf8.mask2 = v mod 32.
Proof. intros v. apply (land_low_mask v 5). lia. Qed.
Lemma land_mask3 : forall v, Z.land v utf8.mask3 = v mod 16.
Proof. intros v. apply (land_low_mask v 4). lia. Qed.
Lemma land_mask4 : forall v, Z.land v utf8.mask4 = v mod 8.
Proof. intros v. apply (land_low_mask v 3). lia. Qed.

Lemma compose2 :
  forall a b, 0 <= b < 64 -> Z.lor (Z.shiftl a 6) b = a * 64 + b.
Proof.
  intros a b Hb. rewrite Z.shiftl_mul_pow2 by lia.
  apply (lor_disjoint _ _ 6); [ lia | exact Hb | ].
  apply Z.mod_mul. lia.
Qed.

Lemma compose3 :
  forall a b c,
    0 <= b < 64 -> 0 <= c < 64 ->
    Z.lor (Z.lor (Z.shiftl a 12) (Z.shiftl b 6)) c = a * 4096 + b * 64 + c.
Proof.
  intros a b c Hb Hc. rewrite !Z.shiftl_mul_pow2 by lia.
  rewrite (lor_disjoint (a * 2 ^ 12) (b * 2 ^ 6) 12);
    [ | lia | lia | apply Z.mod_mul; lia ].
  rewrite (lor_disjoint _ c 6); [ lia | lia | exact Hc | ].
  replace (a * 2 ^ 12 + b * 2 ^ 6) with ((a * 64 + b) * 2 ^ 6) by lia.
  apply Z.mod_mul. lia.
Qed.

Lemma compose4 :
  forall a b c d,
    0 <= b < 64 -> 0 <= c < 64 -> 0 <= d < 64 ->
    Z.lor (Z.lor (Z.lor (Z.shiftl a 18) (Z.shiftl b 12)) (Z.shiftl c 6)) d
    = a * 262144 + b * 4096 + c * 64 + d.
Proof.
  intros a b c d Hb Hc Hd. rewrite !Z.shiftl_mul_pow2 by lia.
  rewrite (lor_disjoint (a * 2 ^ 18) (b * 2 ^ 12) 18);
    [ | lia | lia | apply Z.mod_mul; lia ].
  rewrite (lor_disjoint _ (c * 2 ^ 6) 12); [ | lia | lia | ].
  - rewrite (lor_disjoint _ d 6); [ lia | lia | exact Hd | ].
    replace (a * 2 ^ 18 + b * 2 ^ 12 + c * 2 ^ 6)
      with ((a * 4096 + b * 64 + c) * 2 ^ 6) by lia.
    apply Z.mod_mul. lia.
  - replace (a * 2 ^ 18 + b * 2 ^ 12) with ((a * 64 + b) * 2 ^ 12) by lia.
    apply Z.mod_mul. lia.
Qed.

(** ** The decoder *)

Lemma Decode_ascii :
  forall b t, byteval b < 0x80 ->
    utf8.DecodeRuneInString (b :: t) = (byteval b, 1%nat).
Proof.
  intros b t Hb. unfold utf8.DecodeRuneInString, utf8.first. cbv zeta.
  destruct (Z.ltb_spec (byteval b) 128); [ reflexivity | lia ].
Qed.

Lemma Decode_2 :
  forall b0 b1 t,
    0xC2 <= byteval b0 <= 0xDF -> 0x80 <= byteval b1 <= 0xBF ->
    utf8.DecodeRuneInString (b0 :: b1 :: t)
    = (byteval b0 mod 32 * 64 + byteval b1 mod 64, 2%nat).
Proof.
  intros b0 b1 t H0 H1.
  unfold utf8.DecodeRuneInString, utf8.first, utf8.locb, utf8.hicb. cbv zeta.
  repeat (break_if; bool_facts; try lia);
    cbn [length Nat.ltb Nat.leb] in *; try discriminate.
  rewrite land_mask2, land_maskx, compose2; [ reflexivity | ].
  apply Z.mod_pos_bound. lia.
Qed.

Lemma Decode_3 :
  forall b0 b1 b2 t,
    0xE0 <= byteval b0 <= 0xEF -> 0x80 <= byteval b1 <= 0xBF ->
    (byteval b0 = 0xE0 -> 0xA0 <= byteval b1) ->
    (byteval b0 = 0xED -> byteval b1 <= 0x9F) ->
    0x80 <= byteval b2 <= 0xBF ->
    utf8.DecodeRuneInString (b0 :: b1 :: b2 :: t)
    = (byteval b0 mod 16 * 4096 + byteval b1 mod 64 * 64 + byteval b2 mod 64,
       3%nat).
Proof.
  intros b0 b1 b2 t H0 H1 Hlo Hhi H2.
  unfold utf8.DecodeRuneInString, utf8.first, utf8.locb, utf8.hicb. cbv zeta.
  repeat (break_if; bool_facts; try lia);
    cbn [length Nat.ltb Nat.leb] in *; try discriminate;
    rewrite land_mask3, !land_maskx, compose3;
    try reflexivity; apply Z.mod_pos_bound; lia.
Qed.

Lemma Decode_4 :
  forall b0 b1 b2 b3 t,
    0xF0 <= byteval b0 <= 0xF4 -> 0x80 <= byteval b1 <= 0xBF ->
    (byteval b0 = 0xF0 -> 0x90 <= byteval b1) ->
    (byteval b0 = 0xF4 -> byteval b1 <= 0x8F) ->
    0x80 <= byteval b2 <= 0xBF -> 0x80 <= byteval b3 <= 0xBF ->
    utf8.DecodeRuneInString (b0 :: b1 :: b2 :: b3 :: t)
    = (byteval b0 mod 8 * 262144 + byteval b1 mod 64 * 4096
       + byteval b2 mod 64 * 64 + byteval b3 mod 64, 4%nat).
Proof.
  intros b0 b1 b2 b3 t H0 H1 Hlo Hhi H2 H3.
  unfold utf8.DecodeRuneInString, utf8.first, utf8.locb, utf8.hicb. cbv zeta.
  repeat (break_if; bool_facts; try lia);
    cbn [length Nat.ltb Nat.leb] in *; try discriminate;
    rewrite land_mask4, !land_maskx, compose4;
    try reflexivity; apply Z.mod_pos_bound; lia.
Qed.

(** Every step of the decoder: an ASCII byte stands for itself; anything
    else gives a scalar value of at least 0x80 and consumes one to four
    bytes, never more than there are. *)
Lemma Decode_cases :
  forall b t,
    let '(r, n) := utf8.DecodeRuneInString (b :: t) in
    (byteval b < 0x80 /\ r = byteval b /\ n = 1%nat)
    \/ (0x80 <= byteval b /\ 0x80 <= r /\ valid_rune r
        /\ (1 <= n <= 4)%nat /\ (n <= length (b :: t))%nat).
Proof.
  intros b t. pose proof (byteval_range b) as Hb.
  unfold utf8.DecodeRuneInString, utf8.first, utf8.locb, utf8.hicb,
    utf8.RuneError, valid_rune.
  cbv zeta.
  destruct t as [ | b1 [ | b2 [ | b3 t3]]];
    repeat (cbn [length Nat.ltb Nat.leb]; break_if; bool_facts; try lia);
    try (left; repeat split; (reflexivity || lia));
    try (right; repeat split; cbn [length]; lia);
    right.
  all: try (rewrite land_mask2, land_maskx, compose2 by (apply Z.mod_pos_bound; lia)).
  all: try (rewrite land_mask3, !land_maskx, compose3 by (apply Z.mod_pos_bound; lia)).
  all: try (rewrite land_mask4, !land_maskx, compose4 by (apply Z.mod_pos_bound; lia)).
  all: cbn [length].
  all: try (pose proof (byteval_range b1)).
  all: try (pose proof (byteval_range b2)).
  all: try (pose proof (byteval_range b3)).
  all: repeat split; try lia.
  all: Z.to_euclidean_division_equations; lia.
Qed.

(** ** The encoder *)

Lemma lor_t2 : forall q, 0 <= q < 32 -> Z.lor utf8.t2 q = 192 + q.
Proof. intros q Hq. apply (lor_disjoint _ _ 6); [ lia | lia | reflexivity ]. Qed.
Lemma lor_t3 : forall q, 0 <= q < 16 -> Z.lor utf8.t3 q = 224 + q.
Proof. intros q Hq. apply (lor_disjoint _ _ 4); [ lia | lia | reflexivity ]. Qed.
Lemma lor_t4 : forall q, 0 <= q < 8 -> Z.lor utf8.t4 q = 240 + q.
Proof. intros q Hq. apply (lor_disjoint _ _ 3); [ lia | lia | reflexivity ]. Qed.
Lemma lor_tx : forall q, 0 <= q < 64 -> Z.lor utf8.tx q = 128 + q.
Proof. intros q Hq. apply (lor_disjoint _ _ 6); [ lia | lia | reflexivity ]. Qed.

(** The four shapes of an encoded scalar value. *)
Lemma encoderune_cases :
  forall r, valid_rune r ->
    (0 <= r <= 0x7F /\ utf8.encoderune r = [byte_of r])
    \/ (0x80 <= r <= 0x7FF
        /\ utf8.encoderune r
           = [byte_of (192 + r / 64); byte_of (128 + r mod 64)])
    \/ (0x800 <= r <= 0xFFFF
        /\ utf8.encoderune r
           = [byte_of (224 + r / 4096); byte_of (128 + r / 64 mod 64);
              byte_of (128 + r mod 64)])
    \/ (0x10000 <= r <= 0x10FFFF
        /\ utf8.encoderune r
           = [byte_of (240 + r / 262144); byte_of (128 + r / 4096 mod 64);
              byte_of (128 + r / 64 mod 64); byte_of (128 + r mod 64)]).
Proof.
  intros r Hr. unfold valid_rune in Hr. unfold utf8.encoderune.
  assert (Hmod : r mod 2 ^ 32 = r)
    by (apply Z.mod_small; change (2 ^ 32) with 4294967296; lia).
  cbv zeta. rewrite Hmod. unfold utf8.MaxRune, utf8.RuneError.
  rewrite !Z.shiftr_div_pow2 by lia. rewrite !land_maskx.
  change (2 ^ 6) with 64. change (2 ^ 12) with 4096. change (2 ^ 18) with 262144.
  repeat (break_if; bool_facts; try lia).
  - left. split; [ lia | reflexivity ].
  - right; left. split; [ lia | ].
    rewrite lor_t2, lor_tx by (Z.to_euclidean_division_equations; lia).
    same_bytes.
  - right; right; left. split; [ lia | ].
    rewrite lor_t3, !lor_tx by (Z.to_euclidean_division_equations; lia).
    same_bytes.
  - right; right; left. split; [ lia | ].
    rewrite lor_t3, !lor_tx by (Z.to_euclidean_division_equations; lia).
    same_bytes.
  - right; right; right. split; [ lia | ].
    rewrite lor_t4, !lor_tx by (Z.to_euclidean_division_equations; lia).
    same_bytes.
Qed.

(** Decoding what the encoder wrote gives the rune back and consumes
    exactly its bytes, whatever follows. *)
Lemma Decode_encoderune :
  forall r rest, valid_rune r ->
    utf8.DecodeRuneInString (utf8.encoderune r ++ rest)
    = (r, length (utf8.encoderune r))
    /\ (1 <= length (utf8.encoderune r))%nat.
Proof.
  intros r rest Hr.
  destruct (encoderune_cases r Hr)
    as [[Hrange ->] | [[Hrange ->] | [[Hrange ->] | [Hrange ->]]]];
    cbn [app length]; (split; [ | lia ]).
  - rewrite Decode_ascii; rewrite byteval_byte_of by lia; [ reflexivity | lia ].
  - rewrite Decode_2;
      rewrite ?byteval_byte_of by (Z.to_euclidean_division_equations; lia);
      [ f_equal | | ]; Z.to_euclidean_division_equations; lia.
  - unfold valid_rune in Hr.
    rewrite Decode_3;
      rewrite ?byteval_byte_of by (Z.to_euclidean_division_equations; lia);
      [ f_equal | .. ]; Z.to_euclidean_division_equations; lia.
  - rewrite Decode_4;
      rewrite ?byteval_byte_of by (Z.to_euclidean_division_equations; lia);
      [ f_equal | .. ]; Z.to_euclidean_division_equations; lia.
Qed.

Lemma In_firstn :
  forall (A : Type) (x : A) n l, In x (firstn n l) -> In x l.
Proof.
  intros A x n l Hin. rewrite <- (firstn_skipn n l).
  apply in_or_app. left. exact Hin.
Qed.

(** ** The decoding loop *)

Lemma Decode_size :
  forall b t,
    (1 <= snd (utf8.DecodeRuneInString (b :: t)) <= length (b :: t))%nat.
Proof.
  intros b t. pose proof (Decode_cases b t) as H.
  destruct (utf8.DecodeRuneInString (b :: t)) as [r n]. cbn [snd length] in *.
  destruct H as [(_ & _ & ->) | (_ & _ & _ & Hn & Hlen)]; lia.
Qed.

Lemma Decode_valid :
  forall s, valid_rune (fst (utf8.DecodeRuneInString s)).
Proof.
  intros [ | b t].
  - cbn. unfold valid_rune, utf8.RuneError. lia.
  - pose proof (Decode_cases b t) as H. pose proof (byteval_range b).
    destruct (utf8.DecodeRuneInString (b :: t)) as [r n]. cbn [fst].
    destruct H as [(Hb & -> & _) | (_ & _ & Hv & _)];
      [ unfold valid_rune; lia | exact Hv ].
Qed.

(** More fuel than bytes changes nothing. *)
Lemma decode_loop_fuel :
  forall f1 f2 s,
    (length s <= f1)%nat -> (length s <= f2)%nat ->
    utf8.decode_loop f1 s = utf8.decode_loop f2 s.
Proof.
  induction f1 as [ | f1 IH]; intros f2 s H1 H2.
  - destruct s; [ destruct f2; reflexivity | cbn in H1; lia ].
  - destruct s as [ | b t]; [ destruct f2; reflexivity | ].
    destruct f2 as [ | f2]; [ cbn in H2; lia | ].
    cbn [utf8.decode_loop].
    pose proof (Decode_size b t) as Hsize.
    destruct (utf8.DecodeRuneInString (b :: t)) as [r n]. cbn [snd] in Hsize.
    f_equal. apply IH; rewrite length_skipn; cbn [length] in *; lia.
Qed.

Lemma runes_of_string_cons :
  forall b t,
    utf8.runes_of_string (b :: t)
    = fst (utf8.DecodeRuneInString (b :: t))
      :: utf8.runes_of_string
           (skipn (snd (utf8.DecodeRuneInString (b :: t))) (b :: t)).
Proof.
  intros b t. unfold utf8.runes_of_string. cbn [length utf8.decode_loop].
  pose proof (Decode_size b t) as Hsize.
  destruct (utf8.DecodeRuneInString (b :: t)) as [r n]. cbn [fst snd] in *.
  f_equal. apply decode_loop_fuel; rewrite length_skipn; cbn [length]; lia.
Qed.

Lemma decode_loop_valid :
  forall fuel s, Forall valid_rune (utf8.decode_loop fuel s).
Proof.
  induction fuel as [ | fuel IH]; intros s; [ constructor | ].
  destruct s as [ | b t]; [ constructor | ].
  cbn [utf8.decode_loop].
  pose proof (Decode_valid (b :: t)) as Hv.
  destruct (utf8.DecodeRuneInString (b :: t)) as [r n]. cbn [fst] in Hv.
  constructor; [ exact Hv | apply IH ].
Qed.

(** Encoding scalar values and decoding the result gives them back. *)
Lemma runes_of_string_of_runes :
  forall rs,
    Forall valid_rune rs ->
    utf8.runes_of_string (utf8.string_of_runes rs) = rs.
Proof.
  induction rs as [ | r rs IH]; intros Hv; [ reflexivity | ].
  inversion Hv as [ | ? ? Hr Hrs]; subst.
  unfold utf8.string_of_runes. cbn [flat_map].
  destruct (Decode_encoderune r (flat_map utf8.encoderune rs) Hr) as [Hdec Hlen].
  destruct (utf8.encoderune r) as [ | b t] eqn:Henc; [ cbn in Hlen; lia | ].
  cbn [app] in *. rewrite runes_of_string_cons, Hdec. cbn [fst snd].
  f_equal.
  change (b :: t ++ flat_map utf8.encoderune rs)
    with ((b :: t) ++ flat_map utf8.encoderune rs).
  rewrite skipn_app, skipn_all, Nat.sub_diag. cbn [app skipn].
  apply IH. exact Hrs.
Qed.

(** ** The length limit *)

Lemma cleanFileName_shape :
  forall p name, cleanFileName p name = limit_length p 50 (clean_steps name).
Proof. reflexivity. Qed.

Lemma cleanFolderName_shape :
  forall p name, cleanFolderName p name = limit_length p 30 (clean_steps name).
Proof. reflexivity. Qed.

Lemma limit_length_short :
  forall p max name,
    (length name <= max)%nat -> limit_length p max name = Returned name.
Proof.
  intros p max name Hle. unfold limit_length.
  destruct (Nat.ltb_spec max (length name)); [ lia | reflexivity ].
Qed.

Lemma limit_length_long :
  forall p max name,
    (max < length name)%nat ->
    let rs := utf8.runes_of_string name in
    let spare := spare_runes p (length rs) in
    limit_length p max name
    = if (max <=? length rs + spare)%nat
      then Returned (utf8.string_of_runes (firstn max (rs ++ repeat 0 spare)))
      else Panicked.
Proof.
  intros p max name Hlt rs spare. unfold limit_length.
  destruct (Nat.ltb_spec max (length name)); [ | lia ].
  unfold slice_to, runes_of, string_of. cbn [arr len]. fold rs. fold spare.
  rewrite length_app, repeat_length.
  destruct (max <=? length rs + spare)%nat; reflexivity.
Qed.

(** What the limit returns, it returns again when applied to it. *)
Lemma limit_length_idempotent :
  forall p max name out,
    limit_length p max name = Returned out ->
    limit_length p max out = Returned out.
Proof.
  intros p max name out Hrun.
  destruct (Nat.le_gt_cases (length out) max) as [Hle | Hgt];
    [ apply limit_length_short; exact Hle | ].
  destruct (Nat.le_gt_cases (length name) max) as [Hle' | Hgt'].
  { rewrite limit_length_short in Hrun by exact Hle'.
    inversion Hrun; subst. lia. }
  rewrite limit_length_long in Hrun by exact Hgt'. cbv zeta in Hrun.
  set (rs := utf8.runes_of_string name) in *.
  set (spare := spare_runes p (length rs)) in *.
  destruct (Nat.leb_spec max (length rs + spare)) as [Hcap | Hcap];
    [ | discriminate Hrun ].
  set (cut := firstn max (rs ++ repeat 0 spare)) in *.
  assert (Hout : out = utf8.string_of_runes cut) by (inversion Hrun; reflexivity).
  assert (Hlen : length cut = max).
  { subst cut. rewrite length_firstn, length_app, repeat_length. lia. }
  assert (Hvalid : Forall valid_rune cut).
  { subst cut. apply Forall_forall. intros r Hin.
    apply In_firstn, in_app_or in Hin. destruct Hin as [Hin | Hin].
    - pose proof (decode_loop_valid (length name) name) as Hall.
      rewrite Forall_forall in Hall. apply Hall. exact Hin.
    - apply repeat_spec in Hin. subst r. unfold valid_rune. lia. }
  rewrite limit_length_long by exact Hgt. cbv zeta.
  rewrite Hout, (runes_of_string_of_runes cut Hvalid), Hlen.
  destruct (Nat.leb_spec max (max + spare_runes p max)); [ | lia ].
  rewrite firstn_app, Hlen, Nat.sub_diag, firstn_O, app_nil_r.
  rewrite <- Hlen at 1. rewrite firstn_all. reflexivity.
Qed.

(** ** Tidy strings *)

Lemma eqb_high_byte :
  forall c d, 0x80 <= byteval c -> byteval d < 0x80 -> Ascii.eqb c d = false.
Proof.
  intros c d Hc Hd. destruct (Ascii.eqb_spec c d) as [-> | ]; [ lia | reflexivity ].
Qed.

Lemma high_byte_plain :
  forall c, 0x80 <= byteval c -> plain c = true /\ is_underscore c = false.
Proof.
  intros c Hc. unfold plain, invalidChars, perl_space, is_underscore.
  cbn [existsb].
  rewrite !(eqb_high_byte c) by (assumption || (vm_compute; reflexivity)).
  split; reflexivity.
Qed.

Lemma is_underscore_byte_of :
  forall r, 0 <= r < 256 -> is_underscore (byte_of r) = (r =? 0x5F).
Proof.
  intros r Hr. unfold is_underscore.
  destruct (Ascii.eqb_spec (byte_of r) "_") as [Heq | Hne];
    destruct (Z.eqb_spec r 0x5F) as [Hr5 | Hr5]; try reflexivity.
  - exfalso. apply Hr5. rewrite <- (byteval_byte_of r Hr), Heq. reflexivity.
  - exfalso. apply Hne. subst r. reflexivity.
Qed.

Lemma is_underscore_byteval :
  forall c, (byteval c =? 0x5F) = is_underscore c.
Proof.
  intros c. rewrite <- (byte_of_byteval c) at 2.
  symmetry. apply is_underscore_byte_of, byteval_range.
Qed.

Lemma tidy_from_weaken :
  forall b s, tidy_from b s = true -> tidy_from false s = true.
Proof.
  intros b [ | c t] H; [ reflexivity | ].
  cbn [tidy_from] in *. apply andb_true_iff in H as [H Ht].
  apply andb_true_iff in H as [Hp _]. rewrite Hp, Ht. reflexivity.
Qed.

Lemma tidy_from_app_l :
  forall x y b, tidy_from b (x ++ y) = true -> tidy_from b x = true.
Proof.
  induction x as [ | c x IH]; intros y b H; [ reflexivity | ].
  cbn [app tidy_from] in *. apply andb_true_iff in H as [H Ht].
  rewrite H. cbn [andb]. apply (IH y). exact Ht.
Qed.

Lemma tidy_from_app_r :
  forall x y b, tidy_from b (x ++ y) = true -> tidy_from false y = true.
Proof.
  induction x as [ | c x IH]; intros y b H.
  - apply (tidy_from_weaken b). exact H.
  - cbn [app tidy_from] in H. apply andb_true_iff in H as [_ Ht].
    apply (IH y _ Ht).
Qed.

Lemma tidy_from_skipn :
  forall n s b, tidy_from b s = true -> tidy_from false (skipn n s) = true.
Proof.
  intros n s b H. rewrite <- (firstn_skipn n s) in H.
  apply (tidy_from_app_r _ _ _ H).
Qed.

Lemma tidy_from_cons_high :
  forall c t b,
    0x80 <= byteval c ->
    tidy_from b (c :: t) = tidy_from false t.
Proof.
  intros c t b Hc. cbn [tidy_from].
  destruct (high_byte_plain c Hc) as [-> ->].
  rewrite andb_false_r. reflexivity.
Qed.

(** Decoding keeps a string tidy. *)
Lemma decode_loop_tidy :
  forall fuel s b,
    tidy_from b s = true ->
    tidy_runes_from b (utf8.decode_loop fuel s) = true.
Proof.
  induction fuel as [ | fuel IH]; intros s b H; [ reflexivity | ].
  destruct s as [ | c t]; [ reflexivity | ].
  cbn [utf8.decode_loop].
  pose proof (Decode_cases c t) as Hcase.
  pose proof (byteval_range c) as Hc.
  destruct (utf8.DecodeRuneInString (c :: t)) as [r n].
  cbn [tidy_runes_from].
  destruct Hcase as [(Hlow & -> & ->) | (Hhigh & Hr & _ & Hn & _)].
  - cbn [skipn]. cbn [tidy_from] in H.
    apply andb_true_iff in H as [H Ht]. apply andb_true_iff in H as [Hp Hu].
    unfold plain_rune. destruct (Z.ltb_spec (byteval c) 128); [ | lia ].
    rewrite byte_of_byteval, Hp, is_underscore_byteval, Hu. cbn [andb].
    apply IH. exact Ht.
  - unfold plain_rune. destruct (Z.ltb_spec r 128); [ lia | ].
    destruct (Z.eqb_spec r 0x5F); [ lia | ].
    rewrite andb_false_r. cbn [andb negb].
    apply IH. apply (tidy_from_skipn n _ b). exact H.
Qed.

Lemma tidy_runes_from_zeros :
  forall rs k b,
    tidy_runes_from b rs = true ->
    tidy_runes_from b (rs ++ repeat 0 k) = true.
Proof.
  induction rs as [ | r rs IH]; intros k b H.
  - cbn [app]. clear H. revert b. induction k as [ | k IHk]; intros b; [ reflexivity | ].
    cbn [repeat tidy_runes_from]. change (0 =? 95) with false.
    rewrite andb_false_r, (IHk false). reflexivity.
  - cbn [app tidy_runes_from] in *. apply andb_true_iff in H as [H Ht].
    rewrite H. cbn [andb]. apply IH. exact Ht.
Qed.

Lemma tidy_runes_from_firstn :
  forall n rs b,
    tidy_runes_from b rs = true ->
    tidy_runes_from b (firstn n rs) = true.
Proof.
  induction n as [ | n IH]; intros rs b H; [ reflexivity | ].
  destruct rs as [ | r rs]; [ reflexivity | ].
  cbn [firstn tidy_runes_from] in *. apply andb_true_iff in H as [H Ht].
  rewrite H. cbn [andb]. apply IH. exact Ht.
Qed.

Lemma tidy_from_high_prefix :
  forall x y b,
    Forall (fun c => 0x80 <= byteval c) x ->
    x <> [] ->
    tidy_from b (x ++ y) = tidy_from false y.
Proof.
  induction x as [ | c x IH]; intros y b Hall Hne; [ contradiction | ].
  inversion Hall as [ | ? ? Hc Hx]; subst.
  cbn [app]. rewrite tidy_from_cons_high by exact Hc.
  destruct x as [ | c' x']; [ reflexivity | ].
  apply IH; [ exact Hx | discriminate ].
Qed.

Lemma encoderune_bytes :
  forall r, valid_rune r ->
    (0 <= r < 0x80 /\ utf8.encoderune r = [byte_of r])
    \/ (0x80 <= r /\ utf8.encoderune r <> []
        /\ Forall (fun c => 0x80 <= byteval c) (utf8.encoderune r)).
Proof.
  intros r Hr.
  destruct (encoderune_cases r Hr)
    as [[Hrange ->] | [[Hrange ->] | [[Hrange ->] | [Hrange ->]]]].
  - left. split; [ lia | reflexivity ].
  - right. split; [ lia | ]. split; [ discriminate | ].
    repeat constructor; rewrite byteval_byte_of; euclid.
  - right. split; [ lia | ]. split; [ discriminate | ].
    repeat constructor; rewrite byteval_byte_of; euclid.
  - right. split; [ lia | ]. split; [ discriminate | ].
    repeat constructor; rewrite byteval_byte_of; euclid.
Qed.

(** Encoding keeps a list of scalar values tidy. *)
Lemma string_of_runes_tidy :
  forall rs b,
    Forall valid_rune rs ->
    tidy_runes_from b rs = true ->
    tidy_from b (utf8.string_of_runes rs) = true.
Proof.
  induction rs as [ | r rs IH]; intros b Hv H; [ reflexivity | ].
  inversion Hv as [ | ? ? Hr Hrs]; subst.
  unfold utf8.string_of_runes. cbn [flat_map].
  cbn [tidy_runes_from] in H.
  apply andb_true_iff in H as [H Ht]. apply andb_true_iff in H as [Hp Hu].
  destruct (encoderune_bytes r Hr) as [(Hlow & ->) | (Hhigh & Hne & Hall)].
  - cbn [app tidy_from]. unfold plain_rune in Hp.
    destruct (Z.ltb_spec r 128); [ | lia ].
    rewrite Hp, is_underscore_byte_of, Hu by lia. cbn [andb].
    apply IH; assumption.
  - rewrite tidy_from_high_prefix by assumption.
    apply (IH false Hrs).
    destruct (Z.eqb_spec r 0x5F); [ lia | exact Ht ].
Qed.

(** Where the name has at least [max] code points, the limit cuts at
    a code-point boundary: the result is the encoding of the first [max]
    runes, and decodes to exactly those. *)
Lemma limit_length_cuts_code_points :
  forall p max name,
    (max < length name)%nat ->
    (max <= length (utf8.runes_of_string name))%nat ->
    limit_length p max name
    = Returned (utf8.string_of_runes (firstn max (utf8.runes_of_string name)))
    /\ utf8.runes_of_string
         (utf8.string_of_runes (firstn max (utf8.runes_of_string name)))
       = firstn max (utf8.runes_of_string name).
Proof.
  intros p max name Hbytes Hrunes. split.
  - rewrite limit_length_long by exact Hbytes. cbv zeta.
    destruct (Nat.leb_spec max
                (length (utf8.runes_of_string name)
                 + spare_runes p (length (utf8.runes_of_string name))));
      [ | lia ].
    rewrite firstn_app.
    replace (max - length (utf8.runes_of_string name))%nat with 0%nat by lia.
    rewrite firstn_O, app_nil_r. reflexivity.
  - apply runes_of_string_of_runes. apply Forall_forall. intros r Hin.
    apply In_firstn in Hin.
    pose proof (decode_loop_valid (length name) name) as Hall.
    rewrite Forall_forall in Hall. apply Hall. exact Hin.
Qed.

(** The length limit keeps a tidy name tidy. *)
Lemma limit_length_tidy :
  forall p max name out,
    limit_length p max name = Returned out ->
    tidy name = true -> tidy out = true.
Proof.
  intros p max name out Hrun Htidy.
  destruct (Nat.le_gt_cases (length name) max) as [Hle | Hgt].
  { rewrite limit_length_short in Hrun by exact Hle.
    inversion Hrun; subst. exact Htidy. }
  rewrite limit_length_long in Hrun by exact Hgt. cbv zeta in Hrun.
  destruct (_ <=? _)%nat; [ | discriminate Hrun ].
  inversion Hrun; subst out. unfold tidy.
  apply string_of_runes_tidy.
  - apply Forall_forall. intros r Hin.
    apply In_firstn, in_app_or in Hin. destruct Hin as [Hin | Hin].
    + pose proof (decode_loop_valid (length name) name) as Hall.
      rewrite Forall_forall in Hall. apply Hall. exact Hin.
    + apply repeat_spec in Hin. subst r. unfold valid_rune. lia.
  - apply tidy_runes_from_firstn, tidy_runes_from_zeros.
    apply decode_loop_tidy. exact Htidy.
Qed.

(** ** The steps of the sanitizer *)

Lemma trimLeft_suffix :
  forall f s, exists dropped, s = dropped ++ strings.trimLeft f s.
Proof.
  intros f. induction s as [ | c t [d IH]]; [ exists []; reflexivity | ].
  cbn [strings.trimLeft]. destruct (f c).
  - exists (c :: d). cbn [app]. rewrite <- IH. reflexivity.
  - exists []. reflexivity.
Qed.

Lemma trimRight_prefix :
  forall f s, exists dropped, s = strings.trimRight f s ++ dropped.
Proof.
  intros f s. unfold strings.trimRight.
  destruct (trimLeft_suffix f (rev s)) as [d Hd].
  exists (rev d). rewrite <- rev_app_distr, <- Hd, rev_involutive. reflexivity.
Qed.

Lemma Trim_tidy :
  forall s cutset, tidy s = true -> tidy (strings.Trim s cutset) = true.
Proof.
  intros s cutset H. unfold strings.Trim, tidy in *.
  destruct (trimRight_prefix (strings.contains cutset) s) as [d Hd].
  rewrite Hd in H. apply tidy_from_app_l in H.
  destruct (trimLeft_suffix (strings.contains cutset)
              (strings.trimRight (strings.contains cutset) s)) as [d' Hd'].
  rewrite Hd' in H. apply tidy_from_app_r in H. exact H.
Qed.

Lemma ReplaceAll_plus_tidy :
  forall s inrun,
    forallb (fun c => negb (invalidChars c)) s = true ->
    tidy_from inrun
      (regexp.ReplaceAll_plus_from inrun multiSpace s (lit "_")) = true.
Proof.
  induction s as [ | c t IH]; intros inrun Hall; [ reflexivity | ].
  cbn [forallb] in Hall. apply andb_true_iff in Hall as [Hc Ht].
  cbn [regexp.ReplaceAll_plus_from].
  destruct (multiSpace c) eqn:Hms.
  - destruct inrun; [ apply IH; exact Ht | ].
    change (lit "_" ++ ?x) with ("_"%char :: x).
    cbn [tidy_from]. change (is_underscore "_"%char) with true.
    change (plain "_"%char) with true. cbn [andb negb].
    apply IH. exact Ht.
  - unfold multiSpace in Hms. apply orb_false_iff in Hms as [Hsp Hus].
    cbn [tidy_from]. unfold plain, is_underscore.
    rewrite Hc, Hsp, Hus, andb_false_r. cbn [negb andb].
    apply IH. exact Ht.
Qed.

Lemma ReplaceAll_class_no_invalid :
  forall s,
    forallb (fun c => negb (invalidChars c))
      (regexp.ReplaceAll_class invalidChars s (lit "_")) = true.
Proof.
  induction s as [ | c t IH]; [ reflexivity | ].
  unfold regexp.ReplaceAll_class in *. cbn [flat_map].
  destruct (invalidChars c) eqn:Hc.
  - change (lit "_" ++ ?x) with ("_"%char :: x). cbn [forallb].
    rewrite IH. reflexivity.
  - cbn [app forallb]. rewrite Hc, IH. reflexivity.
Qed.

(** The output of the five steps is tidy. *)
Lemma clean_steps_tidy : forall name, tidy (clean_steps name) = true.
Proof.
  intros name. unfold clean_steps. apply Trim_tidy.
  apply ReplaceAll_plus_tidy, ReplaceAll_class_no_invalid.
Qed.


(** ** Steps that find nothing to do *)

Lemma trimLeft_id :
  forall cutset s,
    first_byte_in cutset s = false ->
    strings.trimLeft (strings.contains cutset) s = s.
Proof.
  intros cutset [ | c t] H; [ reflexivity | ].
  cbn in *. rewrite H. reflexivity.
Qed.

Lemma Trim_id :
  forall cutset s,
    first_byte_in cutset s = false -> last_byte_in cutset s = false ->
    strings.Trim s cutset = s.
Proof.
  intros cutset s Hfirst Hlast. unfold strings.Trim, strings.trimRight.
  unfold last_byte_in in Hlast.
  rewrite (trimLeft_id _ _ Hlast), rev_involutive.
  apply trimLeft_id. exact Hfirst.
Qed.

Lemma first_byte_in_app :
  forall a b s,
    first_byte_in (a ++ b) s = first_byte_in a s || first_byte_in b s.
Proof.
  intros a b [ | c t]; [ reflexivity | ].
  cbn [first_byte_in]. unfold strings.contains. apply existsb_app.
Qed.

Lemma tidy_from_no_invalid :
  forall s b,
    tidy_from b s = true -> forallb (fun c => negb (invalidChars c)) s = true.
Proof.
  induction s as [ | c t IH]; intros b H; [ reflexivity | ].
  cbn [tidy_from forallb] in *.
  apply andb_true_iff in H as [H Ht]. apply andb_true_iff in H as [Hp _].
  unfold plain in Hp. apply andb_true_iff in Hp as [Hc _].
  rewrite Hc. cbn [andb]. apply (IH _ Ht).
Qed.

Lemma ReplaceAll_class_id :
  forall cls s repl,
    forallb (fun c => negb (cls c)) s = true ->
    regexp.ReplaceAll_class cls s repl = s.
Proof.
  intros cls s repl. unfold regexp.ReplaceAll_class.
  induction s as [ | c t IH]; intros H; [ reflexivity | ].
  cbn [forallb flat_map] in *. apply andb_true_iff in H as [Hc Ht].
  apply negb_true_iff in Hc. rewrite Hc. cbn [app]. f_equal. apply IH, Ht.
Qed.

Lemma ReplaceAll_plus_id :
  forall s inrun,
    tidy_from inrun s = true ->
    regexp.ReplaceAll_plus_from inrun multiSpace s (lit "_") = s.
Proof.
  induction s as [ | c t IH]; intros inrun H; [ reflexivity | ].
  cbn [tidy_from] in H.
  apply andb_true_iff in H as [H Ht]. apply andb_true_iff in H as [Hp Hu].
  unfold plain in Hp. apply andb_true_iff in Hp as [_ Hsp].
  apply negb_true_iff in Hsp.
  cbn [regexp.ReplaceAll_plus_from]. unfold multiSpace. rewrite Hsp.
  cbn [orb]. fold (is_underscore c).
  destruct (is_underscore c) eqn:Hc.
  - destruct inrun; [ discriminate Hu | ].
    unfold is_underscore in Hc. apply Ascii.eqb_eq in Hc. subst c.
    change (lit "_" ++ ?x) with ("_"%char :: x). f_equal. apply IH, Ht.
  - f_equal. apply IH, Ht.
Qed.

(** *** [TrimSpace] on a name without white space at its ends *)

Lemma IsSpace_ascii :
  forall c, byteval c < 0x80 ->
    unicode.IsSpace (byteval c) = strings.asciiSpace c.
Proof.
  intros c Hc. pose proof (byteval_range c).
  unfold unicode.IsSpace, strings.asciiSpace, unicode.MaxLatin1. cbv zeta.
  rewrite Z.mod_small by (change (2 ^ 32) with 4294967296; lia).
  destruct (Z.leb_spec (byteval c) 255); [ | lia ].
  destruct (Z.eqb_spec (byteval c) 133); [ lia | ].
  destruct (Z.eqb_spec (byteval c) 160); [ lia | ].
  rewrite !orb_false_r. reflexivity.
Qed.

Lemma TrimLeftFunc_id :
  forall s f,
    f (fst (utf8.DecodeRuneInString s)) = false ->
    strings.TrimLeftFunc s f = s.
Proof.
  intros [ | c t] f H; [ reflexivity | ].
  unfold strings.TrimLeftFunc. cbn [length strings.TrimLeftFunc_loop].
  destruct (utf8.DecodeRuneInString (c :: t)) as [r n]. cbn [fst] in H.
  rewrite H. reflexivity.
Qed.

Lemma scan_start_le :
  forall steps s start lim, utf8.scan_start s start lim steps <= start.
Proof.
  induction steps as [ | k IH]; intros s start lim; cbn [utf8.scan_start];
    [ lia | ].
  destruct (start <? lim); [ lia | ].
  destruct (utf8.RuneStart _); [ lia | ].
  specialize (IH s (start - 1) lim). lia.
Qed.

(** The last rune of a non-empty string: it takes between one byte and
    the whole string, and unless it takes one byte it is what decoding
    from its first byte gives. *)
Lemma DecodeLast_spec :
  forall s, s <> [] ->
    let '(r, size) := utf8.DecodeLastRuneInString s in
    (1 <= size <= length s)%nat
    /\ (size = 1%nat
        \/ utf8.DecodeRuneInString (skipn (length s - size) s) = (r, size)).
Proof.
  intros s Hne. unfold utf8.DecodeLastRuneInString. cbv zeta.
  assert (Hlen : (1 <= length s)%nat).
  { destruct s; [ contradiction | cbn; lia ]. }
  destruct (Z.eqb_spec (Z.of_nat (length s)) 0) as [H0 | _]; [ lia | ].
  destruct (_ <? utf8.RuneSelf); [ split; [ lia | left; reflexivity ] | ].
  set (scan := utf8.scan_start s _ _ _).
  assert (Hscan : scan <= Z.of_nat (length s) - 1 - 1)
    by apply scan_start_le.
  set (start := Z.max 0 scan).
  destruct (utf8.DecodeRuneInString (skipn (Z.to_nat start) s))
    as [r size] eqn:Hdec.
  destruct (Z.eqb_spec (start + Z.of_nat size) (Z.of_nat (length s)))
    as [Hfit | _]; [ | split; [ lia | left; reflexivity ] ].
  assert (Hstart : Z.to_nat start = (length s - size)%nat) by lia.
  assert (Hsize : (1 <= size)%nat).
  { destruct (skipn (Z.to_nat start) s) as [ | b t] eqn:Hskip.
    - apply (f_equal (@length ascii)) in Hskip.
      rewrite length_skipn in Hskip. cbn [length] in Hskip. lia.
    - pose proof (Decode_size b t) as Hs. rewrite Hdec in Hs.
      cbn [snd] in Hs. lia. }
  split; [ lia | ]. right. rewrite <- Hstart. exact Hdec.
Qed.

Lemma nth_skipn_head :
  forall (s : gostring) i,
    (i < length s)%nat ->
    exists t, skipn i s = nth i s zero :: t.
Proof.
  induction s as [ | c s IH]; intros i Hi; [ cbn in Hi; lia | ].
  destruct i as [ | i]; [ exists s; reflexivity | ].
  cbn [skipn nth]. apply IH. cbn [length] in Hi. lia.
Qed.

Lemma TrimRightFunc_id :
  forall s f,
    s <> [] ->
    f (fst (utf8.DecodeLastRuneInString s)) = false ->
    strings.TrimRightFunc s f = s.
Proof.
  intros s f Hne Hf. unfold strings.TrimRightFunc.
  pose proof (DecodeLast_spec s Hne) as Hspec.
  destruct (length s) as [ | k] eqn:Hlen;
    [ destruct s; [ contradiction | discriminate Hlen ] | ].
  cbn [strings.lastIndexFunc_loop Nat.ltb Nat.leb].
  rewrite <- Hlen, firstn_all.
  destruct (utf8.DecodeLastRuneInString s) as [r size]. cbn [fst] in Hf.
  rewrite Hf. destruct Hspec as [Hsize Hdec].
  destruct (nth_skipn_head s (length s - size)) as [t Ht]; [ lia | ].
  destruct (Z.leb_spec utf8.RuneSelf
              (byteval (nth (length s - size) s zero))) as [Hhigh | Hlow].
  - pose proof (Decode_size (nth (length s - size) s zero) t) as Hwid.
    rewrite <- Ht in Hwid.
    destruct (utf8.DecodeRuneInString (skipn (length s - size) s))
      as [r' wid] eqn:Hd.
    cbn [snd] in Hwid.
    assert (Hall : (length s <= length s - size + wid)%nat).
    { destruct Hdec as [-> | Hdec]; [ lia | ].
      rewrite <- Hlen, Hd in Hdec. inversion Hdec; subst. lia. }
    apply firstn_all2. exact Hall.
  - assert (Hone : size = 1%nat).
    { destruct Hdec as [-> | Hdec]; [ reflexivity | ].
      rewrite <- Hlen, Ht, Decode_ascii in Hdec by exact Hlow.
      inversion Hdec; reflexivity. }
    subst size. apply firstn_all2. lia.
Qed.

Lemma last_byte_rev :
  forall (s : gostring) l r,
    rev s = l :: r -> nth (length s - 1) s zero = l.
Proof.
  intros s l r Hrev.
  assert (Hs : s = rev r ++ [l]).
  { rewrite <- (rev_involutive s), Hrev. reflexivity. }
  subst s. rewrite length_app, app_nth2; cbn [length]; [ | lia ].
  replace (length (rev r) + 1 - 1 - length (rev r))%nat with 0%nat by lia.
  reflexivity.
Qed.

Lemma DecodeLast_ascii :
  forall s l r,
    rev s = l :: r -> byteval l < 0x80 ->
    utf8.DecodeLastRuneInString s = (byteval l, 1%nat).
Proof.
  intros s l r Hrev Hl. unfold utf8.DecodeLastRuneInString. cbv zeta.
  assert (Hlen : length s = S (length r)).
  { rewrite <- length_rev, Hrev. reflexivity. }
  destruct (Z.eqb_spec (Z.of_nat (length s)) 0); [ lia | ].
  replace (Z.to_nat (Z.of_nat (length s) - 1)) with (length s - 1)%nat by lia.
  rewrite (last_byte_rev s l r Hrev).
  unfold utf8.RuneSelf. destruct (Z.ltb_spec (byteval l) 128); [ | lia ].
  reflexivity.
Qed.

Lemma TrimSpace_stop_id :
  forall s,
    s <> [] -> ends_with_space s = false ->
    strings.TrimSpace_stop (rev s) = s.
Proof.
  intros s Hne Hend. unfold ends_with_space in Hend.
  destruct (rev s) as [ | l r] eqn:Hrev.
  - apply (f_equal (@rev ascii)) in Hrev. rewrite rev_involutive in Hrev.
    contradiction.
  - cbn [strings.TrimSpace_stop]. rewrite <- Hrev, rev_involutive.
    destruct (Z.leb_spec utf8.RuneSelf (byteval l)) as [Hhigh | Hlow].
    + apply TrimRightFunc_id; assumption.
    + rewrite (DecodeLast_ascii s l r Hrev Hlow) in Hend. cbn [fst] in Hend.
      rewrite IsSpace_ascii in Hend by exact Hlow. rewrite Hend. reflexivity.
Qed.

Lemma TrimSpace_id :
  forall s,
    starts_with_space s = false -> ends_with_space s = false ->
    strings.TrimSpace s = s.
Proof.
  intros [ | c t] Hstart Hend; [ reflexivity | ].
  cbn [strings.TrimSpace].
  destruct (Z.leb_spec utf8.RuneSelf (byteval c)) as [Hhigh | Hlow].
  - unfold strings.TrimFunc.
    rewrite TrimLeftFunc_id by exact Hstart.
    apply TrimRightFunc_id; [ discriminate | exact Hend ].
  - unfold starts_with_space in Hstart.
    rewrite Decode_ascii in Hstart by exact Hlow. cbn [fst] in Hstart.
    rewrite IsSpace_ascii in Hstart by exact Hlow. rewrite Hstart.
    apply TrimSpace_stop_id; [ discriminate | exact Hend ].
Qed.

(** The five steps leave a tidy name with bare edges as it is. *)
Lemma clean_steps_id :
  forall name,
    tidy name = true -> bare_edges name = true -> clean_steps name = name.
Proof.
  intros name Htidy Hedges. unfold bare_edges in Hedges.
  apply andb_true_iff in Hedges as [Hedges Hend].
  apply andb_true_iff in Hedges as [Hedges Hstart].
  apply andb_true_iff in Hedges as [Hfirst Hlast].
  apply negb_true_iff in Hfirst, Hlast, Hstart, Hend.
  unfold last_byte_in, edgeCutset in *.
  rewrite first_byte_in_app in Hfirst, Hlast.
  apply orb_false_iff in Hfirst as [Hq1 Hu1].
  apply orb_false_iff in Hlast as [Hq2 Hu2].
  unfold clean_steps.
  rewrite (Trim_id quoteCutset name Hq1 Hq2).
  rewrite (TrimSpace_id name Hstart Hend).
  rewrite ReplaceAll_class_id by (apply (tidy_from_no_invalid _ false), Htidy).
  unfold regexp.ReplaceAll_plus. rewrite ReplaceAll_plus_id by exact Htidy.
  apply Trim_id; assumption.
Qed.

(** ** Pass-through and fallback *)

(** C5. With the configuration disabled, or with an empty message text,
    [GenerateFileName] returns the original name and [GenerateFolderName]
    the default name, with a nil error and no effect at all: nothing is
    sent on the network, so [callAI] has not run. *)
Theorem passthrough_without_network :
  forall p env s messageText name,
    config.Enable (config s) = false \/ messageText = [] ->
    GenerateFileName p env s messageText name = (Returned (name, None), [])
    /\ GenerateFolderName p env s messageText name = (Returned (name, None), []).
Proof.
  intros p env s messageText name [Hoff | Hempty];
    unfold GenerateFileName, GenerateFolderName.
  - rewrite Hoff. split; reflexivity.
  - subst messageText. destruct (config.Enable (config s)); split; reflexivity.
Qed.

Lemma passthrough_without_network_witness :
  GenerateFileName unix_tight (env_answer 200 (one_choice (lit "Report")))
    (sample_service false) (lit "quarterly report") (lit "notes.txt")
  = (Returned (lit "notes.txt", None), [])
  /\ GenerateFolderName unix_tight (env_answer 200 (one_choice (lit "Report")))
       (sample_service false) (lit "quarterly report") (lit "notes.txt")
     = (Returned (lit "notes.txt", None), []).
Proof.
  apply passthrough_without_network. left. reflexivity.
Defined.

(** Every run of [callAI] that hands a request to the client starts its
    effects with that request. *)
Lemma callAI_effects :
  forall env s prompt,
    snd (callAI env s prompt) = []
    \/ exists r rest, snd (callAI env s prompt) = NetDo (client s) r :: rest.
Proof.
  intros env s prompt. unfold callAI.
  destruct (json_Marshal env _) as [reqBody | e]; [ | left; reflexivity ].
  destruct (NewRequest_check env _ _); [ left; reflexivity | ].
  right.
  destruct (client_Do env _ _) as [resp | e]; [ | eexists; eexists; reflexivity ].
  destruct (http.ReadAll resp) as [body | e]; [ | eexists; eexists; reflexivity ].
  destruct (negb _); [ eexists; eexists; reflexivity | ].
  destruct (json_Unmarshal env body) as [chatResp | e];
    [ | eexists; eexists; reflexivity ].
  destruct (Error chatResp); [ eexists; eexists; reflexivity | ].
  destruct (Choices chatResp); eexists; eexists; reflexivity.
Qed.

(** A listed failure of the exchange makes [callAI] return an error. *)
Lemma remote_failure_is_error :
  forall env s prompt c r,
    request_sent (snd (callAI env s prompt)) = Some (c, r) ->
    remote_failure env c r = true ->
    exists e, fst (callAI env s prompt) = inr e.
Proof.
  intros env s prompt c r. unfold callAI.
  destruct (json_Marshal env _) as [reqBody | e]; [ | discriminate ].
  destruct (NewRequest_check env _ _); [ discriminate | ].
  match goal with
  | |- context [client_Do env (client s) ?q] => set (req := q)
  end.
  assert (Hreq : forall effs rest,
             effs = NetDo (client s) req :: rest ->
             request_sent effs = Some (c, r) -> c = client s /\ r = req).
  { intros effs rest -> Hs. simpl in Hs. inversion Hs. split; reflexivity. }
  unfold remote_failure, is_2xx, http.StatusOK.
  destruct (client_Do env (client s) req) as [resp | e] eqn:Hdo;
    [ | intros _ _; eexists; reflexivity ].
  destruct (http.ReadAll resp) as [body | e] eqn:Hread;
    [ | intros _ _; eexists; reflexivity ].
  destruct (http.StatusCode resp =? 200) eqn:Hcode;
    [ | intros _ _; eexists; reflexivity ].
  cbn [negb].
  destruct (json_Unmarshal env body) as [chatResp | e] eqn:Hjson;
    [ | intros _ _; eexists; reflexivity ].
  destruct (Error chatResp) as [ae | ] eqn:Herr;
    [ intros _ _; eexists; reflexivity | ].
  destruct (Choices chatResp) as [ | ch chs] eqn:Hch;
    [ intros _ _; eexists; reflexivity | ].
  intros Hsent Hfail. exfalso.
  destruct (Hreq _ _ eq_refl Hsent) as [-> ->].
  rewrite Hdo, Hread, Hjson, Herr, Hch in Hfail.
  apply Z.eqb_eq in Hcode. rewrite Hcode in Hfail. discriminate Hfail.
Qed.

Lemma request_sent_app :
  forall env s prompt more q,
    request_sent (snd (callAI env s prompt) ++ more) = Some q ->
    (forall c r, In (NetDo c r) more -> False) ->
    request_sent (snd (callAI env s prompt)) = Some q.
Proof.
  intros env s prompt more q Hsent Hmore.
  destruct (callAI_effects env s prompt) as [Hnil | (r & rest & Hcons)].
  - rewrite Hnil in Hsent. simpl in Hsent.
    destruct more as [ | [c r | | | | ] more']; try discriminate.
    exfalso. apply (Hmore c r). left. reflexivity.
  - rewrite Hcons in *. exact Hsent.
Qed.

(** C2. When the exchange with the remote end fails (transport or I/O
    error, status outside 2xx, payload that does not parse, error object,
    or an empty list of choices), [GenerateFileName] returns the original
    file name together with a non-nil error, and [GenerateFolderName]
    the default name together with a non-nil error. *)
Theorem remote_failure_returns_original :
  forall p env s messageText name c r,
    remote_failure env c r = true ->
    (request_sent (snd (GenerateFileName p env s messageText name)) = Some (c, r) ->
     exists e, fst (GenerateFileName p env s messageText name)
               = Returned (name, Some e))
    /\ (request_sent (snd (GenerateFolderName p env s messageText name)) = Some (c, r) ->
        exists e, fst (GenerateFolderName p env s messageText name)
                  = Returned (name, Some e)).
Proof.
  intros p env s messageText name c r Hfail.
  unfold GenerateFileName, GenerateFolderName.
  destruct (config.Enable (config s)); cbn [negb];
    [ | split; intros Hs; discriminate Hs ].
  destruct messageText as [ | m ms]; cbn [is_empty];
    [ split; intros Hs; discriminate Hs | ].
  split.
  - set (prompt := buildPrompt env s (m :: ms) _).
    pose proof (remote_failure_is_error env s prompt c r) as Herr.
    pose proof (request_sent_app env s prompt) as Happ.
    destruct (callAI env s prompt) as [[newName | err] effects];
      cbn [fst snd] in *.
    + intros Hsent. exfalso.
      assert (Hs : request_sent effects = Some (c, r)).
      { destruct (cleanFileName p newName) as [cleanName | ];
          [ destruct (is_empty cleanName) | ]; cbn [snd] in Hsent.
        - apply (Happ _ _ Hsent). intros ? ? [H | []]; discriminate H.
        - apply (Happ _ _ Hsent). intros ? ? [H | []]; discriminate H.
        - exact Hsent. }
      destruct (Herr Hs Hfail) as [e He]. discriminate He.
    + intros _. exists err. reflexivity.
  - set (prompt := buildFolderPrompt env s (m :: ms) _).
    pose proof (remote_failure_is_error env s prompt c r) as Herr.
    pose proof (request_sent_app env s prompt) as Happ.
    destruct (callAI env s prompt) as [[newName | err] effects];
      cbn [fst snd] in *.
    + intros Hsent. exfalso.
      assert (Hs : request_sent effects = Some (c, r)).
      { destruct (cleanFolderName p newName) as [cleanName | ];
          [ destruct (is_empty cleanName) | ]; cbn [snd] in Hsent.
        - apply (Happ _ _ Hsent). intros ? ? [H | []]; discriminate H.
        - apply (Happ _ _ Hsent). intros ? ? [H | []]; discriminate H.
        - exact Hsent. }
      destruct (Herr Hs Hfail) as [e He]. discriminate He.
    + intros _. exists err. reflexivity.
Qed.

(** The scenario of the specification: the remote end answers 200 with
    an empty list of choices. *)
Lemma remote_failure_returns_original_witness :
  let env := env_answer 200 {| Choices := []; Error := None |} in
  let s := sample_service true in
  exists c r,
    request_sent (snd (GenerateFileName unix_tight env s (lit "report") (lit "notes.txt")))
    = Some (c, r)
    /\ remote_failure env c r = true
    /\ fst (GenerateFileName unix_tight env s (lit "report") (lit "notes.txt"))
       = Returned (lit "notes.txt", Some ErrNoChoices)
    /\ exists e, fst (GenerateFolderName unix_tight env s (lit "report") (lit "notes.txt"))
                 = Returned (lit "notes.txt", Some e).
Proof.
  intros env s. eexists. eexists.
  split; [ vm_compute; reflexivity | ].
  split; [ vm_compute; reflexivity | ].
  split; [ vm_compute; reflexivity | ].
  refine (proj2 (remote_failure_returns_original unix_tight env s
                   (lit "report") (lit "notes.txt") _ _ _) _);
    vm_compute; reflexivity.
Defined.

(** ** The checks of [callAI] *)

(** A 201 answer with a well-formed body and one choice is a 2xx
    response, and [callAI] rejects it at the status check. *)
Lemma status_201_rejected :
  is_2xx 201 = true
  /\ fst (callAI (env_answer 201 (one_choice (lit "Report")))
            (sample_service true) (lit "prompt"))
     = inr (ErrAPIStatus 201 (lit "{}")).
Proof. split; reflexivity. Qed.

(** C8, amended. A response fails the status check exactly when its
    status code is not 200.  The checks apply in the order transport or
    I/O error, status other than 200, payload that does not parse, error
    field, empty choices: the error [callAI] returns reports the first
    check of that order that matches, whatever the later ones would say,
    and [callAI] succeeds exactly when none matches. *)
Theorem first_matching_check_wins :
  forall env s prompt c r,
    request_sent (snd (callAI env s prompt)) = Some (c, r) ->
    match fst (callAI env s prompt) with
    | inr e =>
      reported e = find (matches env (client_Do env c r)) check_order
      /\ (reported e = Some Status <->
          exists resp body,
            client_Do env c r = inl resp /\ http.ReadAll resp = inl body
            /\ http.StatusCode resp <> 200)
    | inl _ => find (matches env (client_Do env c r)) check_order = None
    end.
Proof.
  intros env s prompt c r. unfold callAI.
  destruct (json_Marshal env _) as [reqBody | e]; [ | discriminate ].
  destruct (NewRequest_check env _ _); [ discriminate | ].
  match goal with
  | |- context [client_Do env (client s) ?q] => set (req := q)
  end.
  destruct (client_Do env (client s) req) as [resp | e] eqn:Hdo.
  - destruct (http.ReadAll resp) as [body | e] eqn:Hread.
    + unfold http.StatusOK.
      destruct (http.StatusCode resp =? 200) eqn:Hcode; cbn [negb].
      * apply Z.eqb_eq in Hcode.
        destruct (json_Unmarshal env body) as [chatResp | e] eqn:Hjson.
        -- destruct (Error chatResp) as [ae | ] eqn:Herr.
           ++ cbn [snd fst request_sent]. intros Hs; inversion Hs; subst c r.
              rewrite Hdo. cbn. rewrite Hread, Hcode, Hjson, Herr. cbn.
              split; [ reflexivity | ].
              split; [ discriminate | ].
              intros (resp' & body' & Hr & _ & Hne).
              inversion Hr; subst resp'. contradiction.
           ++ destruct (Choices chatResp) as [ | ch chs] eqn:Hch.
              ** cbn [snd fst request_sent]. intros Hs; inversion Hs; subst c r.
                 rewrite Hdo. cbn. rewrite Hread, Hcode, Hjson, Herr, Hch. cbn.
                 split; [ reflexivity | ].
                 split; [ discriminate | ].
                 intros (resp' & body' & Hr & _ & Hne).
                 inversion Hr; subst resp'. contradiction.
              ** cbn [snd fst request_sent]. intros Hs; inversion Hs; subst c r.
                 rewrite Hdo. cbn. rewrite Hread, Hcode, Hjson, Herr, Hch.
                 reflexivity.
        -- cbn [snd fst request_sent]. intros Hs; inversion Hs; subst c r.
           rewrite Hdo. cbn. rewrite Hread, Hcode, Hjson. cbn.
           split; [ reflexivity | ].
           split; [ discriminate | ].
           intros (resp' & body' & Hr & _ & Hne).
           inversion Hr; subst resp'. contradiction.
      * cbn [snd fst request_sent]. intros Hs; inversion Hs; subst c r.
        rewrite Hdo. cbn. rewrite Hread, Hcode. cbn.
        split; [ reflexivity | ].
        split; [ intros _ | reflexivity ].
        exists resp, body. apply Z.eqb_neq in Hcode. auto.
    + cbn [snd fst request_sent]. intros Hs; inversion Hs; subst c r.
      rewrite Hdo. cbn. rewrite Hread.
      split; [ reflexivity | ].
      split; [ discriminate | ].
      intros (resp' & body' & Hr & Hb & _).
      inversion Hr; subst resp'. rewrite Hread in Hb. discriminate Hb.
  - cbn [snd fst request_sent]. intros Hs; inversion Hs; subst c r.
    rewrite Hdo. cbn.
    split; [ reflexivity | ].
    split; [ discriminate | ].
    intros (resp' & body' & Hr & _). discriminate Hr.
Qed.

(** A 500 answer whose body carries an error object and no choice: three
    checks match, the status check is the one reported. *)
Lemma first_matching_check_wins_witness :
  let env := env_answer 500
               {| Choices := [];
                  Error := Some {| APIError.Message := lit "overloaded";
                                   APIError.Type_ := lit "server_error";
                                   APIError.Code := lit "503" |} |} in
  let s := sample_service true in
  exists c r,
    request_sent (snd (callAI env s (lit "prompt"))) = Some (c, r)
    /\ filter (matches env (client_Do env c r)) check_order
       = [Status; ErrorField; EmptyChoices]
    /\ match fst (callAI env s (lit "prompt")) with
       | inr e =>
         reported e = find (matches env (client_Do env c r)) check_order
         /\ (reported e = Some Status <->
             exists resp body,
               client_Do env c r = inl resp /\ http.ReadAll resp = inl body
               /\ http.StatusCode resp <> 200)
       | inl _ => find (matches env (client_Do env c r)) check_order = None
       end.
Proof.
  intros env s. eexists. eexists.
  split; [ vm_compute; reflexivity | ].
  split; [ vm_compute; reflexivity | ].
  apply (first_matching_check_wins env s (lit "prompt")).
  vm_compute; reflexivity.
Defined.

(** ** Extensions *)

Lemma gostring_eqb_eq : forall a b, gostring_eqb a b = true <-> a = b.
Proof.
  induction a as [ | x a IH]; destruct b as [ | y b]; simpl;
    try (split; [ discriminate | discriminate ]); try tauto.
  rewrite andb_true_iff, Ascii.eqb_eq, IH.
  split; [ intros [-> ->]; reflexivity | intros H; inversion H; auto ].
Qed.

(** [strings.HasSuffix] decides "ends with". *)
Lemma HasSuffix_spec :
  forall s suffix,
    strings.HasSuffix s suffix = true <-> exists pre, s = pre ++ suffix.
Proof.
  intros s suffix. unfold strings.HasSuffix.
  rewrite andb_true_iff, Nat.leb_le, gostring_eqb_eq. split.
  - intros [_ Hskip].
    set (k := (length s - length suffix)%nat) in *.
    exists (firstn k s). rewrite <- Hskip. symmetry. apply firstn_skipn.
  - intros [pre ->]. rewrite length_app. split; [ lia | ].
    replace (length pre + length suffix - length suffix)%nat
      with (length pre + 0)%nat by lia.
    rewrite skipn_app, Nat.add_0_r, skipn_all.
    replace (length pre - length pre)%nat with 0%nat by lia.
    reflexivity.
Qed.

Lemma from_last_dot_snoc :
  forall l c,
    from_last_dot (l ++ [c])
    = if Ascii.eqb c "." then [c]
      else match from_last_dot l with [] => [] | e => e ++ [c] end.
Proof.
  induction l as [ | a l IH]; intros c.
  - simpl. destruct (Ascii.eqb c "."); reflexivity.
  - cbn [app from_last_dot]. rewrite IH.
    destruct (Ascii.eqb c ".") eqn:Hc; [ reflexivity | ].
    destruct (from_last_dot l) as [ | d e].
    + destruct (Ascii.eqb a "."); reflexivity.
    + reflexivity.
Qed.

Lemma Ext_loop_from_last_dot :
  forall p todo seen,
    forallb (fun c => negb (IsPathSeparator p c)) todo = true ->
    filepath.Ext_loop p todo seen
    = match from_last_dot (rev todo) with [] => [] | e => e ++ seen end.
Proof.
  induction todo as [ | c r IH]; intros seen Hsep; [ reflexivity | ].
  cbn [forallb] in Hsep. apply andb_true_iff in Hsep as [Hc Hr].
  cbn [filepath.Ext_loop rev]. rewrite from_last_dot_snoc.
  apply negb_true_iff in Hc. rewrite Hc.
  destruct (Ascii.eqb c "."); [ reflexivity | ].
  rewrite (IH _ Hr).
  destruct (from_last_dot (rev r)) as [ | d e]; [ reflexivity | ].
  cbn [app]. rewrite <- app_assoc. reflexivity.
Qed.

(** For a name without path separator, [filepath.Ext] is the text from
    the last dot on. *)
Lemma Ext_is_from_last_dot :
  forall p name,
    forallb (fun c => negb (IsPathSeparator p c)) name = true ->
    filepath.Ext p name = from_last_dot name.
Proof.
  intros p name Hsep. unfold filepath.Ext.
  rewrite Ext_loop_from_last_dot.
  - rewrite rev_involutive.
    destruct (from_last_dot name); [ reflexivity | apply app_nil_r ].
  - rewrite forallb_forall in *. intros c Hin. apply Hsep.
    apply in_rev. exact Hin.
Qed.

(** ** Panics of the length limit *)

(** The limit panics exactly when the name is longer than [max] bytes
    while the slice of its runes has a capacity below [max]. *)
Lemma limit_length_panics_iff :
  forall p max name,
    limit_length p max name = Panicked
    <-> (max < length name)%nat
        /\ (length (utf8.runes_of_string name)
            + spare_runes p (length (utf8.runes_of_string name)) < max)%nat.
Proof.
  intros p max name.
  destruct (Nat.le_gt_cases (length name) max) as [Hle | Hgt].
  - rewrite (limit_length_short _ _ _ Hle). split; [ discriminate | lia ].
  - rewrite (limit_length_long _ _ _ Hgt). cbv zeta.
    destruct (Nat.leb_spec max
                (length (utf8.runes_of_string name)
                 + spare_runes p (length (utf8.runes_of_string name)))).
    + split; [ discriminate | lia ].
    + split; [ intros _; split; assumption | reflexivity ].
Qed.

(** On the path where the remote call succeeds, the two generators are
    the sanitizer followed by the fallback and the extension. *)
Lemma GenerateFileName_after_call :
  forall p env s messageText name candidate,
    config.Enable (config s) = true ->
    messageText <> [] ->
    fst (callAI env s
           (buildPrompt env s messageText
              (strings.TrimSuffix name (filepath.Ext p name))))
    = inl candidate ->
    fst (GenerateFileName p env s messageText name)
    = match cleanFileName p candidate with
      | Panicked => Panicked
      | Returned cleanName =>
        Returned
          (if is_empty cleanName then name
           else if strings.HasSuffix cleanName (filepath.Ext p name)
                then cleanName else cleanName ++ filepath.Ext p name,
           None)
      end.
Proof.
  intros p env s messageText name candidate Hon Htext Hcall.
  unfold GenerateFileName. rewrite Hon. cbn [negb].
  destruct messageText as [ | m ms]; [ contradiction | ]. cbn [is_empty].
  destruct (callAI env s _) as [res effects]. cbn [fst] in Hcall. subst res.
  destruct (cleanFileName p candidate) as [cleanName | ]; [ | reflexivity ].
  destruct (is_empty cleanName); [ reflexivity | ].
  destruct (strings.HasSuffix cleanName _); reflexivity.
Qed.

Lemma GenerateFolderName_after_call :
  forall p env s messageText name candidate,
    config.Enable (config s) = true ->
    messageText <> [] ->
    fst (callAI env s (buildFolderPrompt env s messageText name))
    = inl candidate ->
    fst (GenerateFolderName p env s messageText name)
    = match cleanFolderName p candidate with
      | Panicked => Panicked
      | Returned cleanName =>
        Returned (if is_empty cleanName then name else cleanName, None)
      end.
Proof.
  intros p env s messageText name candidate Hon Htext Hcall.
  unfold GenerateFolderName. rewrite Hon. cbn [negb].
  destruct messageText as [ | m ms]; [ contradiction | ]. cbn [is_empty].
  destruct (callAI env s _) as [res effects]. cbn [fst] in Hcall. subst res.
  destruct (cleanFolderName p candidate) as [cleanName | ]; [ | reflexivity ].
  destruct (is_empty cleanName); reflexivity.
Qed.

Lemma cjk17_facts :
  clean_steps cjk17 = cjk17
  /\ length cjk17 = 51%nat
  /\ utf8.runes_of_string cjk17 = repeat 0x4E2D 17.
Proof. repeat split; vm_compute; reflexivity. Qed.

(** C1, at a failing input. The remote end proposes a name of seventeen
    CJK characters (51 bytes, 17 code points): on every platform whose
    rune conversion leaves a capacity below 50 for it, [GenerateFileName]
    panics at [runes[:50]]. *)
Theorem GenerateFileName_panics :
  forall p,
    (17 + spare_runes p 17 < 50)%nat ->
    fst (GenerateFileName p (env_answer 200 (one_choice cjk17))
           (sample_service true) (lit "holiday photos") (lit "IMG_0001.jpg"))
    = Panicked.
Proof.
  intros p Hcap.
  rewrite (GenerateFileName_after_call _ _ _ _ _ cjk17);
    [ | reflexivity | discriminate | reflexivity ].
  assert (Hpanic : cleanFileName p cjk17 = Panicked).
  { rewrite cleanFileName_shape. apply limit_length_panics_iff.
    destruct cjk17_facts as (-> & Hlen & ->).
    rewrite Hlen, repeat_length. split; [ lia | exact Hcap ]. }
  rewrite Hpanic. reflexivity.
Qed.

Lemma GenerateFileName_panics_witness :
  fst (GenerateFileName unix_buf32 (env_answer 200 (one_choice cjk17))
         (sample_service true) (lit "holiday photos") (lit "IMG_0001.jpg"))
  = Panicked.
Proof.
  apply (GenerateFileName_panics unix_buf32). vm_compute. lia.
Defined.

(** C3, at a failing input. The cleaned form of seventeen CJK characters
    has 17 code points, fewer than 50, and yet [cleanFileName] does not
    return it: its 51 bytes pass the test [len(name) > 50], and
    [runes[:50]] either panics or reaches 33 elements beyond the
    seventeen runes. *)
Theorem cleanFileName_short_name_not_returned :
  (length (utf8.runes_of_string (clean_steps cjk17)) <= 50)%nat
  /\ forall p, cleanFileName p cjk17 <> Returned (clean_steps cjk17).
Proof.
  destruct cjk17_facts as (Hclean & Hlen & Hrunes).
  rewrite Hclean. split.
  - rewrite Hrunes, repeat_length. lia.
  - intros p. rewrite cleanFileName_shape, Hclean.
    rewrite limit_length_long by (rewrite Hlen; lia). cbv zeta.
    rewrite Hrunes, repeat_length.
    destruct (Nat.leb_spec 50 (17 + spare_runes p 17)) as [Hcap | Hcap];
      [ | discriminate ].
    intros Heq.
    apply (f_equal (fun x => match x with
                             | Returned a => length a
                             | Panicked => 0%nat
                             end)) in Heq.
    cbv beta iota in Heq. rewrite Hlen in Heq.
    rewrite firstn_app, repeat_length in Heq.
    rewrite firstn_all2 in Heq by (rewrite repeat_length; lia).
    replace (50 - 17)%nat with 33%nat in Heq by reflexivity.
    assert (Hpad : firstn 33 (repeat 0 (spare_runes p 17)) = repeat 0 33).
    { replace (spare_runes p 17) with (33 + (spare_runes p 17 - 33))%nat by lia.
      rewrite repeat_app, firstn_app, repeat_length.
      rewrite firstn_all2 by (rewrite repeat_length; lia).
      replace (33 - 33)%nat with 0%nat by reflexivity.
      rewrite firstn_O, app_nil_r. reflexivity. }
    rewrite Hpad in Heq. vm_compute in Heq. discriminate Heq.
Qed.

(** ** Non-empty names *)

(** With the configuration disabled and an empty original name, the name
    returned is empty. *)
Lemma empty_name_returned :
  GenerateFileName unix_tight (env_answer 200 (one_choice (lit "Report")))
    (sample_service false) (lit "quarterly report") []
  = (Returned ([], None), [])
  /\ GenerateFolderName unix_tight (env_answer 200 (one_choice (lit "Report")))
       (sample_service false) (lit "quarterly report") []
     = (Returned ([], None), []).
Proof. split; reflexivity. Qed.

(** C9, amended. For a non-empty original (or default) name, every name
    [GenerateFileName] (or [GenerateFolderName]) returns is non-empty; the
    call returns unless the remote call succeeded and the length limit of
    the sanitizer panics on its candidate. *)
Theorem returned_name_nonempty :
  forall p env s messageText name,
    name <> [] ->
    match fst (GenerateFileName p env s messageText name) with
    | Returned (newName, _) => newName <> []
    | Panicked =>
      exists candidate,
        fst (callAI env s
               (buildPrompt env s messageText
                  (strings.TrimSuffix name (filepath.Ext p name))))
        = inl candidate
        /\ cleanFileName p candidate = Panicked
    end
    /\ match fst (GenerateFolderName p env s messageText name) with
       | Returned (newName, _) => newName <> []
       | Panicked =>
         exists candidate,
           fst (callAI env s (buildFolderPrompt env s messageText name))
           = inl candidate
           /\ cleanFolderName p candidate = Panicked
       end.
Proof.
  intros p env s messageText name Hname. split.
  - destruct (config.Enable (config s)) eqn:Hon;
      [ | unfold GenerateFileName; rewrite Hon; exact Hname ].
    destruct messageText as [ | m ms];
      [ unfold GenerateFileName; rewrite Hon; exact Hname | ].
    destruct (fst (callAI env s
                     (buildPrompt env s (m :: ms)
                        (strings.TrimSuffix name (filepath.Ext p name)))))
      as [candidate | err] eqn:Hcall.
    + rewrite (GenerateFileName_after_call _ _ _ _ _ candidate Hon)
        by (discriminate || exact Hcall).
      destruct (cleanFileName p candidate) as [cleanName | ] eqn:Hlimit.
      * destruct cleanName as [ | c0 cs]; cbn [is_empty]; [ exact Hname | ].
        destruct (strings.HasSuffix _ _); discriminate.
      * exists candidate. split; [ reflexivity | exact Hlimit ].
    + unfold GenerateFileName. rewrite Hon. cbn [negb is_empty].
      destruct (callAI env s _) as [res effects]. cbn [fst] in Hcall.
      subst res. exact Hname.
  - destruct (config.Enable (config s)) eqn:Hon;
      [ | unfold GenerateFolderName; rewrite Hon; exact Hname ].
    destruct messageText as [ | m ms];
      [ unfold GenerateFolderName; rewrite Hon; exact Hname | ].
    destruct (fst (callAI env s (buildFolderPrompt env s (m :: ms) name)))
      as [candidate | err] eqn:Hcall.
    + rewrite (GenerateFolderName_after_call _ _ _ _ _ candidate Hon)
        by (discriminate || exact Hcall).
      destruct (cleanFolderName p candidate) as [cleanName | ] eqn:Hlimit.
      * destruct cleanName as [ | c0 cs]; cbn [is_empty];
          [ exact Hname | discriminate ].
      * exists candidate. split; [ reflexivity | exact Hlimit ].
    + unfold GenerateFolderName. rewrite Hon. cbn [negb is_empty].
      destruct (callAI env s _) as [res effects]. cbn [fst] in Hcall.
      subst res. exact Hname.
Qed.

(** The remote end proposes two backticks, which the sanitizer empties:
    the original name comes back. *)
Lemma returned_name_nonempty_witness :
  lit "notes.txt" <> []
  /\ fst (GenerateFileName unix_tight (env_answer 200 (one_choice (lit "``")))
            (sample_service true) (lit "quarterly report") (lit "notes.txt"))
     = Returned (lit "notes.txt", None)
  /\ match fst (GenerateFileName unix_tight
                  (env_answer 200 (one_choice (lit "``")))
                  (sample_service true) (lit "quarterly report")
                  (lit "notes.txt")) with
     | Returned (newName, _) => newName <> []
     | Panicked => False
     end.
Proof.
  split; [ discriminate | ].
  split; [ reflexivity | ].
  assert (Hname : lit "notes.txt" <> []) by discriminate.
  exact (proj1 (returned_name_nonempty unix_tight
                  (env_answer 200 (one_choice (lit "``")))
                  (sample_service true) (lit "quarterly report")
                  (lit "notes.txt") Hname)).
Defined.

(** ** What the sanitizer guarantees *)

Lemma trimLeft_head :
  forall cutset s,
    first_byte_in cutset (strings.trimLeft (strings.contains cutset) s) = false.
Proof.
  intros cutset. induction s as [ | c t IH]; [ reflexivity | ].
  cbn [strings.trimLeft].
  destruct (strings.contains cutset c) eqn:Hc; [ exact IH | ].
  cbn [first_byte_in]. exact Hc.
Qed.

(** After [strings.Trim], no byte of the cutset is left at either end. *)
Lemma Trim_edges :
  forall s cutset,
    first_byte_in cutset (strings.Trim s cutset) = false
    /\ last_byte_in cutset (strings.Trim s cutset) = false.
Proof.
  intros s cutset. unfold strings.Trim. split; [ apply trimLeft_head | ].
  set (f := strings.contains cutset).
  set (y := strings.trimRight f s).
  assert (Hy : first_byte_in cutset (rev y) = false).
  { subst y. unfold strings.trimRight. rewrite rev_involutive.
    apply trimLeft_head. }
  destruct (trimLeft_suffix f y) as [d Hd].
  unfold last_byte_in.
  destruct (rev (strings.trimLeft f y)) as [ | l r] eqn:Hrev; [ reflexivity | ].
  rewrite Hd, rev_app_distr, Hrev in Hy. exact Hy.
Qed.

Lemma tidy_from_plain :
  forall s b c, tidy_from b s = true -> In c s -> plain c = true.
Proof.
  induction s as [ | x t IH]; intros b c H Hin; [ contradiction | ].
  cbn [tidy_from] in H.
  apply andb_true_iff in H as [H Ht]. apply andb_true_iff in H as [Hp _].
  destruct Hin as [-> | Hin]; [ exact Hp | apply (IH _ _ Ht Hin) ].
Qed.

Lemma tidy_no_double_underscore :
  forall s b pre post,
    tidy_from b s = true -> s <> pre ++ "_"%char :: "_"%char :: post.
Proof.
  intros s b pre post H Heq. subst s.
  apply tidy_from_app_r in H. cbn [tidy_from] in H.
  change (is_underscore "_"%char) with true in H.
  rewrite !andb_false_r in H. discriminate H.
Qed.

(** A vertical tab, and an ideographic space (U+3000), inside a name:
    both are white space, and the sanitizer keeps both. *)
Lemma inner_white_space_kept :
  let vt := ["a"; "011"; "b"]%char in
  let wide := lit "a　b" in
  cleanFileName unix_tight vt = Returned vt
  /\ In "011"%char vt
  /\ unicode.IsSpace (byteval "011"%char) = true
  /\ cleanFolderName unix_tight wide = Returned wide
  /\ utf8.runes_of_string wide = [0x61; 0x3000; 0x62]
  /\ unicode.IsSpace 0x3000 = true.
Proof. repeat split; vm_compute; auto. Qed.

(** The first pattern rewrites byte by byte. *)
Lemma ReplaceAll_class_map :
  forall cls s x,
    regexp.ReplaceAll_class cls s [x] = map (fun c => if cls c then x else c) s.
Proof.
  intros cls s x. unfold regexp.ReplaceAll_class.
  induction s as [ | c t IH]; [ reflexivity | ].
  cbn [flat_map map]. rewrite IH. destruct (cls c); reflexivity.
Qed.

Lemma ReplaceAll_plus_from_run :
  forall cls run rest repl,
    forallb cls run = true ->
    (forall c t, rest = c :: t -> cls c = false) ->
    regexp.ReplaceAll_plus_from true cls (run ++ rest) repl
    = regexp.ReplaceAll_plus_from false cls rest repl.
Proof.
  intros cls run rest repl. induction run as [ | c run IH]; intros Hrun Hrest.
  - destruct rest as [ | c t]; [ reflexivity | ].
    cbn [app regexp.ReplaceAll_plus_from]. rewrite (Hrest c t eq_refl).
    reflexivity.
  - cbn [forallb] in Hrun. apply andb_true_iff in Hrun as [Hc Hrun].
    cbn [app regexp.ReplaceAll_plus_from]. rewrite Hc. apply IH; assumption.
Qed.

(** The second pattern turns a whole run into one replacement. *)
Lemma ReplaceAll_plus_run :
  forall cls run rest repl,
    run <> [] ->
    forallb cls run = true ->
    (forall c t, rest = c :: t -> cls c = false) ->
    regexp.ReplaceAll_plus cls (run ++ rest) repl
    = repl ++ regexp.ReplaceAll_plus cls rest repl.
Proof.
  intros cls [ | c run] rest repl Hne Hrun Hrest; [ contradiction | ].
  cbn [forallb] in Hrun. apply andb_true_iff in Hrun as [Hc Hrun].
  unfold regexp.ReplaceAll_plus. cbn [app regexp.ReplaceAll_plus_from].
  rewrite Hc. f_equal. apply ReplaceAll_plus_from_run; assumption.
Qed.

(** ** Sanitizing twice *)

(** A second pass is not always a no-op.  The name underscore-quote-a
    is sanitized to quote-a, and that to a.  An underscore followed by a
    vertical tab behaves the same way.  And a name of 49 letters followed
    by an underscore and one more letter is cut after the underscore,
    which the second pass then strips. *)
Lemma second_pass_changes_name :
  let long := repeat "a"%char 49 in
  cleanFileName unix_tight (lit "_'a") = Returned (lit "'a")
  /\ cleanFileName unix_tight (lit "'a") = Returned (lit "a")
  /\ cleanFolderName unix_tight (lit "_'a") = Returned (lit "'a")
  /\ cleanFolderName unix_tight (lit "'a") = Returned (lit "a")
  /\ lit "a" <> lit "'a"
  /\ cleanFileName unix_tight ["_"; "011"; "a"]%char = Returned ["011"; "a"]%char
  /\ cleanFileName unix_tight ["011"; "a"]%char = Returned (lit "a")
  /\ cleanFileName unix_tight (long ++ lit "_b") = Returned (long ++ lit "_")
  /\ cleanFileName unix_tight (long ++ lit "_") = Returned long.
Proof. repeat split; try (vm_compute; reflexivity). discriminate. Qed.

(** C4, amended. A name a sanitizer returned, which neither begins nor
    ends with a quote character, an underscore or white space, is
    returned unchanged when sanitized again. *)
Theorem sanitizer_idempotent_on_bare_edges :
  forall p name out,
    bare_edges out = true ->
    (cleanFileName p name = Returned out -> cleanFileName p out = Returned out)
    /\ (cleanFolderName p name = Returned out ->
        cleanFolderName p out = Returned out).
Proof.
  intros p name out Hedges.
  rewrite !cleanFileName_shape, !cleanFolderName_shape.
  split; intros Hrun.
  - pose proof (limit_length_tidy _ _ _ _ Hrun (clean_steps_tidy name)) as Ht.
    rewrite (clean_steps_id out Ht Hedges).
    apply (limit_length_idempotent _ _ _ _ Hrun).
  - pose proof (limit_length_tidy _ _ _ _ Hrun (clean_steps_tidy name)) as Ht.
    rewrite (clean_steps_id out Ht Hedges).
    apply (limit_length_idempotent _ _ _ _ Hrun).
Qed.

Lemma sanitizer_idempotent_on_bare_edges_witness :
  bare_edges (lit "My_File_Name") = true
  /\ cleanFileName unix_tight (lit "  My/File:Name??  ")
     = Returned (lit "My_File_Name")
  /\ cleanFileName unix_tight (lit "My_File_Name")
     = Returned (lit "My_File_Name").
Proof.
  assert (Hedges : bare_edges (lit "My_File_Name") = true) by reflexivity.
  assert (Hrun : cleanFileName unix_tight (lit "  My/File:Name??  ")
                 = Returned (lit "My_File_Name")) by reflexivity.
  split; [ exact Hedges | ]. split; [ exact Hrun | ].
  exact (proj1 (sanitizer_idempotent_on_bare_edges unix_tight
                  (lit "  My/File:Name??  ") (lit "My_File_Name") Hedges)
           Hrun).
Defined.

(** ** The shared instance *)

Import singleton.


(** * Further properties *)

(** ** Parts of a string *)

Lemma part_of_refl : forall s, part_of s s.
Proof. intros s. exists [], []. rewrite app_nil_r. reflexivity. Qed.

Lemma part_of_trans :
  forall x y z, part_of x y -> part_of y z -> part_of x z.
Proof.
  intros x y z (a & b & ->) (c & d & ->).
  exists (c ++ a), (b ++ d). rewrite <- !app_assoc. reflexivity.
Qed.

Lemma part_of_nil : forall s, part_of [] s.
Proof. intros s. exists [], s. reflexivity. Qed.

Lemma part_of_skipn : forall n s, part_of (skipn n s) s.
Proof.
  intros n s. exists (firstn n s), []. rewrite app_nil_r.
  symmetry. apply firstn_skipn.
Qed.

Lemma part_of_firstn : forall n s, part_of (firstn n s) s.
Proof.
  intros n s. exists [], (skipn n s). symmetry. apply firstn_skipn.
Qed.

Lemma part_of_cons : forall x c s, part_of x s -> part_of x (c :: s).
Proof.
  intros x c s (a & b & ->). exists (c :: a), b. reflexivity.
Qed.

Lemma part_of_snoc : forall x c s, part_of x s -> part_of x (s ++ [c]).
Proof.
  intros x c s (a & b & ->). exists a, (b ++ [c]).
  rewrite <- !app_assoc. reflexivity.
Qed.

Lemma part_of_length : forall x s, part_of x s -> (length x <= length s)%nat.
Proof. intros x s (a & b & ->). rewrite !length_app. lia. Qed.

Lemma part_of_forallb :
  forall (f : byte -> bool) x s,
    part_of x s -> forallb f s = true -> forallb f x = true.
Proof.
  intros f x s (a & b & ->) H. rewrite !forallb_app in H.
  apply andb_true_iff in H as [_ H]. apply andb_true_iff in H as [H _].
  exact H.
Qed.

Lemma Trim_part_of : forall s cutset, part_of (strings.Trim s cutset) s.
Proof.
  intros s cutset. unfold strings.Trim.
  destruct (trimRight_prefix (strings.contains cutset) s) as [d Hd].
  destruct (trimLeft_suffix (strings.contains cutset)
              (strings.trimRight (strings.contains cutset) s)) as [d' Hd'].
  exists d', d. rewrite Hd at 1. rewrite Hd' at 1.
  rewrite <- app_assoc. reflexivity.
Qed.

Lemma TrimLeftFunc_loop_part_of :
  forall fuel f s, part_of (strings.TrimLeftFunc_loop fuel f s) s.
Proof.
  induction fuel as [ | fuel IH]; intros f s; [ apply part_of_nil | ].
  destruct s as [ | c t]; [ apply part_of_nil | ].
  cbn [strings.TrimLeftFunc_loop].
  destruct (utf8.DecodeRuneInString (c :: t)) as [r n].
  destruct (f r); [ | apply part_of_refl ].
  apply (part_of_trans _ (skipn n (c :: t))); [ apply IH | apply part_of_skipn ].
Qed.

Lemma TrimRightFunc_part_of :
  forall s f, part_of (strings.TrimRightFunc s f) s.
Proof.
  intros s f. unfold strings.TrimRightFunc.
  destruct (strings.lastIndexFunc_loop _ _ _ _) as [i | ];
    [ | apply part_of_nil ].
  destruct (_ <=? _).
  - destruct (utf8.DecodeRuneInString (skipn i s)) as [r wid].
    apply part_of_firstn.
  - apply part_of_firstn.
Qed.

Lemma TrimSpace_stop_part_of :
  forall r, part_of (strings.TrimSpace_stop r) (rev r).
Proof.
  induction r as [ | c t IH]; [ apply part_of_nil | ].
  cbn [strings.TrimSpace_stop].
  destruct (_ <=? _); [ apply TrimRightFunc_part_of | ].
  destruct (strings.asciiSpace c); [ | apply part_of_refl ].
  cbn [rev]. apply part_of_snoc, IH.
Qed.

(** [strings.TrimSpace] returns a contiguous part of its argument. *)
Lemma TrimSpace_part_of : forall s, part_of (strings.TrimSpace s) s.
Proof.
  induction s as [ | c t IH]; [ apply part_of_nil | ].
  cbn [strings.TrimSpace].
  destruct (_ <=? _).
  - unfold strings.TrimFunc.
    apply (part_of_trans _ (strings.TrimLeftFunc (c :: t) unicode.IsSpace));
      [ apply TrimRightFunc_part_of | apply TrimLeftFunc_loop_part_of ].
  - destruct (strings.asciiSpace c); [ apply part_of_cons, IH | ].
    rewrite <- (rev_involutive (c :: t)) at 2. apply TrimSpace_stop_part_of.
Qed.

(** ** The steps never lengthen a name *)

Lemma ReplaceAll_plus_from_length :
  forall cls s inrun x,
    (length (regexp.ReplaceAll_plus_from inrun cls s [x]) <= length s)%nat.
Proof.
  intros cls. induction s as [ | c t IH]; intros inrun x; [ cbn; lia | ].
  cbn [regexp.ReplaceAll_plus_from].
  destruct (cls c); [ destruct inrun | ]; cbn [app length];
    match goal with
    | |- context [regexp.ReplaceAll_plus_from ?b cls t [x]] =>
      specialize (IH b x); lia
    end.
Qed.

Lemma ReplaceAll_plus_from_forallb :
  forall (f cls : byte -> bool) s inrun x,
    f x = true -> forallb f s = true ->
    forallb f (regexp.ReplaceAll_plus_from inrun cls s [x]) = true.
Proof.
  intros f cls s. induction s as [ | c t IH]; intros inrun x Hx Hs;
    [ reflexivity | ].
  cbn [forallb] in Hs. apply andb_true_iff in Hs as [Hc Ht].
  cbn [regexp.ReplaceAll_plus_from].
  destruct (cls c); [ destruct inrun | ]; cbn [app forallb];
    rewrite ?Hx, ?Hc, IH by assumption; reflexivity.
Qed.

Lemma ReplaceAll_class_forallb :
  forall (f cls : byte -> bool) s x,
    f x = true -> forallb f s = true ->
    forallb f (regexp.ReplaceAll_class cls s [x]) = true.
Proof.
  intros f cls s x Hx Hs. rewrite ReplaceAll_class_map.
  induction s as [ | c t IH]; [ reflexivity | ].
  cbn [forallb map] in *. apply andb_true_iff in Hs as [Hc Ht].
  rewrite (IH Ht). destruct (cls c); rewrite ?Hx, ?Hc; reflexivity.
Qed.

(** The five steps before the limit never lengthen the name. *)
Lemma clean_steps_length :
  forall name, (length (clean_steps name) <= length name)%nat.
Proof.
  intros name. unfold clean_steps.
  pose proof (part_of_length _ _ (Trim_part_of name quoteCutset)) as H1.
  pose proof (part_of_length _ _
                (TrimSpace_part_of (strings.Trim name quoteCutset))) as H2.
  set (x2 := strings.TrimSpace (strings.Trim name quoteCutset)) in *.
  pose proof (part_of_length _ _
                (Trim_part_of
                   (regexp.ReplaceAll_plus multiSpace
                      (regexp.ReplaceAll_class invalidChars x2 (lit "_"))
                      (lit "_")) (lit "_"))) as H5.
  pose proof (ReplaceAll_plus_from_length multiSpace
                (regexp.ReplaceAll_class invalidChars x2 (lit "_"))
                false "_"%char) as H4.
  assert (H3 : length (regexp.ReplaceAll_class invalidChars x2 (lit "_"))
               = length x2).
  { change (lit "_") with ["_"%char].
    rewrite ReplaceAll_class_map. apply length_map. }
  unfold regexp.ReplaceAll_plus in *. change (lit "_") with ["_"%char] in *.
  lia.
Qed.

(** They keep every property of bytes that the underscore has. *)
Lemma clean_steps_forallb :
  forall (f : byte -> bool) name,
    f "_"%char = true -> forallb f name = true ->
    forallb f (clean_steps name) = true.
Proof.
  intros f name Hu Hname. unfold clean_steps.
  apply (part_of_forallb f _ _ (Trim_part_of _ _)).
  unfold regexp.ReplaceAll_plus. change (lit "_") with ["_"%char].
  apply ReplaceAll_plus_from_forallb; [ exact Hu | ].
  apply ReplaceAll_class_forallb; [ exact Hu | ].
  apply (part_of_forallb f _ _ (TrimSpace_part_of _)).
  apply (part_of_forallb f _ _ (Trim_part_of _ _)). exact Hname.
Qed.

(** ** Counting code points *)

Lemma decode_loop_length :
  forall fuel s, (length (utf8.decode_loop fuel s) <= length s)%nat.
Proof.
  induction fuel as [ | fuel IH]; intros s; [ cbn; lia | ].
  destruct s as [ | c t]; [ cbn; lia | ].
  cbn [utf8.decode_loop].
  pose proof (Decode_size c t) as Hsize.
  destruct (utf8.DecodeRuneInString (c :: t)) as [r n]. cbn [snd] in Hsize.
  cbn [length]. specialize (IH (skipn n (c :: t))).
  rewrite length_skipn in IH. cbn [length] in *. lia.
Qed.

(** A string has at most as many code points as bytes. *)
Lemma RuneCount_le_length : forall s, (RuneCount s <= length s)%nat.
Proof. intros s. apply decode_loop_length. Qed.

Lemma decode_loop_ascii :
  forall fuel s,
    (length s <= fuel)%nat -> ascii_only s = true ->
    utf8.decode_loop fuel s = map byteval s.
Proof.
  induction fuel as [ | fuel IH]; intros s Hfuel Hs.
  - destruct s; [ reflexivity | cbn in Hfuel; lia ].
  - destruct s as [ | c t]; [ reflexivity | ].
    cbn [ascii_only forallb] in Hs. apply andb_true_iff in Hs as [Hc Ht].
    apply Z.ltb_lt in Hc.
    cbn [utf8.decode_loop]. rewrite Decode_ascii by exact Hc.
    cbn [skipn map]. f_equal. apply IH; [ cbn in Hfuel; lia | exact Ht ].
Qed.

Lemma string_of_runes_ascii :
  forall s, ascii_only s = true -> utf8.string_of_runes (map byteval s) = s.
Proof.
  induction s as [ | c t IH]; intros Hs; [ reflexivity | ].
  cbn [ascii_only forallb] in Hs. apply andb_true_iff in Hs as [Hc Ht].
  apply Z.ltb_lt in Hc. pose proof (byteval_range c) as Hr.
  unfold utf8.string_of_runes in *. cbn [map flat_map].
  rewrite (IH Ht).
  destruct (encoderune_cases (byteval c)) as [[_ ->] | [[H _] | [[H _] | [H _]]]];
    try lia; [ unfold valid_rune; lia | ].
  rewrite byte_of_byteval. reflexivity.
Qed.

Lemma ascii_only_firstn :
  forall n s, ascii_only s = true -> ascii_only (firstn n s) = true.
Proof.
  intros n s. apply part_of_forallb, part_of_firstn.
Qed.

(** On ASCII names the limit cuts at [max] bytes, on every platform. *)
Lemma limit_length_ascii :
  forall p max name,
    ascii_only name = true ->
    limit_length p max name = Returned (firstn max name).
Proof.
  intros p max name Hascii.
  destruct (Nat.le_gt_cases (length name) max) as [Hle | Hgt].
  - rewrite firstn_all2 by exact Hle. apply limit_length_short. exact Hle.
  - rewrite limit_length_long by exact Hgt. cbv zeta.
    unfold utf8.runes_of_string.
    rewrite decode_loop_ascii by (lia || exact Hascii).
    rewrite length_map.
    destruct (Nat.leb_spec max (length name + spare_runes p (length name)));
      [ | lia ].
    rewrite firstn_app, length_map.
    replace (max - length name)%nat with 0%nat by lia.
    rewrite firstn_O, app_nil_r, firstn_map.
    rewrite string_of_runes_ascii by (apply ascii_only_firstn, Hascii).
    reflexivity.
Qed.

(** Whatever the limit returns has at most [max] code points. *)
Lemma limit_length_RuneCount :
  forall p max name out,
    limit_length p max name = Returned out -> (RuneCount out <= max)%nat.
Proof.
  intros p max name out Hrun.
  destruct (Nat.le_gt_cases (length name) max) as [Hle | Hgt].
  { rewrite limit_length_short in Hrun by exact Hle.
    inversion Hrun; subst. pose proof (RuneCount_le_length out). lia. }
  rewrite limit_length_long in Hrun by exact Hgt. cbv zeta in Hrun.
  destruct (_ <=? _)%nat; [ | discriminate Hrun ].
  inversion Hrun; subst out. unfold RuneCount.
  rewrite runes_of_string_of_runes.
  - rewrite length_firstn. lia.
  - apply Forall_forall. intros r Hin.
    apply In_firstn, in_app_or in Hin. destruct Hin as [Hin | Hin].
    + pose proof (decode_loop_valid (length name) name) as Hall.
      rewrite Forall_forall in Hall. apply Hall. exact Hin.
    + apply repeat_spec in Hin. subst r. unfold valid_rune. lia.
Qed.

(** ** More on the sanitizer *)

(** X1. A candidate of at most 50 bytes never makes [cleanFileName]
    panic: the result is the outcome of the five steps, and it is not
    longer than the candidate; the same holds for [cleanFolderName] and
    30 bytes. *)
Theorem short_candidate_sanitized :
  forall p name,
    (length name <= 50)%nat ->
    cleanFileName p name = Returned (clean_steps name)
    /\ (length (clean_steps name) <= length name)%nat
    /\ ((length name <= 30)%nat ->
        cleanFolderName p name = Returned (clean_steps name)).
Proof.
  intros p name Hlen. pose proof (clean_steps_length name) as Hsteps.
  split; [ | split; [ exact Hsteps | intros Hlen' ] ].
  - rewrite cleanFileName_shape. apply limit_length_short. lia.
  - rewrite cleanFolderName_shape. apply limit_length_short. lia.
Qed.

Lemma short_candidate_sanitized_witness :
  (length (lit "  My/File:Name??  ") <= 50)%nat
  /\ cleanFileName unix_buf32 (lit "  My/File:Name??  ")
     = Returned (clean_steps (lit "  My/File:Name??  ")).
Proof.
  assert (Hlen : (length (lit "  My/File:Name??  ") <= 50)%nat)
    by (vm_compute; lia).
  split; [ exact Hlen | ].
  exact (proj1 (short_candidate_sanitized unix_buf32 _ Hlen)).
Defined.

(** X2. On a candidate made of ASCII bytes the sanitizers never panic,
    on any platform: [cleanFileName] returns the first 50 bytes of the
    outcome of the five steps, [cleanFolderName] the first 30. *)
Theorem ascii_candidate_cut_at_bytes :
  forall p name,
    ascii_only name = true ->
    cleanFileName p name = Returned (firstn 50 (clean_steps name))
    /\ cleanFolderName p name = Returned (firstn 30 (clean_steps name)).
Proof.
  intros p name Hascii.
  assert (Hsteps : ascii_only (clean_steps name) = true).
  { apply clean_steps_forallb; [ reflexivity | exact Hascii ]. }
  rewrite cleanFileName_shape, cleanFolderName_shape.
  split; apply limit_length_ascii; exact Hsteps.
Qed.

Lemma ascii_candidate_cut_at_bytes_witness :
  let name := lit "Quarterly financial report for the board - final revised draft (3).pdf" in
  ascii_only name = true
  /\ cleanFileName unix_tight name
     = Returned (lit "Quarterly_financial_report_for_the_board_-_final_r")
  /\ cleanFolderName unix_tight name
     = Returned (lit "Quarterly_financial_report_for").
Proof.
  intros name.
  assert (Hascii : ascii_only name = true) by reflexivity.
  split; [ exact Hascii | ].
  exact (ascii_candidate_cut_at_bytes unix_tight name Hascii).
Defined.

(** X3. No name a sanitizer returns has more than 50 code points
    ([cleanFileName]) or 30 code points ([cleanFolderName]). *)
Theorem sanitized_name_code_points :
  forall p name out,
    (cleanFileName p name = Returned out -> (RuneCount out <= 50)%nat)
    /\ (cleanFolderName p name = Returned out -> (RuneCount out <= 30)%nat).
Proof.
  intros p name out. rewrite cleanFileName_shape, cleanFolderName_shape.
  split; apply limit_length_RuneCount.
Qed.

Lemma sanitized_name_code_points_witness :
  cleanFileName unix_tight (lit "  My/File:Name??  ")
  = Returned (lit "My_File_Name")
  /\ (RuneCount (lit "My_File_Name") <= 50)%nat.
Proof.
  assert (Hrun : cleanFileName unix_tight (lit "  My/File:Name??  ")
                 = Returned (lit "My_File_Name")) by reflexivity.
  split; [ exact Hrun | ].
  exact (proj1 (sanitized_name_code_points unix_tight _ _) Hrun).
Defined.

(** X4. When the outcome of the five steps has at least 50 code points,
    [cleanFileName] returns on every platform, and what it returns
    decodes to exactly the first 50 of them: the cut falls between code
    points.  The same holds for [cleanFolderName] and 30. *)
Theorem long_name_cut_at_code_points :
  forall p name,
    ((50 <= RuneCount (clean_steps name))%nat ->
     exists out,
       cleanFileName p name = Returned out
       /\ utf8.runes_of_string out
          = firstn 50 (utf8.runes_of_string (clean_steps name)))
    /\ ((30 <= RuneCount (clean_steps name))%nat ->
        exists out,
          cleanFolderName p name = Returned out
          /\ utf8.runes_of_string out
             = firstn 30 (utf8.runes_of_string (clean_steps name))).
Proof.
  intros p name. rewrite cleanFileName_shape, cleanFolderName_shape.
  assert (Hcut : forall max,
             (max <= RuneCount (clean_steps name))%nat ->
             exists out,
               limit_length p max (clean_steps name) = Returned out
               /\ utf8.runes_of_string out
                  = firstn max (utf8.runes_of_string (clean_steps name))).
  { intros max Hrunes. unfold RuneCount in Hrunes.
    pose proof (RuneCount_le_length (clean_steps name)) as Hbytes.
    unfold RuneCount in Hbytes.
    destruct (Nat.le_gt_cases (length (clean_steps name)) max) as [Hle | Hgt].
    - exists (clean_steps name). split; [ apply limit_length_short, Hle | ].
      rewrite firstn_all2 by lia. reflexivity.
    - destruct (limit_length_cuts_code_points p max _ Hgt Hrunes) as [Hrun Hdec].
      eexists. split; [ exact Hrun | exact Hdec ]. }
  split; apply Hcut.
Qed.

Lemma long_name_cut_at_code_points_witness :
  let name := lit "二零二四年度第三季度财务报告及下一年度预算编制说明会议纪要最终修订版本第三稿供董事会全体成员审阅使用请勿外传谢谢配合" in
  (50 <= RuneCount (clean_steps name))%nat
  /\ exists out,
       cleanFileName unix_tight name = Returned out
       /\ utf8.runes_of_string out
          = firstn 50 (utf8.runes_of_string (clean_steps name)).
Proof.
  intros name.
  assert (Hlong : (50 <= RuneCount (clean_steps name))%nat)
    by (vm_compute; lia).
  split; [ exact Hlong | ].
  exact (proj1 (long_name_cut_at_code_points unix_tight name) Hlong).
Defined.

(** X5. A name that is already clean passes unchanged: without reserved
    character, white space of [\s] or two underscores in a row, with
    nothing to strip at its ends, and within the limit, it is what the
    sanitizer returns. *)
Theorem clean_name_unchanged :
  forall p name,
    tidy name = true ->
    bare_edges name = true ->
    ((length name <= 50)%nat -> cleanFileName p name = Returned name)
    /\ ((length name <= 30)%nat -> cleanFolderName p name = Returned name).
Proof.
  intros p name Htidy Hedges.
  rewrite cleanFileName_shape, cleanFolderName_shape.
  rewrite (clean_steps_id name Htidy Hedges).
  split; apply limit_length_short.
Qed.

Lemma clean_name_unchanged_witness :
  tidy (lit "会议纪要_2024-Q3.v2") = true
  /\ bare_edges (lit "会议纪要_2024-Q3.v2") = true
  /\ cleanFileName unix_tight (lit "会议纪要_2024-Q3.v2")
     = Returned (lit "会议纪要_2024-Q3.v2")
  /\ cleanFolderName unix_tight (lit "会议纪要_2024-Q3.v2")
     = Returned (lit "会议纪要_2024-Q3.v2").
Proof.
  assert (Htidy : tidy (lit "会议纪要_2024-Q3.v2") = true) by reflexivity.
  assert (Hedges : bare_edges (lit "会议纪要_2024-Q3.v2") = true) by reflexivity.
  destruct (clean_name_unchanged unix_tight _ Htidy Hedges) as [Hfile Hfolder].
  split; [ exact Htidy | ]. split; [ exact Hedges | ].
  split; [ apply Hfile | apply Hfolder ]; vm_compute; lia.
Defined.

Lemma ReplaceAll_plus_from_all :
  forall cls s repl,
    forallb cls s = true ->
    regexp.ReplaceAll_plus_from true cls s repl = []
    /\ regexp.ReplaceAll_plus_from false cls s repl
       = match s with [] => [] | _ :: _ => repl end.
Proof.
  intros cls s repl. induction s as [ | c t IH]; intros Hs;
    [ split; reflexivity | ].
  cbn [forallb] in Hs. apply andb_true_iff in Hs as [Hc Ht].
  destruct (IH Ht) as [IH1 _].
  cbn [regexp.ReplaceAll_plus_from]. rewrite Hc, IH1, app_nil_r.
  split; reflexivity.
Qed.

(** The five steps empty a name made of filler bytes. *)
Lemma clean_steps_filler :
  forall name, forallb filler name = true -> clean_steps name = [].
Proof.
  intros name Hname. unfold clean_steps.
  set (x2 := strings.TrimSpace (strings.Trim name quoteCutset)).
  assert (H2 : forallb filler x2 = true).
  { subst x2. apply (part_of_forallb filler _ _ (TrimSpace_part_of _)).
    apply (part_of_forallb filler _ _ (Trim_part_of _ _)). exact Hname. }
  set (x3 := regexp.ReplaceAll_class invalidChars x2 (lit "_")).
  assert (H3 : forallb multiSpace x3 = true).
  { subst x3. change (lit "_") with ["_"%char]. rewrite ReplaceAll_class_map.
    clear -H2. induction x2 as [ | c t IH]; [ reflexivity | ].
    cbn [forallb map] in *. apply andb_true_iff in H2 as [Hc Ht].
    rewrite (IH Ht), andb_true_r. unfold filler in Hc.
    destruct (invalidChars c); [ reflexivity | exact Hc ]. }
  unfold regexp.ReplaceAll_plus.
  rewrite (proj2 (ReplaceAll_plus_from_all multiSpace x3 (lit "_") H3)).
  destruct x3; reflexivity.
Qed.

(** X6. A proposal made only of reserved characters, white space of
    [\s] and underscores is discarded: the sanitizers return the empty
    name, and the generators fall back to the original (or default) name
    with a nil error. *)
Theorem filler_candidate_falls_back :
  forall p env s messageText name candidate,
    forallb filler candidate = true ->
    cleanFileName p candidate = Returned []
    /\ cleanFolderName p candidate = Returned []
    /\ (config.Enable (config s) = true -> messageText <> [] ->
        fst (callAI env s
               (buildPrompt env s messageText
                  (strings.TrimSuffix name (filepath.Ext p name))))
        = inl candidate ->
        fst (GenerateFileName p env s messageText name)
        = Returned (name, None))
    /\ (config.Enable (config s) = true -> messageText <> [] ->
        fst (callAI env s (buildFolderPrompt env s messageText name))
        = inl candidate ->
        fst (GenerateFolderName p env s messageText name)
        = Returned (name, None)).
Proof.
  intros p env s messageText name candidate Hfill.
  assert (Hfile : cleanFileName p candidate = Returned []).
  { rewrite cleanFileName_shape, (clean_steps_filler _ Hfill). reflexivity. }
  assert (Hfolder : cleanFolderName p candidate = Returned []).
  { rewrite cleanFolderName_shape, (clean_steps_filler _ Hfill). reflexivity. }
  repeat apply conj; [ exact Hfile | exact Hfolder | | ].
  - intros Hon Htext Hcall.
    rewrite (GenerateFileName_after_call _ _ _ _ _ candidate Hon Htext Hcall).
    rewrite Hfile. reflexivity.
  - intros Hon Htext Hcall.
    rewrite (GenerateFolderName_after_call _ _ _ _ _ candidate Hon Htext Hcall).
    rewrite Hfolder. reflexivity.
Qed.

Lemma filler_candidate_falls_back_witness :
  forallb filler (lit "?? / **") = true
  /\ fst (GenerateFileName unix_tight (env_answer 200 (one_choice (lit "?? / **")))
            (sample_service true) (lit "quarterly report") (lit "notes.txt"))
     = Returned (lit "notes.txt", None).
Proof.
  assert (Hfill : forallb filler (lit "?? / **") = true) by reflexivity.
  split; [ exact Hfill | ].
  refine (proj1 (proj2 (proj2 (filler_candidate_falls_back unix_tight
                                 (env_answer 200 (one_choice (lit "?? / **")))
                                 (sample_service true) (lit "quarterly report")
                                 (lit "notes.txt") (lit "?? / **") Hfill)))
            _ _ _).
  - reflexivity.
  - discriminate.
  - reflexivity.
Defined.

(** X7. Every name [GenerateFolderName] returns is the default name, or
    a non-empty name of at most 30 code points without reserved
    character and without white space of [\s]. *)
Theorem folder_name_default_or_clean :
  forall p env s messageText defaultName newName err,
    fst (GenerateFolderName p env s messageText defaultName)
    = Returned (newName, err) ->
    newName = defaultName
    \/ (err = None /\ newName <> []
        /\ (RuneCount newName <= 30)%nat
        /\ forall c, In c newName ->
                     invalidChars c = false /\ perl_space c = false).
Proof.
  intros p env s messageText defaultName newName err.
  unfold GenerateFolderName.
  destruct (config.Enable (config s)); cbn [negb];
    [ | intros H; inversion H; left; reflexivity ].
  destruct (is_empty messageText);
    [ intros H; inversion H; left; reflexivity | ].
  destruct (callAI env s _) as [[candidate | e] effects]; cbn [fst];
    [ | intros H; inversion H; left; reflexivity ].
  destruct (cleanFolderName p candidate) as [cleanName | ] eqn:Hclean;
    [ | discriminate ].
  destruct cleanName as [ | c0 cs]; cbn [is_empty fst];
    [ intros H; inversion H; left; reflexivity | ].
  intros H. inversion H; subst. right.
  split; [ reflexivity | ]. split; [ discriminate | ].
  rewrite cleanFolderName_shape in Hclean.
  split; [ apply (limit_length_RuneCount _ _ _ _ Hclean) | ].
  intros c Hin.
  pose proof (limit_length_tidy _ _ _ _ Hclean (clean_steps_tidy candidate))
    as Htidy.
  pose proof (tidy_from_plain _ _ _ Htidy Hin) as Hp.
  unfold plain in Hp. apply andb_true_iff in Hp as [Hi Hs].
  apply negb_true_iff in Hi, Hs. split; assumption.
Qed.

Lemma folder_name_default_or_clean_witness :
  lit "Trip_to_Kyoto" <> []
  /\ (RuneCount (lit "Trip_to_Kyoto") <= 30)%nat.
Proof.
  destruct (folder_name_default_or_clean unix_tight
              (env_answer 200 (one_choice (lit "Trip to: Kyoto")))
              (sample_service true) (lit "photos from the trip")
              (lit "album_42") (lit "Trip_to_Kyoto") None eq_refl)
    as [Heq | (_ & Hne & Hcount & _)].
  - discriminate Heq.
  - split; assumption.
Defined.

(** ** Base name and extension *)

Lemma Ext_loop_suffix :
  forall p todo seen,
    exists pre, rev todo ++ seen = pre ++ filepath.Ext_loop p todo seen.
Proof.
  intros p. induction todo as [ | c r IH]; intros seen.
  - exists seen. cbn. rewrite app_nil_r. reflexivity.
  - cbn [filepath.Ext_loop rev]. rewrite <- app_assoc. cbn [app].
    destruct (IsPathSeparator p c).
    + exists (rev r ++ c :: seen). rewrite app_nil_r. reflexivity.
    + destruct (Ascii.eqb c ".").
      * exists (rev r). reflexivity.
      * apply IH.
Qed.

(** [filepath.Ext] returns an end of the path. *)
Lemma Ext_suffix :
  forall p path, exists pre, path = pre ++ filepath.Ext p path.
Proof.
  intros p path. unfold filepath.Ext.
  destruct (Ext_loop_suffix p (rev path) []) as [pre Hpre].
  rewrite rev_involutive, app_nil_r in Hpre. exists pre. exact Hpre.
Qed.

Lemma Ext_loop_shape :
  forall p todo seen,
    forallb (fun c => negb (IsPathSeparator p c)) seen = true ->
    ~ In "."%char seen ->
    let ext := filepath.Ext_loop p todo seen in
    forallb (fun c => negb (IsPathSeparator p c)) ext = true
    /\ (ext = [] \/ exists rest, ext = "."%char :: rest /\ ~ In "."%char rest).
Proof.
  intros p. induction todo as [ | c r IH]; intros seen Hsep Hdot; cbv zeta.
  - split; [ reflexivity | left; reflexivity ].
  - cbn [filepath.Ext_loop].
    destruct (IsPathSeparator p c) eqn:Hc;
      [ split; [ reflexivity | left; reflexivity ] | ].
    destruct (Ascii.eqb_spec c ".") as [-> | Hne].
    + split; [ cbn [forallb]; rewrite Hc, Hsep; reflexivity | ].
      right. exists seen. split; [ reflexivity | exact Hdot ].
    + apply IH.
      * cbn [forallb]. rewrite Hc, Hsep. reflexivity.
      * intros [Heq | Hin]; [ apply Hne; exact Heq | exact (Hdot Hin) ].
Qed.

(** X8. The split of the original name done by [GenerateFileName]: the
    base name handed to the prompt followed by the extension is the
    original name; the extension has no path separator, and is empty or
    a dot followed by bytes other than a dot. *)
Theorem base_name_and_extension :
  forall p name,
    let ext := filepath.Ext p name in
    let baseName := strings.TrimSuffix name ext in
    baseName ++ ext = name
    /\ forallb (fun c => negb (IsPathSeparator p c)) ext = true
    /\ (ext = [] \/ exists rest, ext = "."%char :: rest /\ ~ In "."%char rest).
Proof.
  intros p name ext baseName. split.
  - subst baseName. unfold strings.TrimSuffix.
    destruct (Ext_suffix p name) as [pre Hpre]. fold ext in Hpre.
    assert (Hsuf : strings.HasSuffix name ext = true)
      by (apply HasSuffix_spec; exists pre; exact Hpre).
    rewrite Hsuf. clearbody ext. subst name. rewrite length_app.
    replace (length pre + length ext - length ext)%nat
      with (length pre + 0)%nat by lia.
    rewrite firstn_app_2, firstn_O, app_nil_r. reflexivity.
  - subst ext. unfold filepath.Ext.
    apply (Ext_loop_shape p (rev name) []); [ reflexivity | intros [] ].
Qed.

(** X9. The extension is preserved on every path: whatever name
    [GenerateFileName] returns, with or without an error, ends with the
    extension of the original name. *)
Theorem returned_name_keeps_extension :
  forall p env s messageText name newName err,
    fst (GenerateFileName p env s messageText name) = Returned (newName, err) ->
    exists pre, newName = pre ++ filepath.Ext p name.
Proof.
  intros p env s messageText name newName err.
  unfold GenerateFileName.
  destruct (config.Enable (config s)); cbn [negb];
    [ | intros H; inversion H; subst; apply Ext_suffix ].
  destruct (is_empty messageText);
    [ intros H; inversion H; subst; apply Ext_suffix | ].
  destruct (callAI env s _) as [[candidate | e] effects]; cbn [fst];
    [ | intros H; inversion H; subst; apply Ext_suffix ].
  destruct (cleanFileName p candidate) as [cleanName | ]; [ | discriminate ].
  destruct (is_empty cleanName); cbn [fst];
    [ intros H; inversion H; subst; apply Ext_suffix | ].
  destruct (strings.HasSuffix cleanName (filepath.Ext p name)) eqn:Hsuf;
    cbn [negb]; intros H; inversion H; subst.
  - apply HasSuffix_spec. exact Hsuf.
  - exists cleanName. reflexivity.
Qed.

Lemma returned_name_keeps_extension_witness :
  exists pre, lit "Budget_2024.xlsx" = pre ++ lit ".xlsx".
Proof.
  exact (returned_name_keeps_extension unix_tight
           (env_answer 200 (one_choice (lit "Budget 2024.xlsx")))
           (sample_service true) (lit "the budget") (lit "sheet1.xlsx")
           (lit "Budget_2024.xlsx") None eq_refl).
Defined.

(** ** Effects of a call *)

Lemma callAI_effects_shape :
  forall env s prompt,
    snd (callAI env s prompt) = []
    \/ exists r,
         snd (callAI env s prompt) = [NetDo (client s) r]
         \/ snd (callAI env s prompt) = [NetDo (client s) r; BodyClose].
Proof.
  intros env s prompt. unfold callAI.
  destruct (json_Marshal env _) as [reqBody | e]; [ | left; reflexivity ].
  destruct (NewRequest_check env _ _); [ left; reflexivity | ].
  right. eexists.
  destruct (client_Do env _ _) as [resp | e]; [ right | left; reflexivity ].
  destruct (http.ReadAll resp) as [body | e]; [ | reflexivity ].
  destruct (negb _); [ reflexivity | ].
  destruct (json_Unmarshal env body) as [chatResp | e]; [ | reflexivity ].
  destruct (Error chatResp); [ reflexivity | ].
  destruct (Choices chatResp); reflexivity.
Qed.

(** X10. What [callAI] does to the outside, by outcome.  An error
    raised while the request is built sends nothing.  A transport error
    follows exactly one request.  On every other path, success or error,
    exactly one request was sent and the response body was closed
    once.  There is no second request. *)
Theorem callAI_one_request :
  forall env s prompt,
    match fst (callAI env s prompt) with
    | inr (ErrMarshalRequest _) | inr (ErrCreateRequest _) =>
      snd (callAI env s prompt) = []
    | inr (ErrSendRequest _) =>
      exists r, snd (callAI env s prompt) = [NetDo (client s) r]
    | _ =>
      exists r, snd (callAI env s prompt) = [NetDo (client s) r; BodyClose]
    end.
Proof.
  intros env s prompt. unfold callAI.
  destruct (json_Marshal env _) as [reqBody | e]; [ | reflexivity ].
  destruct (NewRequest_check env _ _); [ reflexivity | ].
  destruct (client_Do env _ _) as [resp | e];
    [ | eexists; reflexivity ].
  destruct (http.ReadAll resp) as [body | e]; [ | eexists; reflexivity ].
  destruct (negb _); [ eexists; reflexivity | ].
  destruct (json_Unmarshal env body) as [chatResp | e];
    [ | eexists; reflexivity ].
  destruct (Error chatResp); [ eexists; reflexivity | ].
  destruct (Choices chatResp); eexists; reflexivity.
Qed.

Lemma count_app :
  forall f a b, count f (a ++ b) = (count f a + count f b)%nat.
Proof.
  intros f a b. unfold count. rewrite filter_app, length_app. reflexivity.
Qed.

Lemma callAI_counts :
  forall env s prompt,
    (count is_request (snd (callAI env s prompt)) <= 1)%nat
    /\ (count is_close (snd (callAI env s prompt))
        <= count is_request (snd (callAI env s prompt)))%nat
    /\ count is_log (snd (callAI env s prompt)) = 0%nat.
Proof.
  intros env s prompt.
  destruct (callAI_effects_shape env s prompt) as [-> | [r [-> | ->]]];
    cbn; lia.
Qed.

(** X11. A call of a generator sends at most one request, closes at
    most what it opened, and writes at most one log record; when it
    returns a non-nil error, that error is what it logged last. *)
Theorem generator_effects :
  forall p env s messageText name,
    let file := GenerateFileName p env s messageText name in
    let folder := GenerateFolderName p env s messageText name in
    ((count is_request (snd file) <= 1)%nat
     /\ (count is_close (snd file) <= count is_request (snd file))%nat
     /\ (count is_log (snd file) <= 1)%nat
     /\ forall newName e,
          fst file = Returned (newName, Some e) ->
          exists before format, snd file = before ++ [LogErrorf format e])
    /\ ((count is_request (snd folder) <= 1)%nat
        /\ (count is_close (snd folder) <= count is_request (snd folder))%nat
        /\ (count is_log (snd folder) <= 1)%nat
        /\ forall newName e,
             fst folder = Returned (newName, Some e) ->
             exists before format, snd folder = before ++ [LogErrorf format e]).
Proof.
  intros p env s messageText name file folder. subst file folder.
  unfold GenerateFileName, GenerateFolderName.
  destruct (config.Enable (config s)); cbn [negb];
    [ | split; (repeat split; try (cbn; lia); intros ? ? H; discriminate H) ].
  destruct (is_empty messageText);
    [ split; (repeat split; try (cbn; lia); intros ? ? H; discriminate H) | ].
  split.
  - set (prompt := buildPrompt env s messageText _).
    pose proof (callAI_counts env s prompt) as (Hreq & Hclose & Hlog).
    destruct (callAI env s prompt) as [[candidate | err] effects];
      cbn [fst snd] in *.
    + destruct (cleanFileName p candidate) as [cleanName | ];
        [ destruct (is_empty cleanName) | ];
        cbn [fst snd]; rewrite ?count_app;
        (repeat split; try (cbn; lia); intros ? ? H; discriminate H).
    + rewrite !count_app. repeat split; try (cbn; lia).
      intros newName e H. inversion H; subst. eexists; eexists; reflexivity.
  - set (prompt := buildFolderPrompt env s messageText name).
    pose proof (callAI_counts env s prompt) as (Hreq & Hclose & Hlog).
    destruct (callAI env s prompt) as [[candidate | err] effects];
      cbn [fst snd] in *.
    + destruct (cleanFolderName p candidate) as [cleanName | ];
        [ destruct (is_empty cleanName) | ];
        cbn [fst snd]; rewrite ?count_app;
        (repeat split; try (cbn; lia); intros ? ? H; discriminate H).
    + rewrite !count_app. repeat split; try (cbn; lia).
      intros newName e H. inversion H; subst. eexists; eexists; reflexivity.
Qed.

Lemma callAI_request :
  forall env s prompt c r,
    request_sent (snd (callAI env s prompt)) = Some (c, r) ->
    c = client s
    /\ http.Method r = lit "POST"
    /\ http.URL r = config.Endpoint (config s)
    /\ http.Header r
       = [(lit "Content-Type", lit "application/json");
          (lit "Authorization", lit "Bearer " ++ config.APIKey (config s))]
    /\ json_Marshal env (chat_request s prompt) = inl (http.Body r).
Proof.
  intros env s prompt c r. unfold callAI. fold (chat_request s prompt).
  destruct (json_Marshal env (chat_request s prompt)) as [reqBody | e];
    [ | discriminate ].
  destruct (NewRequest_check env _ _); [ discriminate | ].
  match goal with
  | |- context [client_Do env (client s) ?q] => set (req := q)
  end.
  match goal with
  | |- request_sent (snd ?t) = _ -> _ =>
    assert (Hshape : exists rest, snd t = NetDo (client s) req :: rest)
  end.
  { destruct (client_Do env (client s) req) as [resp | e];
      [ | eexists; reflexivity ].
    destruct (http.ReadAll resp) as [body | e]; [ | eexists; reflexivity ].
    destruct (negb _); [ eexists; reflexivity | ].
    destruct (json_Unmarshal env body) as [chatResp | e];
      [ | eexists; reflexivity ].
    destruct (Error chatResp); [ eexists; reflexivity | ].
    destruct (Choices chatResp); eexists; reflexivity. }
  destruct Hshape as [rest Hshape]. rewrite Hshape.
  cbn [request_sent]. intros H. inversion H; subst c r. subst req.
  repeat split; reflexivity.
Qed.

(** X12. The request a generator hands to the client: a POST to the
    configured endpoint, sent with the client of the service, with the
    two headers Content-Type and Authorization (the API key as bearer
    token) and nothing else, whose body is the encoding of a chat request
    with the configured model, token limit and temperature and one user
    message.  That message is the template (the configured one, or the
    built-in one when none is configured) filled with the message text
    and, for a file, the base name without its extension, for a folder,
    the default name. *)
Theorem generator_request :
  forall p env s messageText name c r,
    let shape prompt :=
      c = client s
      /\ http.Method r = lit "POST"
      /\ http.URL r = config.Endpoint (config s)
      /\ http.Header r
         = [(lit "Content-Type", lit "application/json");
            (lit "Authorization", lit "Bearer " ++ config.APIKey (config s))]
      /\ json_Marshal env (chat_request s prompt) = inl (http.Body r) in
    (request_sent (snd (GenerateFileName p env s messageText name)) = Some (c, r) ->
     shape (Sprintf env (template_of s defaultFilePrompt)
              [messageText;
               strings.TrimSuffix name (filepath.Ext p name)]))
    /\ (request_sent (snd (GenerateFolderName p env s messageText name)) = Some (c, r) ->
        shape (Sprintf env (template_of s defaultFolderPrompt)
                 [messageText; name])).
Proof.
  intros p env s messageText name c r shape. subst shape. cbv beta.
  unfold GenerateFileName, GenerateFolderName.
  destruct (config.Enable (config s)); cbn [negb];
    [ | split; intros H; discriminate H ].
  destruct (is_empty messageText); [ split; intros H; discriminate H | ].
  split.
  - change (buildPrompt env s messageText
              (strings.TrimSuffix name (filepath.Ext p name)))
      with (Sprintf env (template_of s defaultFilePrompt)
              [messageText; strings.TrimSuffix name (filepath.Ext p name)]).
    set (prompt := Sprintf env _ _).
    pose proof (callAI_request env s prompt c r) as Hreq.
    pose proof (request_sent_app env s prompt) as Happ.
    destruct (callAI env s prompt) as [[candidate | err] effects];
      cbn [fst snd] in *.
    + destruct (cleanFileName p candidate) as [cleanName | ];
        [ destruct (is_empty cleanName) | ]; cbn [snd]; intros Hsent;
        apply Hreq; try exact Hsent;
        apply (Happ _ _ Hsent); intros ? ? [H | []]; discriminate H.
    + intros Hsent. apply Hreq.
      apply (Happ _ _ Hsent). intros ? ? [H | []]; discriminate H.
  - change (buildFolderPrompt env s messageText name)
      with (Sprintf env (template_of s defaultFolderPrompt)
              [messageText; name]).
    set (prompt := Sprintf env _ _).
    pose proof (callAI_request env s prompt c r) as Hreq.
    pose proof (request_sent_app env s prompt) as Happ.
    destruct (callAI env s prompt) as [[candidate | err] effects];
      cbn [fst snd] in *.
    + destruct (cleanFolderName p candidate) as [cleanName | ];
        [ destruct (is_empty cleanName) | ]; cbn [snd]; intros Hsent;
        apply Hreq; try exact Hsent;
        apply (Happ _ _ Hsent); intros ? ? [H | []]; discriminate H.
    + intros Hsent. apply Hreq.
      apply (Happ _ _ Hsent). intros ? ? [H | []]; discriminate H.
Qed.

Lemma generator_request_witness :
  let env := env_answer 200 (one_choice (lit "Report")) in
  let s := sample_service true in
  exists c r,
    request_sent (snd (GenerateFileName unix_tight env s (lit "report")
                         (lit "notes.txt"))) = Some (c, r)
    /\ http.Method r = lit "POST"
    /\ http.URL r = lit "https://api.example.com/v1/chat/completions"
    /\ http.Header r
       = [(lit "Content-Type", lit "application/json");
          (lit "Authorization", lit "Bearer sk-test")].
Proof.
  intros env s. eexists. eexists.
  split; [ vm_compute; reflexivity | ].
  match goal with
  | |- http.Method ?r = _ /\ _ =>
    destruct (proj1 (generator_request unix_tight env s (lit "report")
                       (lit "notes.txt") (client s) r) eq_refl)
      as (_ & Hm & Hu & Hh & _)
  end.
  split; [ exact Hm | ]. split; [ exact Hu | exact Hh ].
Defined.

(** ** Runs of the shared instance *)

(** The pointer in [renameService] refers to an allocated service, and
    it is nil only while the guard is not done. *)
Lemma step_keeps_pointer_valid :
  forall st c,
    match renameService st with
    | Some a => (a < length (heap st))%nat
    | None => once_done st = false
    end ->
    match renameService (step st c) with
    | Some a => (a < length (heap (step st c)))%nat
    | None => once_done (step st c) = false
    end.
Proof.
  intros st [ | cfg] Hst; cbn [step].
  - unfold GetRenameService. cbn [snd].
    destruct (once_done st) eqn:Hdone; [ rewrite Hdone; exact Hst | ].
    cbn. rewrite length_app. cbn. lia.
  - cbn. rewrite length_app. cbn. lia.
Qed.

Lemma run_keeps_pointer_valid :
  forall calls st,
    match renameService st with
    | Some a => (a < length (heap st))%nat
    | None => once_done st = false
    end ->
    match renameService (run calls st) with
    | Some a => (a < length (heap (run calls st)))%nat
    | None => once_done (run calls st) = false
    end.
Proof.
  unfold run. induction calls as [ | c calls IH]; intros st Hst;
    [ exact Hst | ].
  cbn [fold_left]. apply IH, step_keeps_pointer_valid, Hst.
Qed.

(** X13. [GetRenameService] never returns nil: after any sequence of
    calls of [GetRenameService] and [InitRenameService] in a fresh
    process, it returns a pointer to an allocated service. *)
Theorem GetRenameService_never_nil :
  forall cfg calls,
    let st := run calls (initial cfg) in
    exists a svc,
      fst (GetRenameService st) = Some a
      /\ deref (snd (GetRenameService st)) (Some a) = Some svc.
Proof.
  intros cfg calls st.
  pose proof (run_keeps_pointer_valid calls (initial cfg) eq_refl) as Hst.
  fold st in Hst. unfold GetRenameService. cbn [fst snd].
  destruct (once_done st) eqn:Hdone.
  - destruct (renameService st) as [a | ]; [ | discriminate Hst ].
    destruct (nth_error (heap st) a) as [svc | ] eqn:Hnth.
    + exists a, svc. split; [ reflexivity | exact Hnth ].
    + apply nth_error_None in Hnth. lia.
  - exists (length (heap st)), (NewRenameService (Cfg_AIRename st)).
    split; [ reflexivity | ].
    cbn. rewrite nth_error_app2, Nat.sub_diag by lia. reflexivity.
Qed.

Lemma step_keeps_objects :
  forall st c q svc,
    deref st q = Some svc -> deref (step st c) q = Some svc.
Proof.
  intros st c [a | ] svc Hq; [ | discriminate Hq ].
  cbn [deref] in *.
  assert (Happ : forall more, nth_error (heap st ++ more) a = Some svc).
  { intros more. rewrite nth_error_app1; [ exact Hq | ].
    apply nth_error_Some. rewrite Hq. discriminate. }
  destruct c as [ | cfg]; cbn [step].
  - unfold GetRenameService. cbn [snd].
    destruct (once_done st); [ exact Hq | apply Happ ].
  - apply Happ.
Qed.

Lemma step_keeps_timeouts :
  forall st c,
    Forall (fun svc => http.Timeout (client svc) = config.Timeout (config svc))
      (heap st) ->
    Forall (fun svc => http.Timeout (client svc) = config.Timeout (config svc))
      (heap (step st c)).
Proof.
  intros st [ | cfg] Hst; cbn [step].
  - unfold GetRenameService. cbn [snd].
    destruct (once_done st); [ exact Hst | ].
    cbn. apply Forall_app. split; [ exact Hst | repeat constructor ].
  - cbn. apply Forall_app. split; [ exact Hst | repeat constructor ].
Qed.

Lemma run_persist :
  forall calls st,
    (forall q svc, deref st q = Some svc -> deref (run calls st) q = Some svc)
    /\ Cfg_AIRename (run calls st) = Cfg_AIRename st
    /\ (Forall (fun svc => http.Timeout (client svc) = config.Timeout (config svc))
          (heap st) ->
        Forall (fun svc => http.Timeout (client svc) = config.Timeout (config svc))
          (heap (run calls st))).
Proof.
  unfold run. induction calls as [ | c calls IH]; intros st;
    [ repeat split; auto | ].
  cbn [fold_left]. destruct (IH (step st c)) as (Hobj & Hcfg & Htime).
  repeat split.
  - intros q svc Hq. apply Hobj, step_keeps_objects, Hq.
  - rewrite Hcfg. destruct c as [ | cfg]; cbn [step]; [ | reflexivity ].
    unfold GetRenameService. cbn [snd]. destruct (once_done st); reflexivity.
  - intros Hst. apply Htime, step_keeps_timeouts, Hst.
Qed.

(** X14. Services are never freed, moved or changed: a pointer that
    refers to a service keeps referring to the same service after any
    further calls; the global configuration record is not written; and
    every service allocated has the time-out of its configuration as
    the time-out of its client. *)
Theorem services_persist :
  forall calls st,
    (forall q svc, deref st q = Some svc -> deref (run calls st) q = Some svc)
    /\ Cfg_AIRename (run calls st) = Cfg_AIRename st
    /\ (Forall (fun svc => http.Timeout (client svc) = config.Timeout (config svc))
          (heap st) ->
        Forall (fun svc => http.Timeout (client svc) = config.Timeout (config svc))
          (heap (run calls st))).
Proof. exact run_persist. Qed.

Lemma run_heap_length :
  forall calls st,
    length (heap (run calls st))
    = (length (heap st) + length (filter (fun c => negb (is_get c)) calls)
       + (if once_done st then 0
          else if existsb is_get calls then 1 else 0))%nat
    /\ once_done (run calls st) = once_done st || existsb is_get calls.
Proof.
  unfold run. induction calls as [ | c calls IH]; intros st.
  - cbn. rewrite orb_false_r. split; [ destruct (once_done st); lia | reflexivity ].
  - cbn [fold_left]. destruct (IH (step st c)) as [Hlen Hdone].
    rewrite Hlen, Hdone. clear IH Hlen Hdone.
    destruct c as [ | cfg]; cbn [step filter existsb is_get negb orb length].
    + unfold GetRenameService, assign_new. cbn [snd].
      destruct (once_done st) eqn:Hd; cbn [once_done heap orb].
      * rewrite Hd. split; [ lia | reflexivity ].
      * rewrite length_app. cbn [length]. split; [ lia | reflexivity ].
    + unfold InitRenameService, assign_new. cbn [once_done heap].
      rewrite length_app. cbn [length].
      split; [ | reflexivity ].
      destruct (once_done st); [ lia | ].
      destruct (existsb is_get calls); lia.
Qed.

(** X15. The guarded constructor runs at most once.  After any sequence
    of calls in a fresh process there is one service per call of
    [InitRenameService], plus one, built from the global configuration,
    if [GetRenameService] was called at all; and the guard is done
    exactly when [GetRenameService] was called. *)
Theorem lazy_constructor_runs_once :
  forall cfg calls,
    let st := run calls (initial cfg) in
    length (heap st)
    = (length (filter (fun c => negb (is_get c)) calls)
       + (if existsb is_get calls then 1 else 0))%nat
    /\ once_done st = existsb is_get calls
    /\ (forall before after,
          calls = before ++ CallGet :: after ->
          existsb is_get before = false ->
          nth_error (heap st)
            (length (filter (fun c => negb (is_get c)) before))
          = Some (NewRenameService cfg)).
Proof.
  intros cfg calls st. subst st.
  destruct (run_heap_length calls (initial cfg)) as [Hlen Hdone].
  cbn [initial heap once_done length orb Nat.add] in Hlen, Hdone.
  split; [ exact Hlen | ]. split; [ exact Hdone | ].
  intros before after -> Hbefore.
  unfold run. rewrite fold_left_app. fold (run before (initial cfg)).
  cbn [fold_left]. fold (run after (step (run before (initial cfg)) CallGet)).
  destruct (run_heap_length before (initial cfg)) as [Hlen' Hdone'].
  cbn [initial heap once_done length orb Nat.add] in Hlen', Hdone'.
  rewrite Hbefore in Hlen', Hdone'. rewrite Nat.add_0_r in Hlen'.
  apply (proj1 (run_persist after _) (Some _)).
  cbn [step deref]. unfold GetRenameService. cbn [snd]. rewrite Hdone'.
  cbn [assign_new heap].
  rewrite <- Hlen', nth_error_app2, Nat.sub_diag by lia. cbn [nth_error].
  rewrite (proj1 (proj2 (run_persist before (initial cfg)))).
  reflexivity.
Qed.

Lemma lazy_constructor_runs_once_witness :
  let calls := [CallInit (sample_config true); CallGet; CallGet;
                CallInit (sample_config true); CallGet] in
  let st := run calls (initial (sample_config false)) in
  length (heap st) = 3%nat
  /\ nth_error (heap st) 1 = Some (NewRenameService (sample_config false)).
Proof.
  intros calls st.
  destruct (lazy_constructor_runs_once (sample_config false) calls)
    as (Hlen & _ & Hlazy).
  split; [ exact Hlen | ].
  exact (Hlazy [CallInit (sample_config true)]
           [CallGet; CallInit (sample_config true); CallGet]
           eq_refl eq_refl).
Defined.

Lemma services_persist_witness :
  let st := snd (GetRenameService (initial (sample_config true))) in
  deref (run [CallInit (sample_config false); CallGet] st) (Some 0%nat)
  = Some (NewRenameService (sample_config true)).
Proof.
  intros st.
  exact (proj1 (services_persist [CallInit (sample_config false); CallGet] st)
           (Some 0%nat) _ eq_refl).
Defined.

(** ** Errors and names *)

(** X16. A non-nil error always comes with the fallback name: when a
    generator returns an error, the name returned is the original (or
    default) name, and the error is the one [callAI] returned,
    unchanged. *)
Theorem error_means_fallback :
  forall p env s messageText name newName e,
    (fst (GenerateFileName p env s messageText name)
     = Returned (newName, Some e) ->
     newName = name
     /\ fst (callAI env s
               (buildPrompt env s messageText
                  (strings.TrimSuffix name (filepath.Ext p name))))
        = inr e)
    /\ (fst (GenerateFolderName p env s messageText name)
        = Returned (newName, Some e) ->
        newName = name
        /\ fst (callAI env s (buildFolderPrompt env s messageText name))
           = inr e).
Proof.
  intros p env s messageText name newName e.
  unfold GenerateFileName, GenerateFolderName.
  destruct (config.Enable (config s)); cbn [negb];
    [ | split; intros H; discriminate H ].
  destruct (is_empty messageText); [ split; intros H; discriminate H | ].
  split.
  - destruct (callAI env s _) as [[candidate | err] effects]; cbn [fst].
    + destruct (cleanFileName p candidate) as [cleanName | ];
        [ destruct (is_empty cleanName) | ]; cbn [fst];
        intros H; discriminate H.
    + intros H. inversion H; subst. split; reflexivity.
  - destruct (callAI env s _) as [[candidate | err] effects]; cbn [fst].
    + destruct (cleanFolderName p candidate) as [cleanName | ];
        [ destruct (is_empty cleanName) | ]; cbn [fst];
        intros H; discriminate H.
    + intros H. inversion H; subst. split; reflexivity.
Qed.

Lemma error_means_fallback_witness :
  let env := env_answer 503 (one_choice (lit "Report")) in
  fst (GenerateFileName unix_tight env (sample_service true) (lit "report")
         (lit "notes.txt"))
  = Returned (lit "notes.txt", Some (ErrAPIStatus 503 (lit "{}")))
  /\ lit "notes.txt" = lit "notes.txt".
Proof.
  intros env.
  assert (Hrun : fst (GenerateFileName unix_tight env (sample_service true)
                        (lit "report") (lit "notes.txt"))
                 = Returned (lit "notes.txt",
                             Some (ErrAPIStatus 503 (lit "{}"))))
    by reflexivity.
  split; [ exact Hrun | ].
  exact (proj1 (proj1 (error_means_fallback unix_tight env
                         (sample_service true) (lit "report")
                         (lit "notes.txt") _ _) Hrun)).
Defined.

(** ** Quotes around a proposal *)

Lemma trimLeft_app :
  forall f x y,
    strings.trimLeft f (x ++ y)
    = match strings.trimLeft f x with
      | [] => strings.trimLeft f y
      | c :: r => (c :: r) ++ y
      end.
Proof.
  intros f. induction x as [ | c x IH]; intros y; [ reflexivity | ].
  cbn [app strings.trimLeft]. destruct (f c); [ apply IH | reflexivity ].
Qed.

Lemma trimLeft_all :
  forall f x, forallb f x = true -> strings.trimLeft f x = [].
Proof.
  intros f. induction x as [ | c x IH]; intros H; [ reflexivity | ].
  cbn [forallb] in H. apply andb_true_iff in H as [Hc Hx].
  cbn [strings.trimLeft]. rewrite Hc. apply IH, Hx.
Qed.

Lemma Trim_wrapped :
  forall cutset a s b,
    forallb (strings.contains cutset) a = true ->
    forallb (strings.contains cutset) b = true ->
    strings.Trim (a ++ s ++ b) cutset = strings.Trim s cutset.
Proof.
  intros cutset a s b Ha Hb. unfold strings.Trim, strings.trimRight.
  set (f := strings.contains cutset) in *.
  rewrite !rev_app_distr, <- app_assoc.
  rewrite (trimLeft_app f (rev b)).
  rewrite (trimLeft_all f (rev b))
    by (rewrite forallb_forall in *; intros c Hc; apply Hb, in_rev, Hc).
  rewrite (trimLeft_app f (rev s)).
  destruct (strings.trimLeft f (rev s)) as [ | c r] eqn:Hs.
  - rewrite (trimLeft_all f (rev a))
      by (rewrite forallb_forall in *; intros c Hc; apply Ha, in_rev, Hc).
    reflexivity.
  - rewrite rev_app_distr, rev_involutive, trimLeft_app.
    rewrite (trimLeft_all f a Ha). reflexivity.
Qed.

(** X17. Quote characters around a proposal do not count: a proposal
    wrapped in double quotes, single quotes or backticks is sanitized
    like the proposal itself. *)
Theorem quotes_around_ignored :
  forall p opening name closing,
    forallb (strings.contains quoteCutset) opening = true ->
    forallb (strings.contains quoteCutset) closing = true ->
    cleanFileName p (opening ++ name ++ closing) = cleanFileName p name
    /\ cleanFolderName p (opening ++ name ++ closing) = cleanFolderName p name.
Proof.
  intros p opening name closing Ha Hb.
  rewrite !cleanFileName_shape, !cleanFolderName_shape.
  assert (Hsteps : clean_steps (opening ++ name ++ closing) = clean_steps name).
  { unfold clean_steps. rewrite (Trim_wrapped _ _ _ _ Ha Hb). reflexivity. }
  rewrite Hsteps. split; reflexivity.
Qed.

Lemma quotes_around_ignored_witness :
  cleanFileName unix_tight (lit "`'" ++ lit "Budget 2024" ++ lit "'`")
  = cleanFileName unix_tight (lit "Budget 2024")
  /\ cleanFileName unix_tight (lit "Budget 2024") = Returned (lit "Budget_2024").
Proof.
  split; [ | reflexivity ].
  apply (quotes_around_ignored unix_tight (lit "`'") (lit "Budget 2024")
           (lit "'`")); reflexivity.
Defined.

(** ** The cut on well-formed UTF-8 *)

Lemma string_of_runes_app :
  forall a b,
    utf8.string_of_runes (a ++ b)
    = utf8.string_of_runes a ++ utf8.string_of_runes b.
Proof. intros a b. unfold utf8.string_of_runes. apply flat_map_app. Qed.

(** X18. When the outcome of the five steps is well-formed UTF-8, the
    encoding of the scalar values [rs], and has at least 50 of them,
    [cleanFileName] returns the encoding of the first 50: a prefix, byte
    for byte, of that outcome, which ends where a code point ends.  The
    same holds for [cleanFolderName] and 30. *)
Theorem well_formed_name_cut_is_prefix :
  forall p name rs,
    Forall valid_rune rs ->
    clean_steps name = utf8.string_of_runes rs ->
    ((50 <= length rs)%nat ->
     cleanFileName p name = Returned (utf8.string_of_runes (firstn 50 rs))
     /\ clean_steps name
        = utf8.string_of_runes (firstn 50 rs)
          ++ utf8.string_of_runes (skipn 50 rs))
    /\ ((30 <= length rs)%nat ->
        cleanFolderName p name = Returned (utf8.string_of_runes (firstn 30 rs))
        /\ clean_steps name
           = utf8.string_of_runes (firstn 30 rs)
             ++ utf8.string_of_runes (skipn 30 rs)).
Proof.
  intros p name rs Hvalid Hsteps.
  rewrite cleanFileName_shape, cleanFolderName_shape.
  assert (Hcut : forall max,
             (max <= length rs)%nat ->
             limit_length p max (clean_steps name)
             = Returned (utf8.string_of_runes (firstn max rs))
             /\ clean_steps name
                = utf8.string_of_runes (firstn max rs)
                  ++ utf8.string_of_runes (skipn max rs)).
  { intros max Hmax. split.
    - destruct (Nat.le_gt_cases (length (clean_steps name)) max) as [Hle | Hgt].
      + rewrite limit_length_short by exact Hle.
        pose proof (RuneCount_le_length (clean_steps name)) as Hcount.
        unfold RuneCount in Hcount.
        rewrite Hsteps, (runes_of_string_of_runes rs Hvalid) in Hcount.
        rewrite <- Hsteps in Hcount.
        rewrite firstn_all2 by lia. rewrite Hsteps. reflexivity.
      + destruct (limit_length_cuts_code_points p max (clean_steps name) Hgt)
          as [Hrun _].
        * rewrite Hsteps, (runes_of_string_of_runes rs Hvalid). exact Hmax.
        * rewrite Hrun, Hsteps, (runes_of_string_of_runes rs Hvalid).
          reflexivity.
    - rewrite <- string_of_runes_app, firstn_skipn. exact Hsteps. }
  split; apply Hcut.
Qed.

Lemma well_formed_name_cut_is_prefix_witness :
  let name := lit "二零二四年度第三季度财务报告及下一年度预算编制说明会议纪要最终修订版本第三稿供董事会全体成员审阅使用请勿外传谢谢配合" in
  let rs := utf8.runes_of_string name in
  cleanFolderName unix_tight name
  = Returned (lit "二零二四年度第三季度财务报告及下一年度预算编制说明会议纪要最")
  /\ utf8.string_of_runes (firstn 30 rs)
     = lit "二零二四年度第三季度财务报告及下一年度预算编制说明会议纪要最".
Proof.
  intros name rs.
  assert (Hvalid : Forall valid_rune rs) by apply decode_loop_valid.
  assert (Hsteps : clean_steps name = utf8.string_of_runes rs)
    by (vm_compute; reflexivity).
  assert (Hlen : (30 <= length rs)%nat) by (vm_compute; lia).
  destruct (proj2 (well_formed_name_cut_is_prefix unix_tight name rs
                     Hvalid Hsteps) Hlen) as [Hrun _].
  assert (Hcut : utf8.string_of_runes (firstn 30 rs)
                 = lit "二零二四年度第三季度财务报告及下一年度预算编制说明会议纪要最")
    by (vm_compute; reflexivity).
  split; [ rewrite Hrun, Hcut; reflexivity | exact Hcut ].
Defined.

(** * The extension, the sanitizer and the shared instance, in full *)

(** ** The extension of a path *)

Lemma existsb_false_forallb :
  forall (f : byte -> bool) l,
    existsb f l = false -> forallb (fun c => negb (f c)) l = true.
Proof.
  intros f. induction l as [ | c l IH]; intros H; [ reflexivity | ].
  cbn [existsb] in H. apply orb_false_iff in H as [Hc Hl].
  cbn [forallb]. rewrite Hc, (IH Hl). reflexivity.
Qed.

(** The loop of [filepath.Ext] never looks behind a separator. *)
Lemma Ext_loop_behind_separator :
  forall p todo c seen,
    existsb (IsPathSeparator p) (todo ++ [c]) = true ->
    filepath.Ext_loop p (todo ++ [c]) seen = filepath.Ext_loop p todo seen.
Proof.
  intros p. induction todo as [ | d r IH]; intros c seen H.
  - cbn in H. rewrite orb_false_r in H.
    cbn [app filepath.Ext_loop]. rewrite H. reflexivity.
  - cbn [app existsb] in H. cbn [app filepath.Ext_loop].
    destruct (IsPathSeparator p d); [ reflexivity | ].
    destruct (Ascii.eqb d "."); [ reflexivity | ].
    apply IH. exact H.
Qed.

Lemma final_segment_no_separator :
  forall p path,
    forallb (fun c => negb (IsPathSeparator p c)) (final_segment p path) = true.
Proof.
  intros p. induction path as [ | c t IH]; [ reflexivity | ].
  cbn [final_segment].
  destruct (existsb (IsPathSeparator p) (c :: t)) eqn:Hsep; [ exact IH | ].
  apply existsb_false_forallb. exact Hsep.
Qed.

(** The final element is what follows the last separator. *)
Lemma final_segment_after_separator :
  forall p before c after,
    IsPathSeparator p c = true ->
    forallb (fun c => negb (IsPathSeparator p c)) after = true ->
    final_segment p (before ++ c :: after) = after.
Proof.
  intros p before c after Hc Hafter.
  assert (Hnone : existsb (IsPathSeparator p) after = false).
  { apply not_true_is_false. intros H. apply existsb_exists in H as [x [Hin Hx]].
    rewrite forallb_forall in Hafter. specialize (Hafter x Hin).
    rewrite Hx in Hafter. discriminate. }
  assert (Hlast : final_segment p (c :: after) = after).
  { cbn [final_segment existsb]. rewrite Hc. cbn [orb].
    destruct after as [ | a after']; [ reflexivity | ].
    cbn [final_segment]. rewrite Hnone. reflexivity. }
  induction before as [ | b before IH]; [ exact Hlast | ].
  cbn [app final_segment].
  replace (existsb (IsPathSeparator p) (b :: before ++ c :: after)) with true;
    [ exact IH | ].
  symmetry. apply existsb_exists. exists c. split; [ | exact Hc ].
  right. apply in_or_app. right. left. reflexivity.
Qed.

(** [filepath.Ext] reads the final element of the path only. *)
Lemma Ext_final_segment :
  forall p path, filepath.Ext p path = filepath.Ext p (final_segment p path).
Proof.
  intros p. induction path as [ | c t IH]; [ reflexivity | ].
  cbn [final_segment].
  destruct (existsb (IsPathSeparator p) (c :: t)) eqn:Hsep; [ | reflexivity ].
  rewrite <- IH. unfold filepath.Ext. cbn [rev].
  apply Ext_loop_behind_separator.
  apply existsb_exists in Hsep as [x [Hin Hx]].
  apply existsb_exists. exists x. split; [ | exact Hx ].
  apply in_rev in Hin. cbn [rev] in Hin. exact Hin.
Qed.

(** [filepath.Ext] is the text from the last dot of the final element. *)
Lemma Ext_is_from_last_dot_of_final_segment :
  forall p path,
    filepath.Ext p path = from_last_dot (final_segment p path).
Proof.
  intros p path. rewrite Ext_final_segment.
  apply Ext_is_from_last_dot, final_segment_no_separator.
Qed.

(** C6, the claim as worded fails on a name with a dot in a directory:
    for "dir.v2/notes" the text from the last dot on is ".v2/notes",
    the extension taken by the code is empty, and the candidate
    "Report" comes back as it is. *)
Lemma extension_not_from_last_dot :
  from_last_dot (lit "dir.v2/notes") = lit ".v2/notes"
  /\ filepath.Ext unix_tight (lit "dir.v2/notes") = []
  /\ cleanFileName unix_tight (lit "Report") = Returned (lit "Report")
  /\ strings.HasSuffix (lit "Report") (lit ".v2/notes") = false
  /\ fst (GenerateFileName unix_tight
            (env_answer 200 (one_choice (lit "Report")))
            (sample_service true) (lit "quarterly report")
            (lit "dir.v2/notes"))
     = Returned (lit "Report", None).
Proof.
  repeat apply conj; reflexivity.
Qed.

(** C6, amended. When the remote call succeeds and the sanitized
    candidate is not empty, [GenerateFileName] returns the candidate
    itself when it ends with the extension of the original name, and
    the candidate followed by that extension when it does not; the
    extension ([filepath.Ext]) is the text from the last dot of the
    final path element of the original name on, empty when that element
    has no dot. *)
Theorem extension_of_final_segment_reappended :
  forall p env s messageText name candidate cleanName,
    config.Enable (config s) = true ->
    messageText <> [] ->
    fst (callAI env s
           (buildPrompt env s messageText
              (strings.TrimSuffix name (filepath.Ext p name))))
    = inl candidate ->
    cleanFileName p candidate = Returned cleanName ->
    cleanName <> [] ->
    let ext := from_last_dot (final_segment p name) in
    ((exists pre, cleanName = pre ++ ext) ->
     fst (GenerateFileName p env s messageText name)
     = Returned (cleanName, None))
    /\ (~ (exists pre, cleanName = pre ++ ext) ->
        fst (GenerateFileName p env s messageText name)
        = Returned (cleanName ++ ext, None))
    /\ filepath.Ext p name = ext.
Proof.
  intros p env s messageText name candidate cleanName
         Hon Htext Hcall Hclean Hne ext.
  assert (Hext : filepath.Ext p name = ext)
    by apply Ext_is_from_last_dot_of_final_segment.
  clearbody ext. subst ext.
  unfold GenerateFileName. rewrite Hon. cbn [negb].
  destruct messageText as [ | m ms]; [ contradiction | ]. cbn [is_empty].
  destruct (callAI env s _) as [res effects]. cbn [fst] in Hcall. subst res.
  rewrite Hclean.
  destruct cleanName as [ | c0 cs]; [ contradiction | ]. cbn [is_empty].
  destruct (strings.HasSuffix (c0 :: cs) (filepath.Ext p name)) eqn:Hsuf;
    cbn [negb fst].
  - split; [ reflexivity | ].
    split; [ | reflexivity ].
    intros Hno. exfalso. apply Hno. apply HasSuffix_spec. exact Hsuf.
  - split; [ | split; reflexivity ].
    intros Hyes. apply HasSuffix_spec in Hyes. congruence.
Qed.

(** The round trip of the specification: candidate "Report", original
    name "notes.txt". *)
Lemma extension_of_final_segment_reappended_witness :
  fst (GenerateFileName unix_tight (env_answer 200 (one_choice (lit "Report")))
         (sample_service true) (lit "quarterly report") (lit "notes.txt"))
  = Returned (lit "Report.txt", None).
Proof.
  refine (proj1 (proj2 (extension_of_final_segment_reappended unix_tight
                          (env_answer 200 (one_choice (lit "Report")))
                          (sample_service true) (lit "quarterly report")
                          (lit "notes.txt") (lit "Report") (lit "Report")
                          _ _ _ _ _)) _).
  - reflexivity.
  - discriminate.
  - reflexivity.
  - reflexivity.
  - discriminate.
  - intros [pre Hpre]. apply (f_equal (@rev byte)) in Hpre.
    rewrite rev_app_distr in Hpre. vm_compute in Hpre. discriminate Hpre.
Defined.

(** ** The sanitizer, word by word *)

(** Both patterns applied in turn, one byte at a time. *)
Lemma patterns_cons :
  forall inrun c t,
    regexp.ReplaceAll_plus_from inrun multiSpace
      (regexp.ReplaceAll_class invalidChars (c :: t) (lit "_")) (lit "_")
    = if filler c then
        if inrun then
          regexp.ReplaceAll_plus_from true multiSpace
            (regexp.ReplaceAll_class invalidChars t (lit "_")) (lit "_")
        else
          "_"%char :: regexp.ReplaceAll_plus_from true multiSpace
                        (regexp.ReplaceAll_class invalidChars t (lit "_"))
                        (lit "_")
      else
        c :: regexp.ReplaceAll_plus_from false multiSpace
               (regexp.ReplaceAll_class invalidChars t (lit "_")) (lit "_").
Proof.
  intros inrun c t. unfold regexp.ReplaceAll_class, filler.
  cbn [flat_map].
  destruct (invalidChars c) eqn:Hinv; cbn [orb].
  - change (lit "_") with ["_"%char]. cbn [app regexp.ReplaceAll_plus_from].
    change (multiSpace "_") with true. cbn iota.
    destruct inrun; reflexivity.
  - cbn [app regexp.ReplaceAll_plus_from].
    destruct (multiSpace c); destruct inrun; reflexivity.
Qed.

(** What the two patterns give is the joined name, up to one underscore
    at the end. *)
Lemma patterns_joined :
  forall s,
    (exists tail,
        forallb (strings.contains (lit "_")) tail = true
        /\ regexp.ReplaceAll_plus_from false multiSpace
             (regexp.ReplaceAll_class invalidChars s (lit "_")) (lit "_")
           = joined false s ++ tail)
    /\ (exists tail,
           forallb (strings.contains (lit "_")) tail = true
           /\ "_"%char :: regexp.ReplaceAll_plus_from true multiSpace
                            (regexp.ReplaceAll_class invalidChars s (lit "_"))
                            (lit "_")
              = joined true s ++ tail).
Proof.
  induction s as [ | c t [[ta [Hta IHa]] [tb [Htb IHb]]]].
  - split; [ exists []; split; reflexivity | ].
    exists ["_"%char]. split; reflexivity.
  - rewrite !patterns_cons. cbn [joined].
    destruct (filler c).
    + split; exists tb; (split; [ exact Htb | exact IHb ]).
    + split; exists ta; (split; [ exact Hta | ]); rewrite IHa; reflexivity.
Qed.

(** Fillers at the start leave at most one underscore at the start of
    the joined name. *)
Lemma joined_leading :
  forall s pending,
    exists head,
      forallb (strings.contains (lit "_")) head = true
      /\ joined pending s = head ++ kept_joined s.
Proof.
  unfold kept_joined.
  induction s as [ | c t IH]; intros pending.
  - exists []. split; reflexivity.
  - cbn [joined strings.trimLeft]. destruct (filler c) eqn:Hc.
    + apply IH.
    + cbn [joined]. rewrite Hc. destruct pending.
      * exists ["_"%char]. split; reflexivity.
      * exists []. split; reflexivity.
Qed.

Lemma filler_underscore :
  forall c, strings.contains (lit "_") c = true -> filler c = true.
Proof.
  intros c H. change (lit "_") with ["_"%char] in H. cbn in H.
  rewrite orb_false_r in H. unfold filler, multiSpace. rewrite H.
  rewrite !orb_true_r. reflexivity.
Qed.

Lemma contains_underscore_kept :
  forall c, filler c = false -> strings.contains (lit "_") c = false.
Proof.
  intros c H. destruct (strings.contains (lit "_") c) eqn:Hc; [ | reflexivity ].
  rewrite (filler_underscore c Hc) in H. discriminate.
Qed.

(** A joined name ends with a kept byte. *)
Lemma joined_last :
  forall s pending,
    joined pending s = []
    \/ exists pre c, joined pending s = pre ++ [c] /\ filler c = false.
Proof.
  induction s as [ | c t IH]; intros pending; [ left; reflexivity | ].
  cbn [joined]. destruct (filler c) eqn:Hc; [ apply IH | ].
  right. destruct (IH false) as [Hnil | [pre [d [Hpre Hd]]]].
  - rewrite Hnil. destruct pending.
    + exists ["_"%char], c. split; [ reflexivity | exact Hc ].
    + exists [], c. split; [ reflexivity | exact Hc ].
  - rewrite Hpre. destruct pending.
    + exists ("_"%char :: c :: pre), d. split; [ reflexivity | exact Hd ].
    + exists (c :: pre), d. split; [ reflexivity | exact Hd ].
Qed.

(** The kept parts joined have no underscore at either end. *)
Lemma kept_joined_edges :
  forall s,
    first_byte_in (lit "_") (kept_joined s) = false
    /\ last_byte_in (lit "_") (kept_joined s) = false.
Proof.
  intros s. split.
  - unfold kept_joined.
    assert (Hhead : forall x,
               strings.trimLeft filler s = x ->
               match x with [] => True | c :: _ => filler c = false end).
    { induction s as [ | c t IH]; intros x Hx; [ subst x; exact I | ].
      cbn [strings.trimLeft] in Hx. destruct (filler c) eqn:Hc.
      - apply IH, Hx.
      - subst x. exact Hc. }
    specialize (Hhead _ eq_refl).
    destruct (strings.trimLeft filler s) as [ | c t]; [ reflexivity | ].
    cbn [joined]. rewrite Hhead. cbn [first_byte_in].
    apply contains_underscore_kept, Hhead.
  - unfold last_byte_in, kept_joined.
    destruct (joined_last (strings.trimLeft filler s) false)
      as [Hnil | [pre [c [Hpre Hc]]]].
    + rewrite Hnil. reflexivity.
    + rewrite Hpre, rev_app_distr. cbn [rev app first_byte_in].
      apply contains_underscore_kept, Hc.
Qed.

(** The last three steps of the sanitizer, before the length limit. *)
Lemma patterns_then_trim :
  forall s,
    strings.Trim
      (regexp.ReplaceAll_plus multiSpace
         (regexp.ReplaceAll_class invalidChars s (lit "_")) (lit "_"))
      (lit "_")
    = kept_joined s.
Proof.
  intros s. unfold regexp.ReplaceAll_plus.
  destruct (patterns_joined s) as [[tail [Htail Heq]] _]. rewrite Heq.
  destruct (joined_leading s false) as [head [Hhead Hj]]. rewrite Hj.
  rewrite <- app_assoc.
  rewrite (Trim_wrapped (lit "_") head (kept_joined s) tail Hhead Htail).
  destruct (kept_joined_edges s) as [Hfirst Hlast].
  apply Trim_id; assumption.
Qed.

Lemma clean_steps_kept_joined :
  forall name,
    clean_steps name
    = kept_joined (strings.TrimSpace (strings.Trim name quoteCutset)).
Proof.
  intros name. unfold clean_steps. apply patterns_then_trim.
Qed.

(** Bytes that are not fillers are copied as they are. *)
Lemma kept_joined_plain :
  forall s,
    forallb (fun c => negb (filler c)) s = true -> kept_joined s = s.
Proof.
  unfold kept_joined.
  induction s as [ | c t IH]; intros H; [ reflexivity | ].
  cbn [forallb] in H. apply andb_true_iff in H as [Hc Ht].
  apply negb_true_iff in Hc.
  cbn [strings.trimLeft]. rewrite Hc. cbn [joined]. rewrite Hc.
  f_equal. specialize (IH Ht).
  destruct t as [ | d t']; [ reflexivity | ].
  cbn [forallb] in Ht. apply andb_true_iff in Ht as [Hd _].
  apply negb_true_iff in Hd.
  cbn [strings.trimLeft] in IH. rewrite Hd in IH. exact IH.
Qed.

Lemma joined_after_kept :
  forall x pending c rest,
    filler c = false ->
    joined pending (x ++ c :: rest)
    = joined pending (x ++ [c]) ++ joined false rest.
Proof.
  induction x as [ | a x IH]; intros pending c rest Hc.
  - cbn [app joined]. rewrite Hc. destruct pending; reflexivity.
  - cbn [app joined]. destruct (filler a); [ apply IH, Hc | ].
    destruct pending; cbn [app]; rewrite (IH false c rest Hc); reflexivity.
Qed.

Lemma kept_joined_after_kept :
  forall x c rest,
    filler c = false ->
    kept_joined (x ++ c :: rest) = kept_joined (x ++ [c]) ++ joined false rest.
Proof.
  unfold kept_joined.
  induction x as [ | a x IH]; intros c rest Hc.
  - cbn [app strings.trimLeft]. rewrite Hc. cbn [joined]. rewrite Hc.
    reflexivity.
  - cbn [app strings.trimLeft]. destruct (filler a) eqn:Ha; [ apply IH, Hc | ].
    apply (joined_after_kept (a :: x) false c rest Hc).
Qed.

Lemma joined_fillers :
  forall gap rest pending,
    gap <> [] -> forallb filler gap = true ->
    joined pending (gap ++ rest) = joined true rest.
Proof.
  induction gap as [ | c gap IH]; intros rest pending Hne Hall;
    [ contradiction | ].
  cbn [forallb] in Hall. apply andb_true_iff in Hall as [Hc Hrun].
  cbn [app joined]. rewrite Hc.
  destruct gap as [ | d gap']; [ reflexivity | ].
  apply IH; [ discriminate | exact Hrun ].
Qed.

(** Between two kept bytes, a run of fillers is one underscore, and no
    filler is nothing. *)
Lemma kept_joined_run :
  forall x c gap d y,
    filler c = false -> filler d = false ->
    forallb filler gap = true ->
    kept_joined (x ++ c :: gap ++ d :: y)
    = kept_joined (x ++ [c])
      ++ (match gap with [] => [] | _ => ["_"%char] end)
      ++ kept_joined (d :: y).
Proof.
  intros x c gap d y Hc Hd Hrun.
  rewrite (kept_joined_after_kept x c (gap ++ d :: y) Hc). f_equal.
  assert (Hy : kept_joined (d :: y) = d :: joined false y).
  { unfold kept_joined. cbn [strings.trimLeft]. rewrite Hd.
    cbn [joined]. rewrite Hd. reflexivity. }
  rewrite Hy.
  destruct gap as [ | r gap'].
  - cbn [app joined]. rewrite Hd. reflexivity.
  - rewrite (joined_fillers (r :: gap') (d :: y) false);
      [ | discriminate | exact Hrun ].
    cbn [joined app]. rewrite Hd. reflexivity.
Qed.

(** Fillers at the ends leave nothing. *)
Lemma kept_joined_ends :
  forall before s after,
    forallb filler before = true -> forallb filler after = true ->
    kept_joined (before ++ s ++ after) = kept_joined s.
Proof.
  intros before s after Hb Ha.
  assert (Hright : forall x pending,
             joined pending (x ++ after) = joined pending x).
  { induction x as [ | c x IH]; intros pending.
    - cbn [app]. clear Hb. revert pending.
      induction after as [ | a after IH]; intros pending; [ reflexivity | ].
      cbn [forallb] in Ha. apply andb_true_iff in Ha as [Hc Hafter].
      cbn [joined]. rewrite Hc. rewrite (IH Hafter). reflexivity.
    - cbn [app joined]. destruct (filler c); [ apply IH | ].
      destruct pending; rewrite IH; reflexivity. }
  unfold kept_joined.
  rewrite trimLeft_app, (trimLeft_all filler before Hb).
  rewrite trimLeft_app.
  destruct (strings.trimLeft filler s) as [ | c r] eqn:Hs.
  - rewrite (trimLeft_all filler after Ha). reflexivity.
  - apply Hright.
Qed.

(** C7, amended. Once the quote characters and the white space at both
    ends are stripped, the sanitizer hands to the length limit the name
    in which each of the nine reserved characters has become an
    underscore, each run of underscores and white space of the class
    [\s] (space, tab, newline, form feed, carriage return) has become
    one underscore, and the underscores at both ends are gone: the bytes
    that are neither reserved, nor in [\s], nor an underscore are kept
    in order, one underscore stands wherever such a run separated two of
    them, and nothing else is left.  This holds of [cleanFileName] with
    the limit 50 and of [cleanFolderName] with the limit 30, and the
    result is that name itself when it is within the limit; the
    candidate "  My/File:Name??  " becomes "My_File_Name".  Every name a
    sanitizer returns is free of reserved characters and of the white
    space of [\s], and has no two underscores in a row. *)
Theorem sanitizer_joins_kept_parts :
  forall p name,
    let core := strings.TrimSpace (strings.Trim name quoteCutset) in
    cleanFileName p name = limit_length p 50 (kept_joined core)
    /\ cleanFolderName p name = limit_length p 30 (kept_joined core)
    /\ ((length (kept_joined core) <= 50)%nat ->
        cleanFileName p name = Returned (kept_joined core))
    /\ ((length (kept_joined core) <= 30)%nat ->
        cleanFolderName p name = Returned (kept_joined core))
    /\ (forall x c gap d y,
          core = x ++ c :: gap ++ d :: y ->
          filler c = false -> filler d = false ->
          gap <> [] -> forallb filler gap = true ->
          kept_joined core
          = kept_joined (x ++ [c]) ++ "_"%char :: kept_joined (d :: y))
    /\ (forall before s after,
          core = before ++ s ++ after ->
          forallb filler before = true -> forallb filler after = true ->
          forallb (fun c => negb (filler c)) s = true ->
          kept_joined core = s)
    /\ first_byte_in (lit "_") (kept_joined core) = false
    /\ last_byte_in (lit "_") (kept_joined core) = false
    /\ (forall out,
          cleanFileName p name = Returned out
          \/ cleanFolderName p name = Returned out ->
          (forall c, In c out -> invalidChars c = false /\ perl_space c = false)
          /\ (forall pre post, out <> pre ++ "_"%char :: "_"%char :: post))
    /\ cleanFileName p (lit "  My/File:Name??  ") = Returned (lit "My_File_Name").
Proof.
  intros p name core.
  assert (Hfile : cleanFileName p name = limit_length p 50 (kept_joined core))
    by (rewrite cleanFileName_shape, clean_steps_kept_joined; reflexivity).
  assert (Hfolder : cleanFolderName p name
                    = limit_length p 30 (kept_joined core))
    by (rewrite cleanFolderName_shape, clean_steps_kept_joined; reflexivity).
  split; [ exact Hfile | ]. split; [ exact Hfolder | ].
  split; [ intros Hlen; rewrite Hfile; apply limit_length_short, Hlen | ].
  split; [ intros Hlen; rewrite Hfolder; apply limit_length_short, Hlen | ].
  split.
  { intros x c gap d y Hcore Hc Hd Hne Hrun. rewrite Hcore.
    rewrite (kept_joined_run x c gap d y Hc Hd Hrun).
    destruct gap as [ | r gap']; [ contradiction | reflexivity ]. }
  split.
  { intros before s after Hcore Hb Ha Hs. rewrite Hcore.
    rewrite (kept_joined_ends before s after Hb Ha).
    apply kept_joined_plain, Hs. }
  split; [ apply kept_joined_edges | ].
  split; [ apply kept_joined_edges | ].
  split.
  - intros out Hrun.
    assert (Htidy : tidy out = true).
    { destruct Hrun as [Hrun | Hrun];
        [ rewrite cleanFileName_shape in Hrun
        | rewrite cleanFolderName_shape in Hrun ];
        apply (limit_length_tidy _ _ _ _ Hrun), clean_steps_tidy. }
    split.
    + intros c Hin. pose proof (tidy_from_plain _ _ _ Htidy Hin) as Hp.
      unfold plain in Hp. apply andb_true_iff in Hp as [Hi Hs].
      apply negb_true_iff in Hi, Hs. split; assumption.
    + intros pre post. apply (tidy_no_double_underscore _ false). exact Htidy.
  - rewrite cleanFileName_shape. apply limit_length_short. vm_compute. lia.
Qed.

(** The candidate of the specification, and one with a reserved
    character and a run of three fillers inside. *)
Lemma sanitizer_joins_kept_parts_witness :
  cleanFileName unix_tight (lit "  My/File:Name??  ")
  = Returned (lit "My_File_Name")
  /\ cleanFolderName unix_tight (lit "'a*b _:c'") = Returned (lit "a_b_c").
Proof.
  split.
  - exact (proj1 (proj2 (proj2 (sanitizer_joins_kept_parts unix_tight
                                  (lit "  My/File:Name??  "))))
             ltac:(vm_compute; lia)).
  - exact (proj1 (proj2 (proj2 (proj2 (sanitizer_joins_kept_parts unix_tight
                                         (lit "'a*b _:c'")))))
             ltac:(vm_compute; lia)).
Defined.

(** ** The shared instance, call after call *)

(** C10, the claim as worded fails when a service is injected after
    [GetRenameService] has executed: the call before and the call after
    [InitRenameService] return two instances. *)
Lemma get_init_get_differ :
  let '(first, st1) := GetRenameService (initial (sample_config false)) in
  let '(second, st2) :=
    GetRenameService (InitRenameService (sample_config true) st1) in
  once_done st1 = true
  /\ first = Some 0%nat
  /\ second = Some 1%nat
  /\ first <> second
  /\ option_map config (deref st2 first) = Some (sample_config false)
  /\ option_map config (deref st2 second) = Some (sample_config true).
Proof.
  cbn. repeat apply conj; try reflexivity. discriminate.
Qed.

(** C10, amended. [InitRenameService] stores a new service, holding the
    configuration it was given, in [renameService] and leaves the
    once-guard as it was.  While the guard is not done, the next
    [GetRenameService] runs the constructor: it returns a service other
    than the injected one, whose configuration is the global one, makes
    it the shared instance and marks the guard done.  Once
    [GetRenameService] has executed the guard is done, and from then on
    every [GetRenameService] returns the instance stored at that moment
    and changes nothing: calls in a row return the same instance, and a
    call after a later [InitRenameService] returns the injected one. *)
Theorem init_leaves_once_guard :
  forall cfg st,
    let st1 := InitRenameService cfg st in
    once_done st1 = once_done st
    /\ Cfg_AIRename st1 = Cfg_AIRename st
    /\ option_map config (deref st1 (renameService st1)) = Some cfg
    /\ option_map client (deref st1 (renameService st1))
       = Some {| http.Timeout := config.Timeout cfg |}
    /\ (once_done st = false ->
        let '(got, st2) := GetRenameService st1 in
        got <> renameService st1
        /\ option_map config (deref st2 got) = Some (Cfg_AIRename st)
        /\ option_map client (deref st2 got)
           = Some {| http.Timeout := config.Timeout (Cfg_AIRename st) |}
        /\ option_map config (deref st2 (renameService st1)) = Some cfg
        /\ renameService st2 = got
        /\ once_done st2 = true)
    /\ (once_done st = true ->
        GetRenameService st1 = (renameService st1, st1))
    /\ (forall st', once_done (snd (GetRenameService st')) = true)
    /\ (forall st',
          once_done st' = true ->
          GetRenameService st' = (renameService st', st'))
    /\ (forall st', let '(got, st2) := GetRenameService st' in
        forall n,
          GetRenameService_times n st2 = (repeat got n, st2)).
Proof.
  intros cfg st st1. subst st1.
  unfold InitRenameService, GetRenameService, assign_new, deref.
  cbn [once_done renameService heap Cfg_AIRename].
  split; [ reflexivity | ].
  split; [ reflexivity | ].
  split; [ rewrite nth_error_app2, Nat.sub_diag by lia; reflexivity | ].
  split; [ rewrite nth_error_app2, Nat.sub_diag by lia; reflexivity | ].
  split.
  { intros Hnot. rewrite Hnot.
    cbn [once_done renameService heap Cfg_AIRename].
    rewrite !length_app. cbn [length].
    split; [ intros H; inversion H; lia | ].
    assert (Hgot : nth_error
                     ((heap st ++ [NewRenameService cfg])
                        ++ [NewRenameService (Cfg_AIRename st)])
                     (length (heap st) + 1)
                   = Some (NewRenameService (Cfg_AIRename st))).
    { rewrite nth_error_app2 by (rewrite length_app; cbn; lia).
      rewrite length_app. cbn [length]. rewrite Nat.sub_diag. reflexivity. }
    rewrite Hgot.
    split; [ reflexivity | ]. split; [ reflexivity | ].
    split; [ | split; reflexivity ].
    rewrite nth_error_app1 by (rewrite length_app; cbn; lia).
    rewrite nth_error_app2, Nat.sub_diag by lia. reflexivity. }
  split; [ intros Hdone; rewrite Hdone; reflexivity | ].
  split; [ intros st'; destruct (once_done st') eqn:Hd; cbn [snd];
           [ exact Hd | reflexivity ] | ].
  split; [ intros st' Hdone; rewrite Hdone; reflexivity | ].
  intros st'.
  set (st2 := if once_done st' then st'
              else {| heap := heap st' ++ [NewRenameService (Cfg_AIRename st')];
                      renameService := Some (length (heap st'));
                      once_done := true;
                      Cfg_AIRename := Cfg_AIRename st' |}).
  assert (Hdone : once_done st2 = true).
  { subst st2. destruct (once_done st') eqn:Hd; [ exact Hd | reflexivity ]. }
  induction n as [ | n IH]; [ reflexivity | ].
  cbn [GetRenameService_times repeat]. unfold GetRenameService at 1.
  rewrite Hdone.
  change (singleton.assign_new) with assign_new in *.
  rewrite IH. reflexivity.
Qed.

(** A service injected into a fresh process is replaced by the first
    [GetRenameService]. *)
Lemma init_leaves_once_guard_witness :
  let st1 := InitRenameService (sample_config true)
               (initial (sample_config false)) in
  let '(got, st2) := GetRenameService st1 in
  got <> renameService st1
  /\ option_map config (deref st2 got) = Some (sample_config false)
  /\ option_map client (deref st2 got)
     = Some {| http.Timeout := config.Timeout (sample_config false) |}
  /\ option_map config (deref st2 (renameService st1))
     = Some (sample_config true)
  /\ renameService st2 = got
  /\ once_done st2 = true.
Proof.
  exact (proj1 (proj2 (proj2 (proj2 (proj2
           (init_leaves_once_guard (sample_config true)
              (initial (sample_config false)))))))
           eq_refl).
Defined.
